(** * Workflow execution engine

    A shallow embedding of the Go package [workflow]
    (api/services/workflow): the data model of node.go and workflow.go,
    the errors of errors.go, and [processNodes] with its node handlers
    from node_processor.go, in the version of that file that records
    steps through [appendStep] and calls the weather and email handlers
    through the package variables [processWeatherNodeFn] and
    [processEmailNodeFn]. The version that writes the step literal in
    place and calls the two handlers directly is the case
    [defaultHandlers] below. The two pointers [processNodes] receives
    are taken to be non-nil, as its caller passes them. *)

From Stdlib Require Import Floats ZArith.
From stdpp Require Import gmap strings list.

#[local] Set Warnings "-register-all,-clear-no-such-hyp".
#[local] Open Scope string_scope.

(** ** Data model (node.go, workflow.go) *)

(** [EmailTemplate] of node.go. *)
Record EmailTemplate := {
  Subject : string;
  Body : string
}.

(** [NodeMetadata]: the processor reads [EmailTemplate] (a pointer,
    [None] is Go's nil) and [APIEndpoint]; the layout-only fields
    (handles, input and output variable lists, options, condition
    expression) are never read by it. *)
Record NodeMetadata := {
  MetaEmailTemplate : option EmailTemplate;
  APIEndpoint : string
}.

(** [NodeData]. *)
Record NodeData := {
  Label : string;
  Description : string;
  Metadata : NodeMetadata
}.

(** [Node]; [NodeType] is the Go field [Type], the position is layout only. *)
Record Node := {
  ID : string;
  NodeType : string;
  Data : NodeData
}.

(** [Edge]: source, target and label are what the processor reads. *)
Record Edge := {
  Source : string;
  Target : string;
  EdgeLabel : string
}.

(** [WorkflowDefinition]. *)
Record WorkflowDefinition := {
  WorkflowID : string;
  Nodes : list Node;
  Edges : list Edge
}.

(** [Condition], [FormData] and [ExecutePayload] of workflow.go. *)
Record Condition := {
  Operator : string;
  Threshold : float
}.

Record FormData := {
  Name : string;
  Email : string;
  City : string
}.

Record ExecutePayload := {
  PayloadFormData : FormData;
  PayloadCondition : Condition
}.

(** Values of Go's [interface{}] as they occur in the context map and in
    step outputs: nil, bool, int64, float64, string and nested maps. *)
Inductive any :=
  | VNil
  | VBool (b : bool)
  | VInt (z : Z)
  | VFloat (f : float)
  | VStr (s : string)
  | VMap (m : gmap string any).

(** [StepResult]; [StepType], [StepLabel], [StepDescription] are the Go
    fields [Type], [Label], [Description]. *)
Record StepResult := {
  NodeID : string;
  StepType : string;
  StepLabel : string;
  StepDescription : string;
  Status : string;
  Output : gmap string any
}.

(** [ExecutionResult]; [ResultStatus] is the Go field [Status]. *)
Record ExecutionResult := {
  ExecutedAt : string;
  ResultStatus : string;
  Steps : list StepResult
}.

(** ** Constants (node_processor.go) *)

Definition StartNodeID : string := "start".
Definition EndNodeID : string := "end".
Definition FormNodeID : string := "form".
Definition WeatherAPINodeID : string := "weather-api".
Definition ConditionNodeID : string := "condition".
Definition EmailNodeID : string := "email".

Definition StatusCompleted : string := "completed".
Definition StatusFailed : string := "failed".

Definition ConditionMetString : string := "condition met".
Definition ConditionNotMetString : string := "condition not met".

(** The two edge labels the routing loop compares against. *)
Definition ConditionMetLabel : string := "✓ Condition Met".
Definition NoAlertLabel : string := "✗ No Alert Needed".

(** The context key written by the weather node. *)
Definition TemperatureKey : string := "weather.temperature".

(** ** Errors (errors.go) *)

(** The sentinel errors of errors.go, and [Errorf msg] for an error made
    on the spot by [fmt.Errorf]. *)
Inductive error :=
  | ErrInternalServerError
  | ErrResponseDecodeFailed
  | ErrMarshalFailed
  | ErrWorkflowNotFound
  | ErrInvalidWorkflowFormat
  | ErrMissingStartNode
  | ErrMissingEndNode
  | ErrInvalidJSON
  | ErrMissingFormFieldName
  | ErrMissingFormFieldEmail
  | ErrMissingFormFieldCity
  | Errorf (msg : string).

(** [err.Error()]. *)
Definition Error (e : error) : string :=
  match e with
  | ErrInternalServerError => "internal server error"
  | ErrResponseDecodeFailed => "failed to decode response"
  | ErrMarshalFailed => "failed to marshal results"
  | ErrWorkflowNotFound => "workflow not found"
  | ErrInvalidWorkflowFormat => "invalid workflow format"
  | ErrMissingStartNode => "missing 'start' node"
  | ErrMissingEndNode => "missing 'end' node"
  | ErrInvalidJSON => "invalid JSON"
  | ErrMissingFormFieldName => "name is required"
  | ErrMissingFormFieldEmail => "email is required"
  | ErrMissingFormFieldCity => "city is required"
  | Errorf msg => msg
  end.

(** ** Library functions used by the processor *)

(** [strings.ReplaceAll s old new] for a non-empty [old] (the three call
    sites pass the constants "_", "{{city}}" and "{{temperature}}"):
    occurrences are replaced from left to right without overlap. [skip]
    counts the bytes of a just-replaced occurrence still to be dropped. *)
Fixpoint replaceFrom (skip : nat) (s old new : string) : string :=
  match s with
  | EmptyString => EmptyString
  | String c rest =>
      match skip with
      | S k => replaceFrom k rest old new
      | O =>
          if String.prefix old s
          then new ++ replaceFrom (String.length old - 1) rest old new
          else String c (replaceFrom 0 rest old new)
      end
  end.

Definition ReplaceAll (s old new : string) : string := replaceFrom 0 s old new.

(** What the processor takes from outside the program: the clock, the
    formatting verbs of [fmt] on floats, the HTTP client and the JSON
    decoder. The clock is read around every handler call; a reading is
    indexed by the number of steps recorded when it is taken. Every
    field is a function, so a call made through it returns: a request of
    [http.Get] that is never answered (the default client sets no
    timeout) has no counterpart here, and what is proved of a run is
    proved of the runs in which these calls return. *)
Record HttpResponse := {
  StatusCode : Z;
  RespBody : string
}.

Record World := {
  (** [time.Since(startTime).Milliseconds()] *)
  elapsedMs : nat -> Z;
  (** [time.Now().UTC().Format(time.RFC3339Nano)] *)
  timestamp : nat -> string;
  (** [fmt.Sprintf("%.1f", v)] for a value of interface type *)
  sprintf_1f : any -> string;
  (** [fmt.Sprintf("%f", x)] *)
  sprintf_f : float -> string;
  (** [fmt.Sprintf("%d", n)] *)
  sprintf_d : Z -> string;
  (** [http.Get] *)
  httpGet : string -> error + HttpResponse;
  (** decoding a response body into [GeoCodingResponse]: the
      latitude and longitude of each result *)
  decodeGeo : string -> option (list (float * float));
  (** decoding a response body into [WeatherResponse]: the temperature *)
  decodeWeather : string -> option float
}.

(** ** Node handlers (node_processor.go) *)

(** A Go [error] return value: [None] is nil. *)
Definition processStartNode (node : Node) : option error := None.

Definition processEndNode (node : Node) : option error := None.

Definition processFormNode (node : Node) (payload : ExecutePayload) : option error :=
  if String.eqb (Name (PayloadFormData payload)) "" then Some ErrMissingFormFieldName
  else if String.eqb (Email (PayloadFormData payload)) "" then Some ErrMissingFormFieldEmail
  else if String.eqb (City (PayloadFormData payload)) "" then Some ErrMissingFormFieldCity
  else None.

(** [processWeatherNode]: the context map is shared with the caller, so
    the handler returns it along with the error. *)
Definition processWeatherNode (w : World) (node : Node) (payload : ExecutePayload)
    (contextData : gmap string any) : gmap string any * option error :=
  let city := City (PayloadFormData payload) in
  if String.eqb city "" then (contextData, Some ErrMissingFormFieldCity)
  else
    let geoURL := "https://geocoding-api.open-meteo.com/v1/search?name=" ++ city ++ "&count=1" in
    match httpGet w geoURL with
    | inl err => (contextData, Some (Errorf ("geocoding API request failed: " ++ Error err)))
    | inr resp =>
        match decodeGeo w (RespBody resp) with
        | None => (contextData, Some ErrResponseDecodeFailed)
        | Some [] => (contextData, Some (Errorf ("no results found for city: " ++ city)))
        | Some ((lat, lon) :: _) =>
            let apiEndpoint := APIEndpoint (Metadata (Data node)) in
            let apiEndpoint := ReplaceAll apiEndpoint "{lat}" (sprintf_f w lat) in
            let apiEndpoint := ReplaceAll apiEndpoint "{lon}" (sprintf_f w lon) in
            match httpGet w apiEndpoint with
            | inl err => (contextData, Some (Errorf ("failed to fetch weather data: " ++ Error err)))
            | inr weatherResp =>
                if negb (Z.eqb (StatusCode weatherResp) 200)
                then (contextData, Some (Errorf ("weather API returned status: " ++ sprintf_d w (StatusCode weatherResp))))
                else
                  match decodeWeather w (RespBody weatherResp) with
                  | None => (contextData, Some ErrResponseDecodeFailed)
                  | Some temperature =>
                      (<[TemperatureKey := VFloat temperature]> contextData, None)
                  end
            end
        end
    end.

(** [processConditionNode]: Go's [>], [<], [==], [>=], [<=] on float64
    are the IEEE 754 comparisons, here those of the primitive floats. *)
Definition processConditionNode (node : Node) (payload : ExecutePayload)
    (contextData : gmap string any) : bool * option error :=
  match contextData !! TemperatureKey with
  | None => (false, Some (Errorf "weather temp not in map"))
  | Some tempVal =>
      match tempVal with
      | VFloat temperature =>
          let operator := Operator (PayloadCondition payload) in
          let threshold := Threshold (PayloadCondition payload) in
          if String.eqb operator "greater_than" then (PrimFloat.ltb threshold temperature, None)
          else if String.eqb operator "less_than" then (PrimFloat.ltb temperature threshold, None)
          else if String.eqb operator "equals" then (PrimFloat.eqb temperature threshold, None)
          else if String.eqb operator "greater_than_or_equal" then (PrimFloat.leb threshold temperature, None)
          else if String.eqb operator "less_than_or_equal" then (PrimFloat.leb temperature threshold, None)
          else (false, Some (Errorf ("unsupported operator: " ++ operator)))
      | _ => (false, Some (Errorf "weather temp is not a float64"))
      end
  end.

Definition processEmailNode (node : Node) (payload : ExecutePayload) : option error := None.

(** The two package variables [processWeatherNodeFn] and
    [processEmailNodeFn], which tests overwrite with doubles. A value of
    either is a function here: a handler that does not return has no
    counterpart. *)
Record Handlers := {
  processWeatherNodeFn : Node -> ExecutePayload -> gmap string any -> gmap string any * option error;
  processEmailNodeFn : Node -> ExecutePayload -> option error
}.

(** Their initial values. *)
Definition defaultHandlers (w : World) : Handlers :=
  {| processWeatherNodeFn := processWeatherNode w;
     processEmailNodeFn := processEmailNode |}.

(** ** The traversal (processNodes) *)

(** The three variables the closure [traverse] captures and mutates.
    [visited] is a map to bool in which keys are only ever set to true;
    it is kept as the list of the ids set, oldest first, and read by
    membership. *)
Record State := {
  steps : list StepResult;
  contextData : gmap string any;
  visited : list string
}.

Definition markVisited (id : string) (st : State) : State :=
  {| steps := steps st; contextData := contextData st; visited := (visited st ++ [id])%list |}.

Definition setContext (ctx : gmap string any) (st : State) : State :=
  {| steps := steps st; contextData := ctx; visited := visited st |}.

(** The [StepResult] literal of [appendStep]. *)
Definition stepOf (node : Node) (status : string) (output : gmap string any)
    : StepResult :=
  {| NodeID := ID node;
     StepType := NodeType node;
     StepLabel := Label (Data node);
     StepDescription := Description (Data node);
     Status := status;
     Output := output |}.

(** [appendStep], on the [steps] of the state. *)
Definition appendStep (st : State) (node : Node) (status : string)
    (output : gmap string any) : State :=
  {| steps := (steps st ++ [stepOf node status output])%list;
     contextData := contextData st;
     visited := visited st |}.

(** [contextData[key]] read as a value: nil when the key is absent. *)
Definition ctxValue (ctx : gmap string any) (key : string) : any :=
  default VNil (ctx !! key).

(** The output map of a failed step. *)
Definition failedOutput (err : error) (duration : Z) : gmap string any :=
  {[ "error" := VStr (Error err); "duration" := VInt duration ]}.

(** How one call of [traverse] returns: with an error value ([None] is
    nil), or not at all because a run-time panic unwinds the stack. *)
Inductive Outcome :=
  | Returned (err : option error)
  | Panicked.

(** How control leaves the [switch node.ID] statement of [traverse]. *)
Inductive Branch :=
  | Halt (st : State)
      (** the handler failed: a failed step was appended, [return nil] *)
  | Fault (st : State)
      (** a nil dereference or a failed type assertion panics *)
  | Route (st : State) (conditionMet : bool)
      (** the condition case reaches its routing loop *)
  | Fallthrough (st : State).
      (** the switch is left; the loop over [adj[id]] follows *)

Definition branchState (b : Branch) : State :=
  match b with
  | Halt st | Fault st | Route st _ | Fallthrough st => st
  end.

(** The keys of the switch, in the order of its cases. *)
Inductive NodeKind := KStart | KEnd | KForm | KWeather | KCondition | KEmail.

(** Which case of [switch] a value selects; [None]: no case matches and
    the switch has no default. *)
Definition switchCase (key : string) : option NodeKind :=
  if String.eqb key StartNodeID then Some KStart
  else if String.eqb key EndNodeID then Some KEnd
  else if String.eqb key FormNodeID then Some KForm
  else if String.eqb key WeatherAPINodeID then Some KWeather
  else if String.eqb key ConditionNodeID then Some KCondition
  else if String.eqb key EmailNodeID then Some KEmail
  else None.

(** The constant of each case. *)
Definition caseID (kind : NodeKind) : string :=
  match kind with
  | KStart => StartNodeID
  | KEnd => EndNodeID
  | KForm => FormNodeID
  | KWeather => WeatherAPINodeID
  | KCondition => ConditionNodeID
  | KEmail => EmailNodeID
  end.

(** The case [switch node.ID] selects for a node. *)
Definition selectedCase (node : Node) : option NodeKind := switchCase (ID node).

(** The two errors [traverse] makes itself. *)
Definition errNodeNotFound (id : string) : error :=
  Errorf ("node " ++ id ++ " not found in nodeMap").

Definition errNoMatchingEdge (id : string) : error :=
  Errorf ("no matching conditional edge for node " ++ id).

(** The routing loop of the condition case: the target of the first edge
    leaving [id] whose label fits the outcome. *)
Fixpoint routeEdge (id : string) (conditionMet : bool) (edges : list Edge) : option string :=
  match edges with
  | [] => None
  | edge :: rest =>
      if negb (String.eqb (Source edge) id) then routeEdge id conditionMet rest
      else if conditionMet && String.eqb (EdgeLabel edge) ConditionMetLabel then Some (Target edge)
      else if negb conditionMet && String.eqb (EdgeLabel edge) NoAlertLabel then Some (Target edge)
      else routeEdge id conditionMet rest
  end.

(** The loop [for _, next := range targets { if err := traverse(next);
    err != nil { return err } }; return nil], over the recursive call. *)
Fixpoint forEachNext (call : string -> State -> option (State * Outcome))
    (targets : list string) (st : State) : option (State * Outcome) :=
  match targets with
  | [] => Some (st, Returned None)
  | next :: rest =>
      match call next st with
      | Some (st', Returned None) => forEachNext call rest st'
      | r => r
      end
  end.

(** What a call of [processNodes] does: it returns its two results (each
    possibly nil) or panics. *)
Inductive Run :=
  | Return (result : option ExecutionResult) (err : option error)
  | Panic.

(** [adj[id]] as a function of the edge list: the targets of the edges
    leaving [id], in the order the edges are declared. *)
Definition outgoing (wf : WorkflowDefinition) (id : string) : list string :=
  Target <$> filter (fun edge => Source edge = id) (Edges wf).

(** ** Properties of recorded steps, used to state the results *)

(** A step carries the elapsed time of its handler call. *)
Definition hasDuration (s : StepResult) : Prop :=
  exists d, Output s !! "duration" = Some (VInt d).

(** A step is completed or failed. *)
Definition hasStatus (s : StepResult) : Prop :=
  Status s = StatusCompleted \/ Status s = StatusFailed.

(** The steps recorded are well formed: no id is marked twice, the node
    ids of the steps follow the order in which ids were marked, every
    step is completed or failed, carries its elapsed time and belongs to
    a node some case of the switch selects. *)
Definition wellFormed (st : State) : Prop :=
  NoDup (visited st) /\
  sublist (NodeID <$> steps st) (visited st) /\
  Forall hasStatus (steps st) /\
  Forall hasDuration (steps st) /\
  Forall (fun s => is_Some (switchCase (NodeID s))) (steps st).

(** The completed step of a condition node that evaluated to [b]. *)
Definition conditionStep (s : StepResult) (b : bool) : Prop :=
  NodeID s = ConditionNodeID /\ Status s = StatusCompleted /\
  Output s !! "conditionMet" = Some (VBool b).

(** The ids [traverse] can be called with: the start id and the targets
    of the edges. *)
Definition callable (wf : WorkflowDefinition) : gset string :=
  {[StartNodeID]} ∪ list_to_set (Target <$> Edges wf).

(** The ids marked so far, as a set. *)
Definition visitedSet (st : State) : gset string := list_to_set (visited st).

Section Engine.
Context (w : World) (h : Handlers).
Context (wf : WorkflowDefinition) (payload : ExecutePayload).

(** [nodeMap[node.ID] = node] for every node, later nodes overwrite. *)
Definition nodeMap : gmap string Node :=
  foldl (fun m node => <[ID node := node]> m) ∅ (Nodes wf).

(** [adj[edge.Source] = append(adj[edge.Source], edge.Target)]. *)
Definition adj : gmap string (list string) :=
  foldl (fun m edge => <[Source edge := (default [] (m !! Source edge) ++ [Target edge])%list]> m)
    ∅ (Edges wf).

(** The elapsed time measured around the handler call about to be made. *)
Definition duration (st : State) : Z := elapsedMs w (length (steps st)).

(** The [switch node.ID] statement. *)
Definition switchNode (node : Node) (st : State) : Branch :=
  match selectedCase node with
  | Some KStart =>
      match processStartNode node with
      | Some err => Halt (appendStep st node StatusFailed (failedOutput err (duration st)))
      | None =>
          Fallthrough (appendStep st node StatusCompleted
            {[ "duration" := VInt (duration st) ]})
      end
  | Some KEnd =>
      match processEndNode node with
      | Some err => Halt (appendStep st node StatusFailed (failedOutput err (duration st)))
      | None =>
          Fallthrough (appendStep st node StatusCompleted
            {[ "duration" := VInt (duration st) ]})
      end
  | Some KForm =>
      match processFormNode node payload with
      | Some err => Halt (appendStep st node StatusFailed (failedOutput err (duration st)))
      | None =>
          Fallthrough (appendStep st node StatusCompleted
            {[ "name" := VStr (Name (PayloadFormData payload));
               "email" := VStr (Email (PayloadFormData payload));
               "city" := VStr (City (PayloadFormData payload));
               "duration" := VInt (duration st) ]})
      end
  | Some KWeather =>
      let '(ctx, err) := processWeatherNodeFn h node payload (contextData st) in
      let st' := setContext ctx st in
      match err with
      | Some err => Halt (appendStep st' node StatusFailed (failedOutput err (duration st)))
      | None =>
          Fallthrough (appendStep st' node StatusCompleted
            {[ "temperature" := ctxValue ctx TemperatureKey;
               "location" := VStr (City (PayloadFormData payload));
               "duration" := VInt (duration st) ]})
      end
  | Some KCondition =>
      match processConditionNode node payload (contextData st) with
      | (_, Some err) => Halt (appendStep st node StatusFailed (failedOutput err (duration st)))
      | (conditionMet, None) =>
          let operatorReadable := ReplaceAll (Operator (PayloadCondition payload)) "_" " " in
          match ctxValue (contextData st) TemperatureKey with
          | VFloat actualValue =>
              let threshold := Threshold (PayloadCondition payload) in
              let conditionText :=
                if conditionMet then ConditionMetString else ConditionNotMetString in
              Route (appendStep st node StatusCompleted
                {[ "conditionMet" := VBool conditionMet;
                   "threshold" := VFloat (Threshold (PayloadCondition payload));
                   "operator" := VStr (Operator (PayloadCondition payload));
                   "actualValue" := ctxValue (contextData st) TemperatureKey;
                   "message" := VStr ("Temperature " ++ sprintf_1f w (VFloat actualValue)
                      ++ "°C is " ++ operatorReadable ++ " "
                      ++ sprintf_1f w (VFloat threshold) ++ "°C - " ++ conditionText);
                   "duration" := VInt (duration st) ]}) conditionMet
          | _ => Fault st
          end
      end
  | Some KEmail =>
      match processEmailNodeFn h node payload with
      | Some err => Halt (appendStep st node StatusFailed (failedOutput err (duration st)))
      | None =>
          match MetaEmailTemplate (Metadata (Data node)) with
          | None => Fault st
          | Some template =>
              Fallthrough (appendStep st node StatusCompleted
                {[ "emailDraft" := VMap
                     {[ "to" := VStr (Email (PayloadFormData payload));
                        "from" := VStr "weather-alerts@example.com";
                        "subject" := VStr (Subject template);
                        "body" := VStr (ReplaceAll
                           (ReplaceAll (Body template) "{{city}}" (City (PayloadFormData payload)))
                           "{{temperature}}"
                           (sprintf_1f w (ctxValue (contextData st) TemperatureKey)));
                        "timestamp" := VStr (timestamp w (length (steps st))) ]};
                   "deliveryStatus" := VStr "sent";
                   "messageId" := VStr "msg_abc123def456";
                   "emailSent" := VBool true;
                   "duration" := VInt (duration st) ]})
          end
      end
  | None => Fallthrough st
  end.

(** The handler call of the case selected for [node], apart from what
    the switch does with its result: the context map after the call
    and the error returned. No case, no call. *)
Definition handlerCall (node : Node) (ctx : gmap string any)
    : gmap string any * option error :=
  match selectedCase node with
  | Some KStart => (ctx, processStartNode node)
  | Some KEnd => (ctx, processEndNode node)
  | Some KForm => (ctx, processFormNode node payload)
  | Some KWeather => processWeatherNodeFn h node payload ctx
  | Some KCondition => (ctx, snd (processConditionNode node payload ctx))
  | Some KEmail => (ctx, processEmailNodeFn h node payload)
  | None => (ctx, None)
  end.

(** The ways through [switchNode], by what they leave behind. *)
Inductive SwitchSpec (node : Node) (st : State) : Branch -> Prop :=
  | spec_pass :
      selectedCase node = None ->
      SwitchSpec node st (Fallthrough st)
  | spec_halt ctx err :
      handlerCall node (contextData st) = (ctx, Some err) ->
      SwitchSpec node st
        (Halt (appendStep (setContext ctx st) node StatusFailed
                 (failedOutput err (duration st))))
  | spec_next kind ctx out :
      selectedCase node = Some kind ->
      kind <> KCondition ->
      handlerCall node (contextData st) = (ctx, None) ->
      (kind = KEmail -> is_Some (MetaEmailTemplate (Metadata (Data node)))) ->
      out !! "duration" = Some (VInt (duration st)) ->
      SwitchSpec node st
        (Fallthrough (appendStep (setContext ctx st) node StatusCompleted out))
  | spec_route conditionMet out :
      selectedCase node = Some KCondition ->
      processConditionNode node payload (contextData st) = (conditionMet, None) ->
      out !! "conditionMet" = Some (VBool conditionMet) ->
      out !! "duration" = Some (VInt (duration st)) ->
      SwitchSpec node st
        (Route (appendStep st node StatusCompleted out) conditionMet)
  | spec_fault :
      selectedCase node = Some KEmail ->
      processEmailNodeFn h node payload = None ->
      MetaEmailTemplate (Metadata (Data node)) = None ->
      SwitchSpec node st (Fault st).

(** The closure [traverse]. Go's recursion has no bound of its own;
    [fuel] bounds the depth of calls and [None] means it ran out
    ([traverse_enough_fuel] below shows when it does not). *)
Fixpoint traverse (fuel : nat) (id : string) (st : State) : option (State * Outcome) :=
  match fuel with
  | O => None
  | S fuel' =>
      if bool_decide (id ∈ visited st) then Some (st, Returned None)
      else
        let st := markVisited id st in
        match nodeMap !! id with
        | None => Some (st, Returned (Some (errNodeNotFound id)))
        | Some node =>
            match switchNode node st with
            | Halt st' => Some (st', Returned None)
            | Fault st' => Some (st', Panicked)
            | Route st' conditionMet =>
                match routeEdge (ID node) conditionMet (Edges wf) with
                | Some target => traverse fuel' target st'
                | None => Some (st', Returned (Some (errNoMatchingEdge (ID node))))
                end
            | Fallthrough st' =>
                forEachNext (traverse fuel') (default [] (adj !! id)) st'
            end
        end
  end.

Definition initialState : State :=
  {| steps := []; contextData := ∅; visited := [] |}.

(** Enough for the depth of any traversal of [wf]: every call below
    the first marks a new id among the start id and the edge targets. *)
Definition enoughFuel : nat := S (S (length (Edges wf))).

Definition finish (st : State) (o : Outcome) : Run :=
  match o with
  | Panicked => Panic
  | Returned (Some err) =>
      Return (Some {| ExecutedAt := timestamp w (length (steps st));
                      ResultStatus := StatusFailed;
                      Steps := steps st |}) (Some err)
  | Returned None =>
      Return (Some {| ExecutedAt := timestamp w (length (steps st));
                      ResultStatus := StatusCompleted;
                      Steps := steps st |}) None
  end.

(** [processNodes]; [None] only if [traverse] ran out of fuel. *)
Definition processNodes : option Run :=
  match nodeMap !! StartNodeID with
  | None => Some (Return None (Some ErrMissingStartNode))
  | Some _ =>
      match nodeMap !! EndNodeID with
      | None => Some (Return None (Some ErrMissingEndNode))
      | Some _ =>
          match traverse enoughFuel StartNodeID initialState with
          | Some (st, o) => Some (finish st o)
          | None => None
          end
      end
  end.

End Engine.

(** ** Relations between the states around a call of [traverse] *)

(** A completed condition step whose outcome no edge of the workflow
    answers. *)
Definition deadEnd (wf : WorkflowDefinition) (s : StepResult) : Prop :=
  exists b, conditionStep s b /\ routeEdge ConditionNodeID b (Edges wf) = None.

(** Steps are only appended, and a dead end among the new ones is the
    last of them and makes the call return the routing error. *)
Definition routingRule (wf : WorkflowDefinition) (st st' : State) (o : Outcome) : Prop :=
  exists added, steps st' = (steps st ++ added)%list /\
    forall s, s ∈ added -> deadEnd wf s ->
      o = Returned (Some (errNoMatchingEdge ConditionNodeID)) /\ last added = Some s.

(** The email node of the workflow has no template although its handler
    succeeds. *)
Definition emailFaults (h : Handlers) (wf : WorkflowDefinition)
    (payload : ExecutePayload) (node : Node) : Prop :=
  nodeMap wf !! EmailNodeID = Some node /\
  MetaEmailTemplate (Metadata (Data node)) = None /\
  processEmailNodeFn h node payload = None.

(** A call panics only on such an email node, and always when it marks
    one. *)
Definition panicRule (h : Handlers) (wf : WorkflowDefinition)
    (payload : ExecutePayload) (st st' : State) (o : Outcome) : Prop :=
  (o = Panicked -> EmailNodeID ∈ visited st' /\ exists node, emailFaults h wf payload node) /\
  (forall node, emailFaults h wf payload node ->
     EmailNodeID ∉ visited st -> EmailNodeID ∈ visited st' -> o = Panicked).

(** ** Changing the type fields of a workflow *)

(** The node with its [Type] field replaced by [newType] of its id. *)
Definition retypeNode (newType : string -> string) (node : Node) : Node :=
  {| ID := ID node; NodeType := newType (ID node); Data := Data node |}.

Definition retypeWorkflow (newType : string -> string) (wf : WorkflowDefinition)
    : WorkflowDefinition :=
  {| WorkflowID := WorkflowID wf;
     Nodes := retypeNode newType <$> Nodes wf;
     Edges := Edges wf |}.

(** The same on what a run records: only the [Type] copied into a step
    changes. *)
Definition retypeStep (newType : string -> string) (s : StepResult) : StepResult :=
  {| NodeID := NodeID s;
     StepType := newType (NodeID s);
     StepLabel := StepLabel s;
     StepDescription := StepDescription s;
     Status := Status s;
     Output := Output s |}.

Definition retypeState (newType : string -> string) (st : State) : State :=
  {| steps := retypeStep newType <$> steps st;
     contextData := contextData st;
     visited := visited st |}.

Definition retypeBranch (newType : string -> string) (b : Branch) : Branch :=
  match b with
  | Halt st => Halt (retypeState newType st)
  | Fault st => Fault (retypeState newType st)
  | Route st conditionMet => Route (retypeState newType st) conditionMet
  | Fallthrough st => Fallthrough (retypeState newType st)
  end.

Definition retypeRun (newType : string -> string) (run : Run) : Run :=
  match run with
  | Return (Some res) err =>
      Return (Some {| ExecutedAt := ExecutedAt res;
                      ResultStatus := ResultStatus res;
                      Steps := retypeStep newType <$> Steps res |}) err
  | Return None err => Return None err
  | Panic => Panic
  end.

(** Handlers that do not read the [Type] field of the node they get, as
    the two initial handlers. *)
Definition typeBlind (h : Handlers) : Prop :=
  forall newType node payload,
    (forall ctx, processWeatherNodeFn h (retypeNode newType node) payload ctx
                 = processWeatherNodeFn h node payload ctx) /\
    processEmailNodeFn h (retypeNode newType node) payload
    = processEmailNodeFn h node payload.

Definition retypeResult (newType : string -> string) (r : option (State * Outcome))
    : option (State * Outcome) :=
  match r with
  | Some (st, o) => Some (retypeState newType st, o)
  | None => None
  end.

(** ** Statements about single handlers *)

(** The five operator names [processConditionNode] knows. *)
Definition recognizedOperators : list string :=
  ["greater_than"; "less_than"; "equals"; "greater_than_or_equal"; "less_than_or_equal"].

(** A workflow without fan-out: no id other than that of the condition
    node has more than one outgoing edge. The condition case follows the
    one edge [routeEdge] finds, whatever the number of edges that leave
    the node; the loop over [adj] is what follows them all. *)
Definition withoutFanOut (wf : WorkflowDefinition) : Prop :=
  forall id, id <> ConditionNodeID -> length (outgoing wf id) <= 1.

(** Descending into the targets in the order given: [call] is made on
    each of them, from the state the call before left, until one
    returns an error or panics, which ends the descent with that
    outcome; past the last target the outcome is nil. *)
Inductive descendsInOrder (call : string -> State -> option (State * Outcome))
    : list string -> State -> State -> Outcome -> Prop :=
  | descends_done st :
      descendsInOrder call [] st st (Returned None)
  | descends_next target rest st st1 st' o :
      call target st = Some (st1, Returned None) ->
      descendsInOrder call rest st1 st' o ->
      descendsInOrder call (target :: rest) st st' o
  | descends_error target rest st st' err :
      call target st = Some (st', Returned (Some err)) ->
      descendsInOrder call (target :: rest) st st' (Returned (Some err))
  | descends_panic target rest st st' :
      call target st = Some (st', Panicked) ->
      descendsInOrder call (target :: rest) st st' Panicked.

(** What a call adds to the steps and to the marks, where a failed step
    among the new steps is the last of them and its node the last one
    marked. *)
Definition haltRule (st st' : State) : Prop :=
  exists added marked,
    steps st' = (steps st ++ added)%list /\
    visited st' = (visited st ++ marked)%list /\
    forall s, s ∈ added -> Status s = StatusFailed ->
      last added = Some s /\ last marked = Some (NodeID s).

(** The start and end checks of [processNodes] both pass. *)
Definition validated (wf : WorkflowDefinition) : Prop :=
  is_Some (nodeMap wf !! StartNodeID) /\ is_Some (nodeMap wf !! EndNodeID).

(** The call [traverse(StartNodeID)] that [processNodes] makes. *)
Definition traversal (w : World) (h : Handlers) (wf : WorkflowDefinition)
    (payload : ExecutePayload) : option (State * Outcome) :=
  traverse w h wf payload (enoughFuel wf) StartNodeID initialState.

(** Two readings of the dispatch that the code does not follow: the case
    is selected by the type field of the node; a run with a failed step
    has overall status failed. *)
Definition dispatchByType (node : Node) : Prop :=
  selectedCase node = switchCase (NodeType node).

Definition failedStepFailsRun (w : World) (h : Handlers) (wf : WorkflowDefinition)
    (payload : ExecutePayload) : Prop :=
  forall res err,
    processNodes w h wf payload = Some (Return (Some res) err) ->
    (exists s, s ∈ Steps res /\ Status s = StatusFailed) ->
    ResultStatus res = StatusFailed.

(** ** Fixtures: the doubles, payloads and workflows of
    node_processor_test.go, and variations of them *)

Definition testWorld : World :=
  {| elapsedMs := fun _ => 0%Z;
     timestamp := fun _ => "2025-01-01T00:00:00Z";
     sprintf_1f := fun _ => "21.0";
     sprintf_f := fun _ => "0.000000";
     sprintf_d := fun _ => "503";
     httpGet := fun _ => inl (Errorf "dial tcp: no route to host");
     decodeGeo := fun _ => None;
     decodeWeather := fun _ => None |}.

(** The doubles the happy-path test installs. *)
Definition mockHandlers : Handlers :=
  {| processWeatherNodeFn := fun _ _ contextData =>
       (<[TemperatureKey := VFloat 21]> contextData, None);
     processEmailNodeFn := fun _ _ => None |}.

Definition plainNode (id type : string) : Node :=
  {| ID := id; NodeType := type;
     Data := {| Label := id; Description := "";
                Metadata := {| MetaEmailTemplate := None; APIEndpoint := "" |} |} |}.

Definition emailNode : Node :=
  {| ID := EmailNodeID; NodeType := "email";
     Data := {| Label := "Send Email"; Description := "Send alert email";
                Metadata :=
                  {| MetaEmailTemplate :=
                       Some {| Subject := "Weather Alert";
                               Body := "Hello, the temperature in {{city}} is {{temperature}}°C." |};
                     APIEndpoint := "" |} |} |}.

Definition plainEdge (source target label : string) : Edge :=
  {| Source := source; Target := target; EdgeLabel := label |}.

(** [&ExecutePayload{}]. *)
Definition emptyPayload : ExecutePayload :=
  {| PayloadFormData := {| Name := ""; Email := ""; City := "" |};
     PayloadCondition := {| Operator := ""; Threshold := 0 |} |}.

Definition happyPayload : ExecutePayload :=
  {| PayloadFormData := {| Name := "Jane"; Email := "jane@example.com"; City := "Melbourne" |};
     PayloadCondition := {| Operator := "equals"; Threshold := 21 |} |}.

Definition conditionPayload (operator : string) (threshold : float) : ExecutePayload :=
  {| PayloadFormData := {| Name := ""; Email := ""; City := "" |};
     PayloadCondition := {| Operator := operator; Threshold := threshold |} |}.

Definition formPayload (name email city : string) : ExecutePayload :=
  {| PayloadFormData := {| Name := name; Email := email; City := city |};
     PayloadCondition := {| Operator := ""; Threshold := 0 |} |}.

Definition minimalWorkflow : WorkflowDefinition :=
  {| WorkflowID := "minimal";
     Nodes := [plainNode StartNodeID "start"; plainNode EndNodeID "end"];
     Edges := [plainEdge StartNodeID EndNodeID ""] |}.

Definition fullWorkflow : WorkflowDefinition :=
  {| WorkflowID := "full";
     Nodes := [plainNode StartNodeID "start"; plainNode FormNodeID "form";
               plainNode WeatherAPINodeID "weather-api";
               plainNode ConditionNodeID "condition"; emailNode;
               plainNode EndNodeID "end"];
     Edges := [plainEdge StartNodeID FormNodeID "";
               plainEdge FormNodeID WeatherAPINodeID "";
               plainEdge WeatherAPINodeID ConditionNodeID "";
               plainEdge ConditionNodeID EmailNodeID ConditionMetLabel;
               plainEdge EmailNodeID EndNodeID ""] |}.

Definition missingStartWorkflow : WorkflowDefinition :=
  {| WorkflowID := "no-start"; Nodes := [plainNode EndNodeID "end"]; Edges := [] |}.

Definition missingEndWorkflow : WorkflowDefinition :=
  {| WorkflowID := "no-end"; Nodes := [plainNode StartNodeID "start"]; Edges := [] |}.

Definition emptyWorkflow : WorkflowDefinition :=
  {| WorkflowID := "empty"; Nodes := []; Edges := [] |}.

(** start, form, end in a chain. *)
Definition formWorkflow : WorkflowDefinition :=
  {| WorkflowID := "form";
     Nodes := [plainNode StartNodeID "start"; plainNode FormNodeID "form";
               plainNode EndNodeID "end"];
     Edges := [plainEdge StartNodeID FormNodeID ""; plainEdge FormNodeID EndNodeID ""] |}.

(** The same nodes, start fanning out to form and to end. *)
Definition fanOutWorkflow : WorkflowDefinition :=
  {| WorkflowID := "fan-out";
     Nodes := [plainNode StartNodeID "start"; plainNode FormNodeID "form";
               plainNode EndNodeID "end"];
     Edges := [plainEdge StartNodeID FormNodeID ""; plainEdge StartNodeID EndNodeID ""] |}.

(** A node of type form under another id, between start and end. *)
Definition checkNode : Node := plainNode "check" "form".

Definition typedWorkflow : WorkflowDefinition :=
  {| WorkflowID := "typed";
     Nodes := [plainNode StartNodeID "start"; checkNode; plainNode EndNodeID "end"];
     Edges := [plainEdge StartNodeID "check" ""; plainEdge "check" EndNodeID ""] |}.


(** An email node without a template. *)
Definition noTemplateWorkflow : WorkflowDefinition :=
  {| WorkflowID := "no-template";
     Nodes := [plainNode StartNodeID "start"; plainNode EmailNodeID "email";
               plainNode EndNodeID "end"];
     Edges := [plainEdge StartNodeID EmailNodeID ""; plainEdge EmailNodeID EndNodeID ""] |}.

(** A node with an id of its own, fanning out to form and end. *)
Definition hubWorkflow : WorkflowDefinition :=
  {| WorkflowID := "hub";
     Nodes := [plainNode StartNodeID "start"; plainNode "hub" "hub";
               plainNode FormNodeID "form"; plainNode EndNodeID "end"];
     Edges := [plainEdge StartNodeID "hub" ""; plainEdge "hub" FormNodeID "";
               plainEdge "hub" EndNodeID ""] |}.

(** The state in which the traversal of [deadEndWorkflow] ends with the
    doubles and [happyPayload], and the step of its condition node. *)
Definition deadEndStep : StepResult :=
  stepOf (plainNode ConditionNodeID "condition") StatusCompleted
    {[ "conditionMet" := VBool true;
       "threshold" := VFloat 21;
       "operator" := VStr "equals";
       "actualValue" := VFloat 21;
       "message" := VStr "Temperature 21.0°C is equals 21.0°C - condition met";
       "duration" := VInt 0 ]}.


(** The state in which the traversal of [noTemplateWorkflow] panics. *)
Definition noTemplateState : State :=
  {| steps := [stepOf (plainNode StartNodeID "start") StatusCompleted
                 {[ "duration" := VInt 0 ]}];
     contextData := ∅;
     visited := [StartNodeID; EmailNodeID] |}.

(** ** Workflows as graphs *)

(** The ids a path of edges leads to from the start id. *)
Inductive reachable (wf : WorkflowDefinition) : string -> Prop :=
  | reachable_start : reachable wf StartNodeID
  | reachable_edge edge :
      edge ∈ Edges wf -> reachable wf (Source edge) -> reachable wf (Target edge).

(** The nodes of the list that carry a given id, in the order of the list. *)
Definition nodesWithID (wf : WorkflowDefinition) (id : string) : list Node :=
  filter (fun node => ID node = id) (Nodes wf).

(** The ids [traverse] is called with: the start id by [processNodes],
    the target of an edge by [traverse] itself. *)
Definition called (wf : WorkflowDefinition) (id : string) : Prop :=
  id = StartNodeID \/ exists edge, edge ∈ Edges wf /\ Target edge = id.

(** An edge the routing loop of the condition case stops at: it leaves
    [id] and carries the label of the outcome. *)
Definition answers (id : string) (conditionMet : bool) (edge : Edge) : Prop :=
  Source edge = id /\
  EdgeLabel edge = (if conditionMet then ConditionMetLabel else NoAlertLabel).

(** Every edge leads to a declared node. *)
Definition closedWorkflow (wf : WorkflowDefinition) : Prop :=
  forall edge, edge ∈ Edges wf -> exists node, node ∈ Nodes wf /\ ID node = Target edge.

(** A declared condition node has an edge for either outcome. *)
Definition routable (wf : WorkflowDefinition) : Prop :=
  (exists node, node ∈ Nodes wf /\ ID node = ConditionNodeID) ->
  forall b : bool, exists edge, edge ∈ Edges wf /\ Source edge = ConditionNodeID /\
    EdgeLabel edge = (if b then ConditionMetLabel else NoAlertLabel).

(** The email node the node map holds, if any, has a template. *)
Definition templated (wf : WorkflowDefinition) : Prop :=
  forall node, nodeMap wf !! EmailNodeID = Some node ->
    is_Some (MetaEmailTemplate (Metadata (Data node))).

(** The handler of the node [id] failed: a failed step was recorded for it. *)
Definition failedAt (st : State) (id : string) : Prop :=
  exists s, s ∈ steps st /\ NodeID s = id /\ Status s = StatusFailed.

(** What a call that returned nil owes to an id [x] it marked. For the
    condition node: its handler failed, or its step records an outcome
    and the target the routing loop found for it is marked. For any
    other id: unless its handler failed, the targets of all edges
    leaving it are marked. *)
Definition settled (wf : WorkflowDefinition) (st' : State) (x : string) : Prop :=
  if decide (x = ConditionNodeID) then
    failedAt st' x \/
    exists s b target, s ∈ steps st' /\ conditionStep s b /\
      routeEdge ConditionNodeID b (Edges wf) = Some target /\ target ∈ visited st'
  else
    ~ failedAt st' x -> forall target, target ∈ outgoing wf x -> target ∈ visited st'.

(** Every id marked between [st] and [st'] is settled in [st']. *)
Definition explored (wf : WorkflowDefinition) (st st' : State) : Prop :=
  forall x, x ∈ visited st' -> x ∉ visited st -> settled wf st' x.

(** The edges a run follows, read off the steps it recorded: an edge
    leaving the condition node is followed when it is the one the
    routing loop finds for the outcome the condition step records; any
    other edge when no failed step was recorded for its source. *)
Definition followed (wf : WorkflowDefinition) (recorded : list StepResult) (edge : Edge)
    : Prop :=
  if decide (Source edge = ConditionNodeID) then
    exists s b, s ∈ recorded /\ conditionStep s b /\
      routeEdge ConditionNodeID b (Edges wf) = Some (Target edge)
  else
    forall s, s ∈ recorded -> NodeID s = Source edge -> Status s <> StatusFailed.

(** The ids a path of followed edges leads to from the start id. *)
Inductive executedFrom (wf : WorkflowDefinition) (recorded : list StepResult)
    : string -> Prop :=
  | executed_start : executedFrom wf recorded StartNodeID
  | executed_edge edge :
      edge ∈ Edges wf -> executedFrom wf recorded (Source edge) ->
      followed wf recorded edge -> executedFrom wf recorded (Target edge).

(** A step is the copy [appendStep] makes of the node the node map holds
    under its id. *)
Definition stepOfNode (wf : WorkflowDefinition) (s : StepResult) : Prop :=
  exists node, nodeMap wf !! NodeID s = Some node /\
    s = stepOf node (Status s) (Output s).

(** Every declared node that was marked and that some case of the switch
    selects has a step. *)
Definition recorded (wf : WorkflowDefinition) (st : State) : Prop :=
  forall id, id ∈ visited st -> is_Some (nodeMap wf !! id) -> is_Some (switchCase id) ->
    id ∈ NodeID <$> steps st.

(** The temperature the steps report is the one in the context map: the
    map is empty until the weather node is marked, a completed weather
    step shows the value the map holds, and a completed condition step
    shows that value, a float, and what the condition handler makes of
    it. *)
Definition temperatureFlow (payload : ExecutePayload) (st : State) : Prop :=
  (WeatherAPINodeID ∉ visited st -> contextData st = ∅) /\
  (forall s, s ∈ steps st -> NodeID s = WeatherAPINodeID -> Status s = StatusCompleted ->
     Output s !! "temperature" = Some (ctxValue (contextData st) TemperatureKey)) /\
  (forall s, s ∈ steps st -> NodeID s = ConditionNodeID -> Status s = StatusCompleted ->
     Output s !! "actualValue" = Some (ctxValue (contextData st) TemperatureKey) /\
     (exists t, contextData st !! TemperatureKey = Some (VFloat t)) /\
     forall node, Output s !! "conditionMet"
       = Some (VBool (fst (processConditionNode node payload (contextData st))))).

(** The draft of the email case of the switch, for the temperature value
    it finds in the context map and the time stamp it reads. *)
Definition emailDraft (w : World) (payload : ExecutePayload) (template : EmailTemplate)
    (temperature : any) (stamp : string) : gmap string any :=
  {[ "to" := VStr (Email (PayloadFormData payload));
     "from" := VStr "weather-alerts@example.com";
     "subject" := VStr (Subject template);
     "body" := VStr (ReplaceAll
        (ReplaceAll (Body template) "{{city}}" (City (PayloadFormData payload)))
        "{{temperature}}" (sprintf_1f w temperature));
     "timestamp" := VStr stamp ]}.

(** The output of a completed email step. *)
Definition emailOutput (draft : gmap string any) (duration : Z) : gmap string any :=
  {[ "emailDraft" := VMap draft;
     "deliveryStatus" := VStr "sent";
     "messageId" := VStr "msg_abc123def456";
     "emailSent" := VBool true;
     "duration" := VInt duration ]}.

(** The context map is empty as long as no step of the weather node is
    recorded, and a completed email step shows the draft made from the
    template of the email node and the temperature of the context map:
    the one the map holds now if a weather step precedes it, nil if
    none does. *)
Definition emailFlow (w : World) (wf : WorkflowDefinition) (payload : ExecutePayload)
    (st : State) : Prop :=
  ((forall s, s ∈ steps st -> NodeID s <> WeatherAPINodeID) -> contextData st = ∅) /\
  forall before s after,
    steps st = (before ++ s :: after)%list ->
    NodeID s = EmailNodeID -> Status s = StatusCompleted ->
    exists node template stamp d temperature,
      nodeMap wf !! EmailNodeID = Some node /\
      MetaEmailTemplate (Metadata (Data node)) = Some template /\
      Output s = emailOutput (emailDraft w payload template temperature stamp) d /\
      ((exists sw, sw ∈ before /\ NodeID sw = WeatherAPINodeID) ->
       temperature = ctxValue (contextData st) TemperatureKey) /\
      ((forall sw, sw ∈ before -> NodeID sw <> WeatherAPINodeID) -> temperature = VNil).

(** The context map is still empty and every condition step failed for
    want of a temperature. *)
Definition noTemperature (st : State) : Prop :=
  contextData st = ∅ /\
  forall s, s ∈ steps st -> NodeID s = ConditionNodeID ->
    Status s = StatusFailed /\
    Output s !! "error" = Some (VStr "weather temp not in map").

(** The URL of the geocoding request and the endpoint of the weather
    request, as [processWeatherNode] builds them. *)
Definition geoURL (city : string) : string :=
  "https://geocoding-api.open-meteo.com/v1/search?name=" ++ city ++ "&count=1".

Definition weatherURL (w : World) (node : Node) (lat lon : float) : string :=
  ReplaceAll (ReplaceAll (APIEndpoint (Metadata (Data node))) "{lat}" (sprintf_f w lat))
    "{lon}" (sprintf_f w lon).

(** The ids of the nodes whose handler can fail at all: start and end
    handlers return nil. *)
Definition fallible : list string :=
  [FormNodeID; WeatherAPINodeID; ConditionNodeID; EmailNodeID].

(** The context map the handler of a node found when the step that
    follows the steps [before] was recorded: [processWeatherNodeFn] is
    the only writer of the map, which is empty as long as no step of the
    weather node is recorded and the one the state holds from then on. *)
Definition contextBefore (st : State) (before : list StepResult) : gmap string any :=
  if bool_decide (WeatherAPINodeID ∈ NodeID <$> before) then contextData st else ∅.

(** The context map is empty as long as no step of the weather node is
    recorded, and every failed step records the error its handler
    returned in this run: the handler called on the node the node map
    holds under the id of the step, with the payload of the run and the
    context map of that moment, and the elapsed time read then. *)
Definition failureFlow (w : World) (h : Handlers) (wf : WorkflowDefinition)
    (payload : ExecutePayload) (st : State) : Prop :=
  ((forall s, s ∈ steps st -> NodeID s <> WeatherAPINodeID) -> contextData st = ∅) /\
  forall before s after,
    steps st = (before ++ s :: after)%list -> Status s = StatusFailed ->
    exists node err,
      nodeMap wf !! NodeID s = Some node /\
      snd (handlerCall h payload node (contextBefore st before)) = Some err /\
      Output s = failedOutput err (elapsedMs w (length before)).

(** ** The HTTP handlers (workflow.go), the repository (repository.go)
    and [errorToJSON] (errors.go) *)

(** The double quote and the line feed, as one-byte strings. *)
Definition dquote : string := String (Ascii.ascii_of_nat 34) EmptyString.
Definition newline : string := String (Ascii.ascii_of_nat 10) EmptyString.

(** [errorToJSON]: the message between the two raw literals, unescaped. *)
Definition errorToJSON (err : error) : string :=
  ("{" ++ dquote ++ "error" ++ dquote ++ ":" ++ dquote) ++ Error err ++ (dquote ++ "}").

(** What a handler has written when it returns: the status code, the
    Content-Type header and the body. *)
Record Response := {
  Code : Z;
  ContentType : string;
  Content : string
}.

Definition StatusOK : Z := 200.
Definition StatusBadRequest : Z := 400.
Definition StatusNotFound : Z := 404.
Definition StatusInternalServerError : Z := 500.

(** [http.Error(w, msg, code)]: the message and a line feed, as plain text. *)
Definition httpError (msg : string) (code : Z) : Response :=
  {| Code := code;
     ContentType := "text/plain; charset=utf-8";
     Content := msg ++ newline |}.

(** The JSON reply both handlers end with:
    [w.Header().Set("Content-Type", "application/json");
     w.WriteHeader(http.StatusOK); w.Write(bytes)]. *)
Definition jsonOK (bytes : string) : Response :=
  {| Code := StatusOK; ContentType := "application/json"; Content := bytes |}.

(** An error of the database driver: [pgx.ErrNoRows], which the handlers
    tell apart with [errors.Is], or any other. *)
Inductive dbError :=
  | ErrNoRows
  | ErrDriver (msg : string).

(** The two methods of repository.go. Their SQL runs in the database
    server; [DB] is the state of the table [workflows]. *)
Record Repository (DB : Type) := {
  GetWorkflowDefinitionByID : DB -> string -> dbError + string;
  UpdateWorkflowDefinitionByID : DB -> string -> string -> DB * option dbError
}.
Arguments GetWorkflowDefinitionByID {DB}.
Arguments UpdateWorkflowDefinitionByID {DB}.

(** The three uses of encoding/json in the handlers: decoding the
    request body into [ExecutePayload], [json.Unmarshal] of the stored
    definition into [WorkflowDefinition], [json.Marshal] of the pointer
    [processNodes] returned. [None] is a non-nil error. *)
Record Codec := {
  decodePayload : string -> option ExecutePayload;
  unmarshalWorkflow : string -> option WorkflowDefinition;
  marshalResult : option ExecutionResult -> option string
}.

(** The [switch] both handlers run on a failed lookup. *)
Definition lookupFailure (err : dbError) : Response :=
  match err with
  | ErrNoRows => httpError (errorToJSON ErrWorkflowNotFound) StatusNotFound
  | _ => httpError (errorToJSON ErrInternalServerError) StatusInternalServerError
  end.

(** How a handler ends: it returns having written a response, or a panic
    unwinds it before anything is written. A request that is never
    answered, because a query of the repository or a request of the
    weather handler does not return, has no counterpart: what is proved
    of a reply is proved of the requests that get one. *)
Inductive Reply :=
  | Respond (r : Response)
  | Abort.

Section Http.
Context {DB : Type} (repo : Repository DB) (codec : Codec).

(** [HandleGetWorkflow], for the request path variable [id]. It only
    reads the database. *)
Definition HandleGetWorkflow (db : DB) (id : string) : Response :=
  match GetWorkflowDefinitionByID repo db id with
  | inl err => lookupFailure err
  | inr definitionBytes =>
      match unmarshalWorkflow codec definitionBytes with
      | None => httpError (errorToJSON ErrInvalidWorkflowFormat) StatusInternalServerError
      | Some _ => jsonOK definitionBytes
      end
  end.

(** [HandleExecuteWorkflow], for the path variable [id] and the request
    body: the database after the call and the reply; [None] only if
    [processNodes] ran out of fuel. *)
Definition HandleExecuteWorkflow (w : World) (h : Handlers) (db : DB)
    (id body : string) : option (DB * Reply) :=
  match decodePayload codec body with
  | None => Some (db, Respond (httpError (errorToJSON ErrInvalidJSON) StatusBadRequest))
  | Some payload =>
      match GetWorkflowDefinitionByID repo db id with
      | inl err => Some (db, Respond (lookupFailure err))
      | inr definitionBytes =>
          match unmarshalWorkflow codec definitionBytes with
          | None =>
              Some (db, Respond (httpError (errorToJSON ErrInvalidWorkflowFormat)
                                   StatusInternalServerError))
          | Some wf =>
              match UpdateWorkflowDefinitionByID repo db (WorkflowID wf) definitionBytes with
              | (db', Some _) =>
                  Some (db', Respond (httpError (errorToJSON ErrInternalServerError)
                                        StatusInternalServerError))
              | (db', None) =>
                  match processNodes w h wf payload with
                  | None => None
                  | Some Panic => Some (db', Abort)
                  | Some (Return _ (Some _)) =>
                      Some (db', Respond (httpError (errorToJSON ErrInternalServerError)
                                            StatusInternalServerError))
                  | Some (Return executionResults None) =>
                      match marshalResult codec executionResults with
                      | None =>
                          Some (db', Respond (httpError (errorToJSON ErrMarshalFailed)
                                                StatusInternalServerError))
                      | Some jsonBytes => Some (db', Respond (jsonOK jsonBytes))
                      end
                  end
              end
          end
      end
  end.

End Http.

(** The bodies an error reply can carry. *)
Definition errorBodies : list string :=
  (fun err => errorToJSON err ++ newline) <$>
    [ErrInvalidJSON; ErrWorkflowNotFound; ErrInternalServerError;
     ErrInvalidWorkflowFormat; ErrMarshalFailed].

(** ** Further fixtures *)

(** A world in which both requests of the weather handler are answered:
    one geocoding result, then status 200 and a temperature of 21. *)
Definition sunnyWorld : World :=
  {| elapsedMs := fun _ => 0%Z;
     timestamp := fun _ => "2025-01-01T00:00:00Z";
     sprintf_1f := fun _ => "21.0";
     sprintf_f := fun _ => "0.000000";
     sprintf_d := fun _ => "200";
     httpGet := fun _ => inr {| StatusCode := 200; RespBody := "{}" |};
     decodeGeo := fun _ => Some [(0%float, 0%float)];
     decodeWeather := fun _ => Some 21%float |}.

(** Two nodes of id form, the second with another label. *)
Definition relabelled : Node :=
  {| ID := FormNodeID; NodeType := "form";
     Data := {| Label := "second"; Description := "";
                Metadata := {| MetaEmailTemplate := None; APIEndpoint := "" |} |} |}.

Definition twinWorkflow : WorkflowDefinition :=
  {| WorkflowID := "twin";
     Nodes := [plainNode StartNodeID "start"; plainNode FormNodeID "form"; relabelled;
               plainNode EndNodeID "end"];
     Edges := [plainEdge StartNodeID FormNodeID ""; plainEdge FormNodeID EndNodeID ""] |}.

(** An edge to an id no node carries. *)
Definition ghostWorkflow : WorkflowDefinition :=
  {| WorkflowID := "ghost";
     Nodes := [plainNode StartNodeID "start"; plainNode EndNodeID "end"];
     Edges := [plainEdge StartNodeID "ghost" ""; plainEdge "ghost" EndNodeID ""] |}.

(** start, condition, end: the condition node is reached although no
    edge leads to a weather node. *)
Definition coldWorkflow : WorkflowDefinition :=
  {| WorkflowID := "cold";
     Nodes := [plainNode StartNodeID "start"; plainNode ConditionNodeID "condition";
               plainNode EndNodeID "end"];
     Edges := [plainEdge StartNodeID ConditionNodeID "";
               plainEdge ConditionNodeID EndNodeID ConditionMetLabel] |}.

(** The full workflow with the edge for the other outcome as well. *)
Definition routedWorkflow : WorkflowDefinition :=
  {| WorkflowID := "routed";
     Nodes := Nodes fullWorkflow;
     Edges := (Edges fullWorkflow ++ [plainEdge ConditionNodeID EndNodeID NoAlertLabel])%list |}.

(** A payload whose form is filled in and whose operator the condition
    handler does not know. *)
Definition unsupportedPayload : ExecutePayload :=
  {| PayloadFormData := PayloadFormData happyPayload;
     PayloadCondition := {| Operator := "foo"; Threshold := 21 |} |}.

(** A table of one stored definition, kept as text; the codec reads the
    text "full" as [routedWorkflow] and any body as [happyPayload]. *)
Definition oneRowRepository : Repository string :=
  {| GetWorkflowDefinitionByID := fun db id =>
       if String.eqb id "full" then inr db else inl ErrNoRows;
     UpdateWorkflowDefinitionByID := fun db id newDefinition =>
       (if String.eqb id "routed" then newDefinition else db, None) |}.

Definition testCodec : Codec :=
  {| decodePayload := fun body =>
       if String.eqb body "" then None else Some happyPayload;
     unmarshalWorkflow := fun bytes =>
       if String.eqb bytes "full" then Some routedWorkflow else None;
     marshalResult := fun res =>
       match res with
       | Some r => Some (ResultStatus r)
       | None => Some "null"
       end |}.

(** * Properties *)

(** ** The node index and the adjacency index *)

(** What the node map holds under an id is a node of the list with that
    id. *)
Lemma nodeMap_lookup_Some wf id node :
  nodeMap wf !! id = Some node -> node ∈ Nodes wf /\ ID node = id.
Proof.
  unfold nodeMap. generalize (Nodes wf). intros nodes. revert id node.
  induction nodes as [|n nodes IH] using rev_ind; intros id node.
  - simpl. rewrite lookup_empty. discriminate.
  - rewrite foldl_snoc. destruct (decide (ID n = id)) as [<-|Hne].
    + rewrite lookup_insert_eq. intros [= <-]. split; [|done].
      apply elem_of_app. right. by apply list_elem_of_singleton.
    + rewrite lookup_insert_ne by done. intros Hl. destruct (IH _ _ Hl) as [Hin Hid].
      split; [|done]. apply elem_of_app. by left.
Qed.

Lemma nodeMap_lookup_ID wf id node :
  nodeMap wf !! id = Some node -> ID node = id.
Proof. intros Hl. by destruct (nodeMap_lookup_Some _ _ _ Hl). Qed.

(** An id is absent from the node map exactly when no node carries it. *)
Lemma nodeMap_lookup_None wf id :
  nodeMap wf !! id = None <-> forall node, node ∈ Nodes wf -> ID node <> id.
Proof.
  unfold nodeMap. generalize (Nodes wf). intros nodes.
  induction nodes as [|n nodes IH] using rev_ind.
  - simpl. rewrite lookup_empty. split; [|done]. intros _ node Hin. inversion Hin.
  - rewrite foldl_snoc. destruct (decide (ID n = id)) as [<-|Hne].
    + rewrite lookup_insert_eq. split; [done|]. intros Hall.
      exfalso. apply (Hall n); [|done]. apply elem_of_app. right. by apply list_elem_of_singleton.
    + rewrite lookup_insert_ne by done. rewrite IH. split.
      * intros Hall node Hin. apply elem_of_app in Hin as [Hin|Hin]; [by apply Hall|].
        apply list_elem_of_singleton in Hin. by subst.
      * intros Hall node Hin. apply Hall. apply elem_of_app. by left.
Qed.

Lemma nodeMap_lookup_is_Some wf id :
  is_Some (nodeMap wf !! id) <-> exists node, node ∈ Nodes wf /\ ID node = id.
Proof.
  split.
  - intros [node Hl]. exists node. by apply nodeMap_lookup_Some.
  - intros (node & Hin & Heq). destruct (nodeMap wf !! id) eqn:Hl; [eauto|].
    exfalso. by apply (proj1 (nodeMap_lookup_None wf id) Hl node).
Qed.

(** The adjacency map lists, for each id, the targets of the edges
    leaving it, in the order the edges are declared. *)
Lemma adj_lookup wf id :
  default [] (adj wf !! id) = outgoing wf id.
Proof.
  unfold adj, outgoing. generalize (Edges wf). intros edges.
  induction edges as [|e edges IH] using rev_ind.
  - simpl. by rewrite lookup_empty.
  - rewrite foldl_snoc, filter_app, fmap_app.
    destruct (decide (Source e = id)) as [<-|Hne].
    + rewrite lookup_insert_eq. simpl. rewrite IH.
      rewrite filter_cons_True by done. by rewrite filter_nil.
    + rewrite lookup_insert_ne by done. rewrite IH.
      rewrite filter_cons_False by done. rewrite filter_nil. simpl. by rewrite app_nil_r.
Qed.

Lemma outgoing_target wf id target :
  target ∈ outgoing wf id -> exists edge, edge ∈ Edges wf /\ Source edge = id /\ Target edge = target.
Proof.
  unfold outgoing. intros Hin. apply list_elem_of_fmap in Hin as (edge & -> & Hin).
  apply list_elem_of_filter in Hin as [Hs Hin]. eauto.
Qed.

(** The routing loop finds an edge exactly when some edge leaving the
    node carries the label of the outcome. *)
Lemma routeEdge_Some id b edges target :
  routeEdge id b edges = Some target ->
  exists edge, edge ∈ edges /\ Source edge = id /\ Target edge = target /\
    EdgeLabel edge = (if b then ConditionMetLabel else NoAlertLabel).
Proof.
  induction edges as [|e edges IH]; simpl; [discriminate|].
  destruct (String.eqb (Source e) id) eqn:Hs; simpl.
  - apply String.eqb_eq in Hs. destruct b; simpl.
    + destruct (String.eqb (EdgeLabel e) ConditionMetLabel) eqn:Hl.
      * apply String.eqb_eq in Hl. intros [= <-]. exists e. split; [left|done].
      * intros H. destruct (IH H) as (e' & Hin & ?). exists e'. split; [by right|done].
    + destruct (String.eqb (EdgeLabel e) NoAlertLabel) eqn:Hl.
      * apply String.eqb_eq in Hl. intros [= <-]. exists e. split; [left|done].
      * intros H. destruct (IH H) as (e' & Hin & ?). exists e'. split; [by right|done].
  - intros H. destruct (IH H) as (e' & Hin & ?). exists e'. split; [by right|done].
Qed.

Lemma routeEdge_None id b edges :
  routeEdge id b edges = None <->
  forall edge, edge ∈ edges -> Source edge = id ->
    EdgeLabel edge <> (if b then ConditionMetLabel else NoAlertLabel).
Proof.
  induction edges as [|e edges IH]; simpl.
  - split; [|done]. intros _ edge Hin. inversion Hin.
  - destruct (String.eqb (Source e) id) eqn:Hs; simpl.
    + apply String.eqb_eq in Hs. destruct b; simpl.
      * destruct (String.eqb (EdgeLabel e) ConditionMetLabel) eqn:Hl.
        -- apply String.eqb_eq in Hl. split; [done|]. intros Hall. exfalso. apply (Hall e); [left|done..].
        -- apply String.eqb_neq in Hl. rewrite IH. split.
           ++ intros Hall edge Hin. apply elem_of_cons in Hin as [->|Hin]; [done|by apply Hall].
           ++ intros Hall edge Hin. apply Hall. by right.
      * destruct (String.eqb (EdgeLabel e) NoAlertLabel) eqn:Hl.
        -- apply String.eqb_eq in Hl. split; [done|]. intros Hall. exfalso. apply (Hall e); [left|done..].
        -- apply String.eqb_neq in Hl. rewrite IH. split.
           ++ intros Hall edge Hin. apply elem_of_cons in Hin as [->|Hin]; [done|by apply Hall].
           ++ intros Hall edge Hin. apply Hall. by right.
    + apply String.eqb_neq in Hs. rewrite IH. split.
      * intros Hall edge Hin. apply elem_of_cons in Hin as [->|Hin]; [done|by apply Hall].
      * intros Hall edge Hin. apply Hall. by right.
Qed.

Lemma setContext_same st : setContext (contextData st) st = st.
Proof. by destruct st. Qed.

(** After a successful evaluation the context temperature is a float, so
    the type assertion that follows in the switch cannot panic. *)
Lemma processConditionNode_ok node payload ctx b :
  processConditionNode node payload ctx = (b, None) ->
  exists t, ctx !! TemperatureKey = Some (VFloat t).
Proof.
  unfold processConditionNode. destruct (ctx !! TemperatureKey) as [[]|]; try discriminate.
  eauto.
Qed.

Lemma switchCase_Some key kind : switchCase key = Some kind -> key = caseID kind.
Proof.
  unfold switchCase.
  repeat (match goal with |- context [String.eqb ?a ?b] =>
            destruct (String.eqb_spec a b) end); intros [= <-]; done.
Qed.

Lemma switchCase_caseID kind : switchCase (caseID kind) = Some kind.
Proof. by destruct kind. Qed.

Lemma switchCase_None key : switchCase key = None <-> forall kind, key <> caseID kind.
Proof.
  split.
  - intros Hnone kind ->. by rewrite switchCase_caseID in Hnone.
  - intros Hall. destruct (switchCase key) as [kind|] eqn:Hcase; [|done].
    apply switchCase_Some in Hcase. by destruct (Hall kind).
Qed.

Section Switch.
Context (w : World) (h : Handlers) (payload : ExecutePayload).

(** Every way through the switch is one of [SwitchSpec]. *)
Lemma switchNode_spec node st :
  SwitchSpec w h payload node st (switchNode w h payload node st).
Proof.
  unfold switchNode. destruct (selectedCase node) as [[]|] eqn:Hcase.
  - simpl. rewrite <- (setContext_same st) at 2.
    eapply spec_next; [done|done| |by rewrite ?Htemplate; eauto|reflexivity].
    unfold handlerCall. by rewrite Hcase.
  - simpl. rewrite <- (setContext_same st) at 2.
    eapply spec_next; [done|done| |by rewrite ?Htemplate; eauto|reflexivity].
    unfold handlerCall. by rewrite Hcase.
  - destruct (processFormNode node payload) as [err|] eqn:Hform.
    + rewrite <- (setContext_same st) at 2.
      apply spec_halt. unfold handlerCall. by rewrite Hcase, Hform.
    + rewrite <- (setContext_same st) at 2.
      eapply spec_next; [done|done| |by rewrite ?Htemplate; eauto|reflexivity].
      unfold handlerCall. by rewrite Hcase, Hform.
  - destruct (processWeatherNodeFn h node payload (contextData st)) as [ctx [err|]] eqn:Hweather.
    + apply spec_halt. unfold handlerCall. by rewrite Hcase, Hweather.
    + eapply spec_next; [done|done| |by rewrite ?Htemplate; eauto|reflexivity].
      unfold handlerCall. by rewrite Hcase, Hweather.
  - destruct (processConditionNode node payload (contextData st)) as [b [err|]] eqn:Hcond.
    + rewrite <- (setContext_same st) at 2.
      apply spec_halt. unfold handlerCall. by rewrite Hcase, Hcond.
    + destruct (processConditionNode_ok _ _ _ _ Hcond) as [t Ht].
      unfold ctxValue. rewrite Ht. simpl.
      eapply spec_route; [done|done|reflexivity|reflexivity].
  - destruct (processEmailNodeFn h node payload) as [err|] eqn:Hemail.
    + rewrite <- (setContext_same st) at 2.
      apply spec_halt. unfold handlerCall. by rewrite Hcase, Hemail.
    + destruct (MetaEmailTemplate (Metadata (Data node))) as [template|] eqn:Htemplate.
      * rewrite <- (setContext_same st) at 2.
        eapply spec_next; [done|done| |by rewrite ?Htemplate; eauto|reflexivity].
        unfold handlerCall. by rewrite Hcase, Hemail.
      * by apply spec_fault.
  - by apply spec_pass.
Qed.
End Switch.

Section Traversal.
Context (w : World) (h : Handlers).
Context (wf : WorkflowDefinition) (payload : ExecutePayload).

#[local] Abbreviation traverse := (traverse w h wf payload).
#[local] Abbreviation switchNode := (switchNode w h payload).

(** The switch marks nothing. *)
Lemma switchNode_visited node st :
  visited (branchState (switchNode node st)) = visited st.
Proof. by destruct (switchNode_spec w h payload node st). Qed.

(** *** Fuel *)

Lemma forEachNext_mono (call call' : string -> State -> option (State * Outcome)) :
  (forall id st r, call id st = Some r -> call' id st = Some r) ->
  forall targets st r,
    forEachNext call targets st = Some r -> forEachNext call' targets st = Some r.
Proof.
  intros Hcall targets. induction targets as [|next rest IH]; intros st r; simpl; [done|].
  destruct (call next st) as [[st' o]|] eqn:Hnext; [|discriminate].
  rewrite (Hcall _ _ _ Hnext). destruct o as [[err|]|]; auto.
Qed.

(** A call that returns with some fuel returns the same with more. *)
Lemma traverse_fuel_mono fuel fuel' id st r :
  fuel <= fuel' -> traverse fuel id st = Some r -> traverse fuel' id st = Some r.
Proof.
  revert fuel' id st r. induction fuel as [|fuel IH]; intros fuel' id st r Hle; [done|].
  destruct fuel' as [|fuel']; [lia|]. simpl.
  destruct (bool_decide (id ∈ visited st)); [done|].
  destruct (nodeMap wf !! id) as [node|]; [|done].
  destruct (switchNode node (markVisited id st)) as [st'|st'|st' b|st']; try done.
  - destruct (routeEdge (ID node) b (Edges wf)); [|done]. apply IH. lia.
  - apply forEachNext_mono. intros id' st0 r0. apply IH. lia.
Qed.

Lemma callable_start : StartNodeID ∈ callable wf.
Proof. unfold callable. set_solver. Qed.

Lemma callable_target edge : edge ∈ Edges wf -> Target edge ∈ callable wf.
Proof.
  intros Hin. unfold callable. apply elem_of_union_r, elem_of_list_to_set.
  apply list_elem_of_fmap. eauto.
Qed.

Lemma size_union_singleton_le (x : string) (X : gset string) :
  size ({[x]} ∪ X) <= S (size X).
Proof.
  rewrite size_union_alt, size_singleton.
  apply le_n_S, subseteq_size. set_solver.
Qed.

Lemma size_list_to_set_le (l : list string) :
  size (list_to_set l : gset string) <= length l.
Proof.
  induction l as [|x l IHl].
  - rewrite list_to_set_nil, size_empty. done.
  - rewrite list_to_set_cons. simpl. etrans; [apply size_union_singleton_le|]. lia.
Qed.

Lemma callable_size : size (callable wf) <= S (length (Edges wf)).
Proof.
  unfold callable. etrans; [apply size_union_singleton_le|].
  apply le_n_S. etrans; [apply size_list_to_set_le|]. by rewrite length_fmap.
Qed.

Lemma visitedSet_mark id st : visitedSet (markVisited id st) = visitedSet st ∪ {[id]}.
Proof. unfold visitedSet, markVisited. simpl. rewrite list_to_set_app_L. simpl. set_solver. Qed.

(** The ids still to be marked. *)
#[local] Abbreviation pending st := (size (callable wf ∖ visitedSet st)).

Lemma pending_mark id st :
  id ∈ callable wf -> id ∉ visited st -> S (pending (markVisited id st)) <= pending st.
Proof.
  intros Hid Hnot. rewrite visitedSet_mark.
  assert (id ∉ visitedSet st) as Hnot' by (unfold visitedSet; set_solver).
  apply subset_size. split; [set_solver|].
  intros Hsub. specialize (Hsub id). set_solver.
Qed.

Lemma forEachNext_total (call : string -> State -> option (State * Outcome)) n :
  (forall id st, id ∈ callable wf -> pending st < n ->
     exists st' o, call id st = Some (st', o) /\ visitedSet st ⊆ visitedSet st') ->
  forall targets st,
    (forall id, id ∈ targets -> id ∈ callable wf) -> pending st < n ->
    exists st' o, forEachNext call targets st = Some (st', o) /\ visitedSet st ⊆ visitedSet st'.
Proof.
  intros Hcall targets. induction targets as [|next rest IH]; intros st Hin Hn; simpl.
  - eauto.
  - destruct (Hcall next st) as (st1 & o1 & -> & Hsub); [apply Hin; left|done|].
    destruct o1 as [[err|]|]; eauto.
    destruct (IH st1) as (st2 & o2 & -> & Hsub2).
    + intros id Hid. apply Hin. by right.
    + eapply Nat.le_lt_trans; [|exact Hn]. apply subseteq_size. set_solver.
    + exists st2, o2. split; [done|]. set_solver.
Qed.

(** With more fuel than ids still to be marked, a call returns: each
    call that does not return at once marks an id not marked before. *)
Lemma traverse_total fuel id st :
  id ∈ callable wf -> pending st < fuel ->
  exists st' o, traverse fuel id st = Some (st', o) /\ visitedSet st ⊆ visitedSet st'.
Proof.
  revert id st. induction fuel as [|fuel IH]; intros id st Hid Hn; [lia|]. simpl.
  destruct (bool_decide (id ∈ visited st)) eqn:Hvis; [eauto|].
  apply bool_decide_eq_false in Hvis.
  pose proof (pending_mark id st Hid Hvis) as Hmark.
  assert (visitedSet st ⊆ visitedSet (markVisited id st)) as Hsub
    by (rewrite visitedSet_mark; set_solver).
  destruct (nodeMap wf !! id) as [node|] eqn:Hnode; [|eauto].
  pose proof (switchNode_visited node (markVisited id st)) as Hsame.
  destruct (switchNode node (markVisited id st)) as [st'|st'|st' b|st']; simpl in Hsame.
  - exists st', (Returned None). split; [done|]. unfold visitedSet in *. by rewrite Hsame.
  - exists st', Panicked. split; [done|]. unfold visitedSet in *. by rewrite Hsame.
  - assert (visitedSet st' = visitedSet (markVisited id st)) as Heq
      by (unfold visitedSet; by rewrite Hsame).
    destruct (routeEdge (ID node) b (Edges wf)) as [target|] eqn:Hroute.
    + destruct (routeEdge_Some _ _ _ _ Hroute) as (edge & Hin & _ & <- & _).
      destruct (IH (Target edge) st') as (st2 & o2 & -> & Hsub2).
      * by apply callable_target.
      * rewrite Heq. lia.
      * exists st2, o2. split; [done|]. set_solver.
    + exists st', (Returned (Some (errNoMatchingEdge (ID node)))). split; [done|]. set_solver.
  - assert (visitedSet st' = visitedSet (markVisited id st)) as Heq
      by (unfold visitedSet; by rewrite Hsame).
    destruct (forEachNext_total (traverse fuel) fuel IH (default [] (adj wf !! id)) st')
      as (st2 & o2 & -> & Hsub2).
    + rewrite adj_lookup. intros target Hin.
      destruct (outgoing_target _ _ _ Hin) as (edge & Hedge & _ & <-).
      by apply callable_target.
    + rewrite Heq. lia.
    + exists st2, o2. split; [done|]. set_solver.
Qed.

Lemma traverse_enough_fuel :
  exists st o, traverse (enoughFuel wf) StartNodeID initialState = Some (st, o).
Proof.
  destruct (traverse_total (enoughFuel wf) StartNodeID initialState) as (st & o & Hrun & _).
  - apply callable_start.
  - unfold enoughFuel. pose proof callable_size.
    assert (pending initialState <= size (callable wf)) by (apply subseteq_size; set_solver).
    lia.
  - eauto.
Qed.

(** More fuel changes nothing. *)
Lemma traversal_fuel fuel :
  enoughFuel wf <= fuel ->
  traverse fuel StartNodeID initialState
  = traverse (enoughFuel wf) StartNodeID initialState.
Proof.
  intros Hle. destruct traverse_enough_fuel as (st & o & Hrun). rewrite Hrun.
  by apply (traverse_fuel_mono (enoughFuel wf)).
Qed.

(** [processNodes] never runs out of fuel. *)
Lemma processNodes_total : is_Some (processNodes w h wf payload).
Proof.
  unfold processNodes. destruct (nodeMap wf !! StartNodeID); [|eauto].
  destruct (nodeMap wf !! EndNodeID); [|eauto].
  destruct traverse_enough_fuel as (st & o & ->). eauto.
Qed.

End Traversal.

(** ** A proof rule for [traverse] *)

Section Rule.
Context (w : World) (h : Handlers).
Context (wf : WorkflowDefinition) (payload : ExecutePayload).

#[local] Abbreviation traverse := (traverse w h wf payload).
#[local] Abbreviation switchNode := (switchNode w h payload).

(** [P st st' o]: a call entered in [st] may leave in [st'] with [o]. *)
Variable P : State -> State -> Outcome -> Prop.

Hypothesis P_refl : forall st, P st st (Returned None).
Hypothesis P_trans : forall st1 st2 st3 o,
  P st1 st2 (Returned None) -> P st2 st3 o -> P st1 st3 o.
Hypothesis P_missing : forall id st,
  id ∉ visited st -> nodeMap wf !! id = None ->
  P st (markVisited id st) (Returned (Some (errNodeNotFound id))).
Hypothesis P_halt : forall id st node st',
  id ∉ visited st -> nodeMap wf !! id = Some node ->
  switchNode node (markVisited id st) = Halt st' ->
  P st st' (Returned None).
Hypothesis P_fault : forall id st node st',
  id ∉ visited st -> nodeMap wf !! id = Some node ->
  switchNode node (markVisited id st) = Fault st' ->
  P st st' Panicked.
Hypothesis P_next : forall id st node st',
  id ∉ visited st -> nodeMap wf !! id = Some node ->
  switchNode node (markVisited id st) = Fallthrough st' ->
  P st st' (Returned None).
Hypothesis P_route_none : forall id st node st' b,
  id ∉ visited st -> nodeMap wf !! id = Some node ->
  switchNode node (markVisited id st) = Route st' b ->
  routeEdge (ID node) b (Edges wf) = None ->
  P st st' (Returned (Some (errNoMatchingEdge (ID node)))).
Hypothesis P_route_some : forall id st node st' b target st'' o,
  id ∉ visited st -> nodeMap wf !! id = Some node ->
  switchNode node (markVisited id st) = Route st' b ->
  routeEdge (ID node) b (Edges wf) = Some target ->
  P st' st'' o -> P st st'' o.

Lemma forEachNext_rule (call : string -> State -> option (State * Outcome)) :
  (forall id st st' o, call id st = Some (st', o) -> P st st' o) ->
  forall targets st st' o,
    forEachNext call targets st = Some (st', o) -> P st st' o.
Proof.
  intros Hcall targets. induction targets as [|next rest IH]; intros st st' o; simpl.
  - intros [= <- <-]. apply P_refl.
  - destruct (call next st) as [[st1 o1]|] eqn:Hnext; [|discriminate].
    apply Hcall in Hnext. destruct o1 as [[err|]|].
    + by intros [= <- <-].
    + intros Hrest. eapply P_trans; [exact Hnext|]. by apply IH.
    + by intros [= <- <-].
Qed.

(** A relation that holds of every step of [traverse] and composes
    along its loop holds of every call that returns. *)
Lemma traverse_rule fuel id st st' o :
  traverse fuel id st = Some (st', o) -> P st st' o.
Proof.
  revert id st st' o. induction fuel as [|fuel IH]; intros id st st' o; [done|]. simpl.
  destruct (bool_decide (id ∈ visited st)) eqn:Hvis.
  { intros [= <- <-]. apply P_refl. }
  apply bool_decide_eq_false in Hvis.
  destruct (nodeMap wf !! id) as [node|] eqn:Hnode.
  2: { intros [= <- <-]. by apply P_missing. }
  destruct (switchNode node (markVisited id st)) as [st1|st1|st1 b|st1] eqn:Hswitch.
  - intros [= <- <-]. by eapply P_halt.
  - intros [= <- <-]. by eapply P_fault.
  - destruct (routeEdge (ID node) b (Edges wf)) as [target|] eqn:Hroute.
    + intros Hrun. eapply P_route_some; eauto.
    + intros [= <- <-]. by eapply P_route_none.
  - intros Hloop. eapply P_trans; [by eapply P_next|].
    eapply forEachNext_rule; [|exact Hloop]. apply IH.
Qed.

End Rule.

Section Invariants.
Context (w : World) (h : Handlers).
Context (wf : WorkflowDefinition) (payload : ExecutePayload).

#[local] Abbreviation traverse := (traverse w h wf payload).
#[local] Abbreviation switchNode := (switchNode w h payload).

(** *** Well-formed steps *)

Lemma wellFormed_initial : wellFormed initialState.
Proof.
  unfold wellFormed, initialState. simpl.
  split; [constructor|]. split; [constructor|]. repeat split; constructor.
Qed.

Lemma wellFormed_mark id st :
  id ∉ visited st -> wellFormed st -> wellFormed (markVisited id st).
Proof.
  intros Hnot (Hnodup & Hsub & Hrest). unfold wellFormed. simpl.
  split; [|split; [|done]].
  - apply NoDup_app. split; [done|]. split; [|apply NoDup_singleton].
    intros x Hx Hx'. apply list_elem_of_singleton in Hx'. by subst.
  - by apply sublist_inserts_r.
Qed.

Lemma wellFormed_append id st node ctx status out :
  id ∉ visited st -> ID node = id -> is_Some (selectedCase node) ->
  status = StatusCompleted \/ status = StatusFailed ->
  (exists d, out !! "duration" = Some (VInt d)) ->
  wellFormed st ->
  wellFormed (appendStep (setContext ctx (markVisited id st)) node status out).
Proof.
  intros Hnot Hid Hsel Hstatus Hout (Hnodup & Hsub & Hstat & Hdur & Hcase).
  unfold wellFormed. simpl. rewrite fmap_app. simpl. rewrite Hid.
  split; [|split; [|split; [|split]]].
  - apply NoDup_app. split; [done|]. split; [|apply NoDup_singleton].
    intros x Hx Hx'. apply list_elem_of_singleton in Hx'. by subst.
  - by apply sublist_app.
  - apply Forall_app. split; [done|]. apply Forall_singleton. exact Hstatus.
  - apply Forall_app. split; [done|]. apply Forall_singleton. exact Hout.
  - apply Forall_app. split; [done|]. apply Forall_singleton. exact Hsel.
Qed.

Lemma wellFormed_switch id st node :
  id ∉ visited st -> ID node = id -> wellFormed st ->
  wellFormed (branchState (switchNode node (markVisited id st))).
Proof.
  intros Hnot Hid Hwf.
  destruct (switchNode_spec w h payload node (markVisited id st))
    as [Hcase|ctx err Hcall|kind ctx out Hcase Hkind Hcall Htemplate Hout
        |b out Hcase Hcond Hmet Hout|Hcase Hemail Htemplate]; simpl.
  - by apply wellFormed_mark.
  - apply wellFormed_append; try done.
    + unfold handlerCall in Hcall. destruct (selectedCase node); [eauto|]. by inversion Hcall.
    + by right.
    + eexists. reflexivity.
  - apply wellFormed_append; eauto.
  - rewrite <- (setContext_same (markVisited id st)). apply wellFormed_append; eauto.
  - by apply wellFormed_mark.
Qed.

(** Every call keeps the recorded steps well formed. *)
Lemma traverse_wellFormed fuel id st st' o :
  traverse fuel id st = Some (st', o) -> wellFormed st -> wellFormed st'.
Proof.
  apply (traverse_rule w h wf payload (fun st st' _ => wellFormed st -> wellFormed st')).
  - done.
  - auto.
  - intros. by apply wellFormed_mark.
  - intros id0 st0 node st1 Hnot Hnode Hswitch Hwf.
    pose proof (wellFormed_switch id0 st0 node Hnot (nodeMap_lookup_ID _ _ _ Hnode) Hwf) as H.
    by rewrite Hswitch in H.
  - intros id0 st0 node st1 Hnot Hnode Hswitch Hwf.
    pose proof (wellFormed_switch id0 st0 node Hnot (nodeMap_lookup_ID _ _ _ Hnode) Hwf) as H.
    by rewrite Hswitch in H.
  - intros id0 st0 node st1 Hnot Hnode Hswitch Hwf.
    pose proof (wellFormed_switch id0 st0 node Hnot (nodeMap_lookup_ID _ _ _ Hnode) Hwf) as H.
    by rewrite Hswitch in H.
  - intros id0 st0 node st1 b Hnot Hnode Hswitch _ Hwf.
    pose proof (wellFormed_switch id0 st0 node Hnot (nodeMap_lookup_ID _ _ _ Hnode) Hwf) as H.
    by rewrite Hswitch in H.
  - intros id0 st0 node st1 b target st2 o0 Hnot Hnode Hswitch _ Hinner Hwf.
    apply Hinner.
    pose proof (wellFormed_switch id0 st0 node Hnot (nodeMap_lookup_ID _ _ _ Hnode) Hwf) as H.
    by rewrite Hswitch in H.
Qed.

(** *** The errors [traverse] returns *)

(** A handler's error is never what [traverse] returns. *)
Lemma traverse_error fuel id st st' o :
  traverse fuel id st = Some (st', o) ->
  forall err, o = Returned (Some err) ->
  exists id', err = errNodeNotFound id' \/ err = errNoMatchingEdge id'.
Proof.
  apply (traverse_rule w h wf payload (fun _ _ o => forall err, o = Returned (Some err) ->
    exists id', err = errNodeNotFound id' \/ err = errNoMatchingEdge id')); try done.
  - intros id0 st0 _ _ err [= <-]. eauto.
  - intros id0 st0 node st1 b _ _ _ _ err [= <-]. eauto.
Qed.

End Invariants.

Ltac switch_inv H :=
  match type of H with
  | switchNode ?w ?h ?p ?node ?st = _ =>
      let Hspec := fresh "Hspec" in
      pose proof (switchNode_spec w h p node st) as Hspec;
      rewrite H in Hspec; inversion Hspec; subst; clear Hspec
  end.

Section Routing.
Context (w : World) (h : Handlers).
Context (wf : WorkflowDefinition) (payload : ExecutePayload).

#[local] Abbreviation traverse := (traverse w h wf payload).
#[local] Abbreviation switchNode := (switchNode w h payload).

(** *** A condition step with no edge to follow ends the traversal *)

#[local] Abbreviation deadEnd := (deadEnd wf).
#[local] Abbreviation routingRule := (routingRule wf).

Lemma routingRule_nil st st' o : steps st' = steps st -> routingRule st st' o.
Proof.
  intros Hsame. exists []. split; [by rewrite app_nil_r|]. intros s Hin. inversion Hin.
Qed.

Lemma routingRule_one st st' o s :
  steps st' = (steps st ++ [s])%list ->
  (deadEnd s -> o = Returned (Some (errNoMatchingEdge ConditionNodeID))) ->
  routingRule st st' o.
Proof.
  intros Hsteps Hdead. exists [s]. split; [done|].
  intros s' Hin Hs'. apply list_elem_of_singleton in Hin as ->. auto.
Qed.

Lemma routingRule_trans st1 st2 st3 o :
  routingRule st1 st2 (Returned None) -> routingRule st2 st3 o -> routingRule st1 st3 o.
Proof.
  intros (a1 & H1 & Hd1) (a2 & H2 & Hd2). exists (a1 ++ a2)%list.
  split; [by rewrite H2, H1, app_assoc|].
  intros s Hin Hdead. apply elem_of_app in Hin as [Hin|Hin].
  - by destruct (Hd1 s Hin Hdead) as [[=] _].
  - destruct (Hd2 s Hin Hdead) as [-> Hlast]. split; [done|].
    destruct a2 as [|x a2]; [done|]. by rewrite last_app, Hlast.
Qed.

Lemma traverse_routingRule fuel id st st' o :
  traverse fuel id st = Some (st', o) -> routingRule st st' o.
Proof.
  apply (traverse_rule w h wf payload routingRule).
  - intros. by apply routingRule_nil.
  - apply routingRule_trans.
  - intros. by apply routingRule_nil.
  - intros id0 st0 node st1 _ _ Hswitch. switch_inv Hswitch.
    eapply routingRule_one; [done|]. by intros (b & (_ & [=] & _) & _).
  - intros id0 st0 node st1 _ _ Hswitch. switch_inv Hswitch. by apply routingRule_nil.
  - intros id0 st0 node st1 _ _ Hswitch. switch_inv Hswitch.
    + by apply routingRule_nil.
    + eapply routingRule_one; [done|]. intros (b & (Hid & _) & _). simpl in Hid.
      match goal with Hc : selectedCase _ = Some _ |- _ =>
        unfold selectedCase in Hc; rewrite Hid in Hc; by inversion Hc end.
  - intros id0 st0 node st1 b _ _ Hswitch Hroute. switch_inv Hswitch.
    match goal with Hc : selectedCase _ = Some KCondition |- _ =>
      apply switchCase_Some in Hc; simpl in Hc; rewrite Hc in * end.
    eapply routingRule_one; [done|]. done.
  - intros id0 st0 node st1 b target st2 o0 _ _ Hswitch Hroute Hinner. switch_inv Hswitch.
    match goal with Hc : selectedCase _ = Some KCondition |- _ =>
      apply switchCase_Some in Hc; simpl in Hc; rewrite Hc in * end.
    eapply routingRule_trans; [|exact Hinner].
    eapply routingRule_one; [done|].
    intros (b' & (_ & _ & Hmet) & Hnone). simpl in Hmet.
    match goal with Ho : ?out !! "conditionMet" = Some (VBool b) |- _ =>
      rewrite Ho in Hmet end.
    inversion Hmet; subst. congruence.
Qed.

End Routing.

Section Panics.
Context (w : World) (h : Handlers).
Context (wf : WorkflowDefinition) (payload : ExecutePayload).

#[local] Abbreviation traverse := (traverse w h wf payload).
#[local] Abbreviation switchNode := (switchNode w h payload).

#[local] Abbreviation emailFaults := (emailFaults h wf payload).
#[local] Abbreviation panicRule := (panicRule h wf payload).

Lemma panicRule_trans st1 st2 st3 o :
  panicRule st1 st2 (Returned None) -> panicRule st2 st3 o -> panicRule st1 st3 o.
Proof.
  intros [_ H12] [Hp H23]. split; [done|].
  intros node Hnode Hnot Hin.
  destruct (decide (EmailNodeID ∈ visited st2)) as [Hin2|Hnot2].
  - by specialize (H12 node Hnode Hnot Hin2).
  - by apply (H23 node).
Qed.

(** Entering a node other than the faulty email node. *)
Lemma panicRule_other id st st' o :
  visited st' = (visited st ++ [id])%list -> o <> Panicked ->
  (forall node', emailFaults node' -> id = EmailNodeID -> False) ->
  panicRule st st' o.
Proof.
  intros Hvis Ho Hother. split; [done|].
  intros node' Hnode' Hnot Hin. rewrite Hvis in Hin.
  apply elem_of_app in Hin as [Hin|Hin]; [done|].
  apply list_elem_of_singleton in Hin. exfalso. by apply (Hother node').
Qed.

Lemma traverse_panicRule fuel id st st' o :
  traverse fuel id st = Some (st', o) -> panicRule st st' o.
Proof.
  apply (traverse_rule w h wf payload panicRule).
  - intros st0. split; [done|]. by intros.
  - apply panicRule_trans.
  - intros id0 st0 _ Hnone. eapply panicRule_other; [done|done|].
    intros node' (Hnode' & _) ->. congruence.
  - intros id0 st0 node st1 _ Hnode Hswitch. switch_inv Hswitch.
    eapply (panicRule_other id0); [done|done|].
    intros node' (Hnode' & Htemplate & Hemail) ->.
    assert (node' = node) as -> by congruence.
    pose proof (nodeMap_lookup_ID _ _ _ Hnode) as Hid.
    match goal with Hc : handlerCall _ _ _ _ = _ |- _ =>
      unfold handlerCall, selectedCase in Hc; rewrite Hid in Hc; simpl in Hc;
      congruence end.
  - intros id0 st0 node st1 _ Hnode Hswitch. switch_inv Hswitch.
    match goal with Hc : selectedCase _ = Some KEmail |- _ =>
      apply switchCase_Some in Hc; simpl in Hc end.
    pose proof (nodeMap_lookup_ID _ _ _ Hnode) as Hid.
    assert (id0 = EmailNodeID) as -> by congruence.
    split; [|done]. intros _. split.
    + simpl. apply elem_of_app. right. by apply list_elem_of_singleton.
    + exists node. by split.
  - intros id0 st0 node st1 _ Hnode Hswitch.
    pose proof (nodeMap_lookup_ID _ _ _ Hnode) as Hid. switch_inv Hswitch.
    + eapply (panicRule_other (ID node)); [done|done|].
      intros node' _ Heq.
      match goal with Hc : selectedCase _ = None |- _ =>
        unfold selectedCase in Hc; rewrite Heq in Hc; by inversion Hc end.
    + eapply (panicRule_other (ID node)); [done|done|].
      intros node' (Hnode' & Htemplate & Hemail) Heq.
      rewrite Heq in Hnode. assert (node' = node) as -> by congruence.
      match goal with Hc : selectedCase _ = Some ?k, Ht : ?k = KEmail -> _ |- _ =>
        unfold selectedCase in Hc; rewrite Heq in Hc; inversion Hc; subst;
        destruct (Ht eq_refl) as [? Hsome]; congruence end.
  - intros id0 st0 node st1 b _ Hnode Hswitch _.
    pose proof (nodeMap_lookup_ID _ _ _ Hnode) as Hid. switch_inv Hswitch.
    eapply (panicRule_other (ID node)); [done|done|].
    intros node' _ Heq.
    match goal with Hc : selectedCase _ = Some KCondition |- _ =>
      unfold selectedCase in Hc; rewrite Heq in Hc; by inversion Hc end.
  - intros id0 st0 node st1 b target st2 o0 _ Hnode Hswitch _ Hinner.
    pose proof (nodeMap_lookup_ID _ _ _ Hnode) as Hid. switch_inv Hswitch.
    eapply panicRule_trans; [|exact Hinner].
    eapply (panicRule_other (ID node)); [done|done|].
    intros node' _ Heq.
    match goal with Hc : selectedCase _ = Some KCondition |- _ =>
      unfold selectedCase in Hc; rewrite Heq in Hc; by inversion Hc end.
Qed.

End Panics.

Section Retype.
Context (w : World) (h : Handlers) (payload : ExecutePayload).
Context (newType : string -> string).
Hypothesis h_blind : typeBlind h.

Lemma nodeMap_retype wf :
  nodeMap (retypeWorkflow newType wf) = retypeNode newType <$> nodeMap wf.
Proof.
  unfold nodeMap. simpl. generalize (Nodes wf). intros nodes.
  induction nodes as [|n nodes IH] using rev_ind.
  - simpl. by rewrite fmap_empty.
  - rewrite fmap_app. simpl. rewrite !foldl_snoc, IH. simpl. by rewrite fmap_insert.
Qed.

Lemma retype_appendStep st node status out :
  appendStep (retypeState newType st) (retypeNode newType node) status out
  = retypeState newType (appendStep st node status out).
Proof. unfold appendStep, retypeState. simpl. by rewrite fmap_app. Qed.

Lemma retype_setContext ctx st :
  setContext ctx (retypeState newType st) = retypeState newType (setContext ctx st).
Proof. done. Qed.

Lemma retype_markVisited id st :
  markVisited id (retypeState newType st) = retypeState newType (markVisited id st).
Proof. done. Qed.

Lemma retype_duration st : duration w (retypeState newType st) = duration w st.
Proof. unfold duration. simpl. by rewrite length_fmap. Qed.

Lemma switchNode_retype node st :
  switchNode w h payload (retypeNode newType node) (retypeState newType st)
  = retypeBranch newType (switchNode w h payload node st).
Proof.
  destruct (h_blind newType node payload) as [Hweather Hemail].
  unfold switchNode.
  change (selectedCase (retypeNode newType node)) with (selectedCase node).
  rewrite retype_duration.
  destruct (selectedCase node) as [[]|]; simpl.
  - by rewrite retype_appendStep.
  - by rewrite retype_appendStep.
  - change (processFormNode (retypeNode newType node) payload)
      with (processFormNode node payload).
    destruct (processFormNode node payload); simpl; by rewrite retype_appendStep.
  - rewrite Hweather.
    destruct (processWeatherNodeFn h node payload (contextData st)) as [ctx [err|]];
      simpl; by rewrite retype_setContext, retype_appendStep.
  - change (processConditionNode (retypeNode newType node) payload (contextData st))
      with (processConditionNode node payload (contextData st)).
    destruct (processConditionNode node payload (contextData st)) as [b [err|]]; simpl.
    + by rewrite retype_appendStep.
    + destruct (ctxValue (contextData st) TemperatureKey); simpl; try done.
      by rewrite retype_appendStep.
  - rewrite Hemail. destruct (processEmailNodeFn h node payload); simpl.
    + by rewrite retype_appendStep.
    + destruct (MetaEmailTemplate (Metadata (Data node))); simpl; [|done].
      rewrite retype_appendStep. by rewrite length_fmap.
  - done.
Qed.

#[local] Abbreviation retypeResult := (retypeResult newType).

Lemma forEachNext_retype (call call' : string -> State -> option (State * Outcome)) :
  (forall id st, call' id (retypeState newType st) = retypeResult (call id st)) ->
  forall targets st,
    forEachNext call' targets (retypeState newType st)
    = retypeResult (forEachNext call targets st).
Proof.
  intros Hcall targets. induction targets as [|next rest IH]; intros st; simpl; [done|].
  rewrite Hcall. destruct (call next st) as [[st1 [[err|]|]]|]; simpl; auto.
Qed.

Lemma traverse_retype wf fuel id st :
  traverse w h (retypeWorkflow newType wf) payload fuel id (retypeState newType st)
  = retypeResult (traverse w h wf payload fuel id st).
Proof.
  revert id st. induction fuel as [|fuel IH]; intros id st; [done|]. simpl.
  destruct (bool_decide (id ∈ visited st)); [done|].
  rewrite nodeMap_retype, lookup_fmap.
  destruct (nodeMap wf !! id) as [node|]; simpl; [|done].
  rewrite retype_markVisited, switchNode_retype.
  destruct (switchNode w h payload node (markVisited id st)) as [st1|st1|st1 b|st1];
    simpl; try done.
  - destruct (routeEdge (ID node) b (Edges wf)); [apply IH|done].
  - change (adj (retypeWorkflow newType wf)) with (adj wf).
    by apply forEachNext_retype.
Qed.

(** A run on the retyped workflow is the retyped run. *)
Lemma processNodes_retype wf :
  processNodes w h (retypeWorkflow newType wf) payload
  = retypeRun newType <$> processNodes w h wf payload.
Proof.
  pose proof (traverse_retype wf (enoughFuel wf) StartNodeID initialState) as Hrun.
  change (retypeState newType initialState) with initialState in Hrun.
  unfold processNodes. rewrite nodeMap_retype, !lookup_fmap.
  change (enoughFuel (retypeWorkflow newType wf)) with (enoughFuel wf).
  rewrite Hrun.
  destruct (nodeMap wf !! StartNodeID); [|done].
  destruct (nodeMap wf !! EndNodeID); [|done].
  destruct (traverse w h wf payload (enoughFuel wf) StartNodeID initialState)
    as [[st [[err|]|]]|]; try done.
  - unfold retypeResult, finish. cbn. by rewrite length_fmap.
  - unfold retypeResult, finish. cbn. by rewrite length_fmap.
Qed.

End Retype.

Lemma defaultHandlers_typeBlind w : typeBlind (defaultHandlers w).
Proof. intros newType node payload. split; done. Qed.

Section Results.
Context (w : World) (h : Handlers).
Context (wf : WorkflowDefinition) (payload : ExecutePayload).


(** *** What is marked *)

(** Marks are never removed, and a call that returns has marked its id. *)
Lemma traverse_visited_mono fuel id st st' o :
  traverse w h wf payload fuel id st = Some (st', o) -> forall x, x ∈ visited st -> x ∈ visited st'.
Proof.
  assert (forall id0 st0 node br, switchNode w h payload node (markVisited id0 st0) = br ->
            forall x, x ∈ visited st0 -> x ∈ visited (branchState br)) as Hswitch.
  { intros id0 st0 node br <- x Hx. rewrite switchNode_visited. simpl.
    apply elem_of_app. by left. }
  apply (traverse_rule w h wf payload
           (fun st st' _ => forall x, x ∈ visited st -> x ∈ visited st')).
  - done.
  - auto.
  - intros id0 st0 _ _ x Hx. simpl. apply elem_of_app. by left.
  - intros id0 st0 node st1 _ _ Heq. apply (Hswitch _ _ _ _ Heq).
  - intros id0 st0 node st1 _ _ Heq. apply (Hswitch _ _ _ _ Heq).
  - intros id0 st0 node st1 _ _ Heq. apply (Hswitch _ _ _ _ Heq).
  - intros id0 st0 node st1 b _ _ Heq _. apply (Hswitch _ _ _ _ Heq).
  - intros id0 st0 node st1 b target st2 o0 _ _ Heq _ Hinner x Hx.
    apply Hinner. by apply (Hswitch _ _ _ _ Heq).
Qed.

Lemma forEachNext_visited_mono fuel targets st st' o :
  forEachNext (traverse w h wf payload fuel) targets st = Some (st', o) ->
  forall x, x ∈ visited st -> x ∈ visited st'.
Proof.
  apply (forEachNext_rule (fun st st' _ => forall x, x ∈ visited st -> x ∈ visited st'));
    [done|auto|].
  intros id0 st0 st1 o0. apply traverse_visited_mono.
Qed.

Lemma traverse_marks fuel id st st' o :
  traverse w h wf payload fuel id st = Some (st', o) -> id ∈ visited st'.
Proof.
  destruct fuel as [|fuel]; [done|]. simpl.
  destruct (bool_decide (id ∈ visited st)) eqn:Hvis.
  { apply bool_decide_eq_true in Hvis. by intros [= <- <-]. }
  assert (id ∈ visited (markVisited id st)) as Hin.
  { simpl. apply elem_of_app. right. by apply list_elem_of_singleton. }
  destruct (nodeMap wf !! id) as [node|]; [|by intros [= <- <-]].
  pose proof (switchNode_visited w h payload node (markVisited id st)) as Hsame.
  destruct (switchNode w h payload node (markVisited id st)) as [st1|st1|st1 b|st1]; simpl in Hsame.
  - intros [= <- <-]. by rewrite Hsame.
  - intros [= <- <-]. by rewrite Hsame.
  - destruct (routeEdge (ID node) b (Edges wf)).
    + intros Hrun. apply (traverse_visited_mono _ _ _ _ _ Hrun). by rewrite Hsame.
    + intros [= <- <-]. by rewrite Hsame.
  - intros Hrun. apply (forEachNext_visited_mono _ _ _ _ _ Hrun). by rewrite Hsame.
Qed.

(** A loop that returns nil has gone through all of its targets. *)
Lemma forEachNext_marks_all fuel targets st st' :
  forEachNext (traverse w h wf payload fuel) targets st = Some (st', Returned None) ->
  forall target, target ∈ targets -> target ∈ visited st'.
Proof.
  revert st. induction targets as [|next rest IH]; intros st; simpl.
  - intros _ target Hin. inversion Hin.
  - destruct (traverse w h wf payload fuel next st) as [[st1 [[err|]|]]|] eqn:Hnext; try done.
    intros Hrest target Hin. apply elem_of_cons in Hin as [->|Hin].
    + apply (forEachNext_visited_mono _ _ _ _ _ Hrest). by apply (traverse_marks _ _ _ _ _ Hnext).
    + by apply (IH st1).
Qed.

(** *** A node no case selects *)

Lemma traverse_pass_through fuel id st node :
  id ∉ visited st -> nodeMap wf !! id = Some node -> (forall kind, id <> caseID kind) ->
  traverse w h wf payload (S fuel) id st
  = forEachNext (traverse w h wf payload fuel) (outgoing wf id) (markVisited id st).
Proof.
  intros Hnot Hnode Hnone. simpl.
  rewrite bool_decide_eq_false_2 by done. rewrite Hnode.
  apply switchCase_None in Hnone.
  unfold switchNode, selectedCase.
  rewrite (nodeMap_lookup_ID _ _ _ Hnode), Hnone. by rewrite adj_lookup.
Qed.

(** *** A node whose handler fails *)

Lemma switchNode_handler_failure node st ctx err :
  handlerCall h payload node (contextData st) = (ctx, Some err) ->
  switchNode w h payload node st
  = Halt (appendStep (setContext ctx st) node StatusFailed (failedOutput err (duration w st))).
Proof.
  intros Hcall.
  destruct (switchNode_spec w h payload node st)
    as [Hcase|ctx' err' Hcall'|kind ctx' out Hcase Hkind Hcall' Htemplate Hout
        |b out Hcase Hcond Hmet Hout|Hcase Hemail Htemplate].
  - unfold handlerCall in Hcall. rewrite Hcase in Hcall. by inversion Hcall.
  - rewrite Hcall in Hcall'. by inversion Hcall'.
  - rewrite Hcall in Hcall'. by inversion Hcall'.
  - unfold handlerCall in Hcall. rewrite Hcase, Hcond in Hcall. by inversion Hcall.
  - unfold handlerCall in Hcall. rewrite Hcase, Hemail in Hcall. by inversion Hcall.
Qed.

Lemma traverse_handler_failure fuel id st node ctx err :
  id ∉ visited st -> nodeMap wf !! id = Some node ->
  handlerCall h payload node (contextData st) = (ctx, Some err) ->
  traverse w h wf payload (S fuel) id st
  = Some (appendStep (setContext ctx (markVisited id st)) node StatusFailed
            (failedOutput err (duration w st)), Returned None).
Proof.
  intros Hnot Hnode Hcall. simpl.
  rewrite bool_decide_eq_false_2 by done. rewrite Hnode.
  by rewrite (switchNode_handler_failure node (markVisited id st) ctx err Hcall).
Qed.

(** *** The result of [processNodes] *)

(** What [processNodes] returns: one of the two validation errors, or
    what [finish] makes of the traversal. *)
Lemma processNodes_traversal run :
  processNodes w h wf payload = Some run ->
  run = Return None (Some ErrMissingStartNode) \/
  run = Return None (Some ErrMissingEndNode) \/
  validated wf /\
  exists st o, traversal w h wf payload = Some (st, o) /\ run = finish w st o.
Proof.
  unfold processNodes, validated, traversal.
  destruct (nodeMap wf !! StartNodeID); [|intros [= <-]; by left].
  destruct (nodeMap wf !! EndNodeID); [|intros [= <-]; right; by left].
  destruct (traverse w h wf payload (enoughFuel wf) StartNodeID initialState)
    as [[st o]|]; [|done].
  intros [= <-]. right. right. eauto 10.
Qed.

Lemma processNodes_validated st o :
  validated wf -> traversal w h wf payload = Some (st, o) ->
  processNodes w h wf payload = Some (finish w st o).
Proof.
  unfold processNodes, validated, traversal. intros [[? ->] [? ->]] Hrun. by rewrite Hrun.
Qed.

End Results.

(** ** Workflows without fan-out *)

Lemma haltRule_refl st : haltRule st st.
Proof.
  exists [], []. split; [by rewrite app_nil_r|]. split; [by rewrite app_nil_r|].
  intros s Hin. inversion Hin.
Qed.

Lemma haltRule_mark id st st' :
  steps st' = steps st -> visited st' = (visited st ++ [id])%list -> haltRule st st'.
Proof.
  intros Hsteps Hvis. exists [], [id]. split; [by rewrite app_nil_r|]. split; [done|].
  intros s Hin. inversion Hin.
Qed.

(** One step appended while [id] is marked. *)
Lemma haltRule_step id st st' s :
  steps st' = (steps st ++ [s])%list ->
  visited st' = (visited st ++ [id])%list ->
  NodeID s = id ->
  haltRule st st'.
Proof.
  intros Hsteps Hvis Hid. exists [s], [id]. split; [done|]. split; [done|].
  intros s' Hin Hfailed. apply list_elem_of_singleton in Hin as ->.
  split; [done|]. simpl. by rewrite Hid.
Qed.

(** A call made after the node's own step, when that step did not fail. *)
Lemma haltRule_after id st1 st2 st3 added :
  steps st2 = (steps st1 ++ added)%list ->
  visited st2 = (visited st1 ++ [id])%list ->
  (forall s, s ∈ added -> Status s <> StatusFailed) ->
  haltRule st2 st3 -> haltRule st1 st3.
Proof.
  intros Hsteps Hvis Hok (added' & marked' & Hsteps' & Hvis' & Hlast).
  exists (added ++ added')%list, ([id] ++ marked')%list.
  split; [by rewrite Hsteps', Hsteps, app_assoc|].
  split; [by rewrite Hvis', Hvis, app_assoc|].
  intros s Hin Hfailed. apply elem_of_app in Hin as [Hin|Hin].
  { by destruct (Hok s Hin). }
  destruct (Hlast s Hin Hfailed) as [Hl1 Hl2]. split.
  - destruct added' as [|x added']; [done|]. by rewrite last_app, Hl1.
  - destruct marked' as [|x marked']; [done|]. by rewrite last_app, Hl2.
Qed.

Section WithoutFanOut.
Context (w : World) (h : Handlers).
Context (wf : WorkflowDefinition) (payload : ExecutePayload).
Hypothesis wf_withoutFanOut : withoutFanOut wf.

(** On a workflow without fan-out the loop makes at most one call. *)
Lemma forEachNext_withoutFanOut fuel id st st' o :
  id <> ConditionNodeID ->
  forEachNext (traverse w h wf payload fuel) (default [] (adj wf !! id)) st = Some (st', o) ->
  st' = st \/ exists target o', traverse w h wf payload fuel target st = Some (st', o').
Proof.
  intros Hne. rewrite adj_lookup. pose proof (wf_withoutFanOut id Hne) as Hlen.
  destruct (outgoing wf id) as [|target [|target' rest]]; simpl in *; [| |lia].
  - intros [= <- <-]. by left.
  - destruct (traverse w h wf payload fuel target st) as [[st1 [[err|]|]]|] eqn:Hcall;
      try discriminate; intros [= <- <-]; right; eauto.
Qed.

(** The loop runs for the nodes of every case but the condition case,
    and for those no case is selected for. *)
Lemma selectedCase_loop node :
  selectedCase node = None \/
  (exists kind, selectedCase node = Some kind /\ kind <> KCondition) ->
  ID node <> ConditionNodeID.
Proof.
  unfold selectedCase. intros Hcase Heq. rewrite Heq in Hcase.
  destruct Hcase as [Hcase|(kind & Hcase & Hkind)]; [discriminate Hcase|].
  apply Hkind. by inversion Hcase.
Qed.

(** A failed step ends the traversal of a workflow without fan-out: it
    is the last step recorded and its node the last one marked. *)
Lemma traverse_haltRule fuel id st st' o :
  traverse w h wf payload fuel id st = Some (st', o) -> haltRule st st'.
Proof.
  revert id st st' o. induction fuel as [|fuel IH]; intros id st st' o; [done|]. simpl.
  destruct (bool_decide (id ∈ visited st)).
  { intros [= <- <-]. apply haltRule_refl. }
  destruct (nodeMap wf !! id) as [node|] eqn:Hnode.
  2: { intros [= <- <-]. by apply (haltRule_mark id). }
  pose proof (nodeMap_lookup_ID _ _ _ Hnode) as Hid. subst id.
  destruct (switchNode w h payload node (markVisited (ID node) st))
    as [st1|st1|st1 b|st1] eqn:Hswitch; switch_inv Hswitch.
  - intros [= <- <-]. eapply (haltRule_step (ID node)); reflexivity.
  - intros [= <- <-]. apply (haltRule_mark (ID node)); reflexivity.
  - destruct (routeEdge (ID node) b (Edges wf)) as [target|].
    + intros Hrun. refine (haltRule_after (ID node) _ _ _ _ _ _ _ (IH _ _ _ _ Hrun)); [reflexivity|reflexivity|].
      intros s Hin. apply list_elem_of_singleton in Hin as ->. discriminate.
    + intros [= <- <-]. eapply (haltRule_step (ID node)); reflexivity.
  - intros Hloop. apply forEachNext_withoutFanOut in Hloop as [->|(target & o' & Hrun)];
      [| |apply selectedCase_loop; by left].
    + apply (haltRule_mark (ID node)); reflexivity.
    + refine (haltRule_after (ID node) _ _ _ [] _ _ _ (IH _ _ _ _ Hrun)); [by rewrite app_nil_r|reflexivity|].
      intros s Hin. inversion Hin.
  - intros Hloop. apply forEachNext_withoutFanOut in Hloop as [->|(target & o' & Hrun)];
      [| |apply selectedCase_loop; right; eauto].
    + eapply (haltRule_step (ID node)); reflexivity.
    + refine (haltRule_after (ID node) _ _ _ _ _ _ _ (IH _ _ _ _ Hrun)); [reflexivity|reflexivity|].
      intros s Hin. apply list_elem_of_singleton in Hin as ->. discriminate.
Qed.

Lemma processNodes_halt res err s :
  processNodes w h wf payload = Some (Return (Some res) err) ->
  s ∈ Steps res -> Status s = StatusFailed ->
  last (Steps res) = Some s /\
  exists st o, traversal w h wf payload = Some (st, o) /\
    Steps res = steps st /\ last (visited st) = Some (NodeID s).
Proof.
  intros Hrun Hin Hfailed.
  apply processNodes_traversal in Hrun as [[=]|[[=]|(_ & st & o & Htrav & Hrun)]].
  assert (Steps res = steps st) as Hsteps.
  { destruct o as [[e|]|]; simpl in Hrun; by inversion Hrun. }
  destruct (traverse_haltRule _ _ _ _ _ Htrav) as (added & marked & Ha & Hm & Hlast).
  simpl in Ha, Hm. rewrite Hsteps, Ha in Hin.
  destruct (Hlast s Hin Hfailed) as [Hl1 Hl2].
  split; [by rewrite Hsteps, Ha|]. exists st, o. by rewrite Hm.
Qed.

End WithoutFanOut.

(** ** The descent into the targets of a node *)

(** The loop of the code returns what descending in order returns. *)
Lemma forEachNext_descendsInOrder (call : string -> State -> option (State * Outcome))
    targets st st' o :
  forEachNext call targets st = Some (st', o) <-> descendsInOrder call targets st st' o.
Proof.
  split.
  - revert st. induction targets as [|target rest IH]; intros st; simpl.
    + intros [= <- <-]. constructor.
    + destruct (call target st) as [[st1 [[err|]|]]|] eqn:Hcall; [| | |discriminate].
      * intros [= <- <-]. by apply descends_error.
      * intros Hrest. eapply descends_next; [exact Hcall|]. by apply IH.
      * intros [= <- <-]. by apply descends_panic.
  - induction 1 as [st0|target rest st0 st1 st2 o0 Hcall _ IH
                    |target rest st0 st1 err Hcall|target rest st0 st1 Hcall]; simpl.
    + done.
    + by rewrite Hcall.
    + by rewrite Hcall.
    + by rewrite Hcall.
Qed.

(** Marks are appended: the list of a state a call starts in opens the
    list of the state it ends in. *)
Lemma traverse_visited_prefix w h wf payload fuel id st st' o :
  traverse w h wf payload fuel id st = Some (st', o) -> visited st `prefix_of` visited st'.
Proof.
  assert (forall id0 st0 node br, switchNode w h payload node (markVisited id0 st0) = br ->
            visited st0 `prefix_of` visited (branchState br)) as Hswitch.
  { intros id0 st0 node br <-. rewrite switchNode_visited. simpl. by apply prefix_app_r. }
  apply (traverse_rule w h wf payload (fun st st' _ => visited st `prefix_of` visited st')).
  - done.
  - intros st1 st2 st3 o0 H12 H23. by etrans.
  - intros id0 st0 _ _. simpl. by apply prefix_app_r.
  - intros id0 st0 node st1 _ _ Heq. apply (Hswitch _ _ _ _ Heq).
  - intros id0 st0 node st1 _ _ Heq. apply (Hswitch _ _ _ _ Heq).
  - intros id0 st0 node st1 _ _ Heq. apply (Hswitch _ _ _ _ Heq).
  - intros id0 st0 node st1 b _ _ Heq _. apply (Hswitch _ _ _ _ Heq).
  - intros id0 st0 node st1 b target st2 o0 _ _ Heq _ Hinner.
    etrans; [|exact Hinner]. apply (Hswitch _ _ _ _ Heq).
Qed.

Lemma forEachNext_visited_prefix w h wf payload fuel targets st st' o :
  forEachNext (traverse w h wf payload fuel) targets st = Some (st', o) ->
  visited st `prefix_of` visited st'.
Proof.
  apply (forEachNext_rule (fun st st' _ => visited st `prefix_of` visited st')).
  - done.
  - intros st1 st2 st3 o0 H12 H23. by etrans.
  - intros id0 st0 st1 o0. apply traverse_visited_prefix.
Qed.

(** A call on an id not yet marked marks it before any other. *)
Lemma traverse_marks_first w h wf payload fuel id st st' o :
  id ∉ visited st ->
  traverse w h wf payload fuel id st = Some (st', o) ->
  exists more, visited st' = (visited st ++ id :: more)%list.
Proof.
  intros Hnot. destruct fuel as [|fuel]; [done|]. simpl.
  rewrite bool_decide_eq_false_2 by done.
  assert (forall st1 : State, (visited st ++ [id])%list `prefix_of` visited st1 ->
            exists more, visited st1 = (visited st ++ id :: more)%list) as Hafter.
  { intros st1 [more Hmore]. exists more. rewrite Hmore. by rewrite <- app_assoc. }
  destruct (nodeMap wf !! id) as [node|]; [|intros [= <- <-]; by apply Hafter].
  pose proof (switchNode_visited w h payload node (markVisited id st)) as Hsame.
  destruct (switchNode w h payload node (markVisited id st)) as [st1|st1|st1 b|st1];
    simpl in Hsame.
  - intros [= <- <-]. apply Hafter. by rewrite Hsame.
  - intros [= <- <-]. apply Hafter. by rewrite Hsame.
  - destruct (routeEdge (ID node) b (Edges wf)).
    + intros Hrun. apply Hafter. rewrite <- Hsame. by apply traverse_visited_prefix in Hrun.
    + intros [= <- <-]. apply Hafter. by rewrite Hsame.
  - intros Hrun. apply Hafter. rewrite <- Hsame. by apply forEachNext_visited_prefix in Hrun.
Qed.

(** The loop passes over the targets already marked. *)
Lemma forEachNext_skip w h wf payload fuel skipped targets st r :
  (forall x, x ∈ skipped -> x ∈ visited st) ->
  forEachNext (traverse w h wf payload fuel) (skipped ++ targets) st = Some r ->
  forEachNext (traverse w h wf payload fuel) targets st = Some r.
Proof.
  induction skipped as [|x skipped IH]; intros Hin; simpl; [done|].
  destruct fuel as [|fuel]; [done|]. simpl.
  rewrite bool_decide_eq_true_2 by (apply Hin; left).
  apply IH. intros y Hy. apply Hin. by right.
Qed.

(** The first target of the loop not yet marked is the next id marked. *)
Lemma forEachNext_first w h wf payload fuel skipped target rest st st' o :
  (forall x, x ∈ skipped -> x ∈ visited st) ->
  target ∉ visited st ->
  forEachNext (traverse w h wf payload fuel) (skipped ++ target :: rest) st = Some (st', o) ->
  exists more, visited st' = (visited st ++ target :: more)%list.
Proof.
  intros Hskipped Hnot Hrun. apply forEachNext_skip in Hrun; [|done]. simpl in Hrun.
  destruct (traverse w h wf payload fuel target st) as [[st1 o1]|] eqn:Hcall; [|discriminate].
  destruct (traverse_marks_first _ _ _ _ _ _ _ _ _ Hnot Hcall) as [more Hmore].
  destruct o1 as [[err|]|].
  - inversion Hrun; subst. eauto.
  - apply forEachNext_visited_prefix in Hrun as [more' Hmore'].
    exists (more ++ more')%list. rewrite Hmore', Hmore. by rewrite <- app_assoc.
  - inversion Hrun; subst. eauto.
Qed.

(** ** The condition handler *)

Lemma SFleb_refl x : SFeqb x x = true -> SFleb x x = true.
Proof. unfold SFeqb, SFleb. by destruct (SFcompare x x) as [[]|]. Qed.

Lemma float_leb_refl (t : float) : PrimFloat.is_nan t = false -> PrimFloat.leb t t = true.
Proof.
  unfold PrimFloat.is_nan. intros Hnan. apply negb_false_iff in Hnan.
  rewrite FloatAxioms.leb_spec. apply SFleb_refl. by rewrite <- FloatAxioms.eqb_spec.
Qed.

Lemma float_eqb_refl (t : float) : PrimFloat.is_nan t = false -> PrimFloat.eqb t t = true.
Proof. unfold PrimFloat.is_nan. intros Hnan. by apply negb_false_iff in Hnan. Qed.

Lemma processConditionNode_float node payload ctx t :
  ctx !! TemperatureKey = Some (VFloat t) ->
  processConditionNode node payload ctx =
    let operator := Operator (PayloadCondition payload) in
    let threshold := Threshold (PayloadCondition payload) in
    if String.eqb operator "greater_than" then (PrimFloat.ltb threshold t, None)
    else if String.eqb operator "less_than" then (PrimFloat.ltb t threshold, None)
    else if String.eqb operator "equals" then (PrimFloat.eqb t threshold, None)
    else if String.eqb operator "greater_than_or_equal" then (PrimFloat.leb threshold t, None)
    else if String.eqb operator "less_than_or_equal" then (PrimFloat.leb t threshold, None)
    else (false, Some (Errorf ("unsupported operator: " ++ operator))).
Proof. intros Hctx. unfold processConditionNode. by rewrite Hctx. Qed.

Lemma processConditionNode_fails node payload ctx :
  snd (processConditionNode node payload ctx) <> None <->
  ctx !! TemperatureKey = None \/
  (exists v, ctx !! TemperatureKey = Some v /\ forall t, v <> VFloat t) \/
  Operator (PayloadCondition payload) ∉ recognizedOperators.
Proof.
  unfold processConditionNode, recognizedOperators.
  destruct (ctx !! TemperatureKey) as [v|] eqn:Hctx.
  2: { simpl. split; [auto|done]. }
  assert (forall op : string,
    op ∉ ["greater_than"; "less_than"; "equals"; "greater_than_or_equal"; "less_than_or_equal"]
    <-> (String.eqb op "greater_than" = false /\ String.eqb op "less_than" = false /\
         String.eqb op "equals" = false /\ String.eqb op "greater_than_or_equal" = false /\
         String.eqb op "less_than_or_equal" = false)) as Hop.
  { intros op. rewrite !not_elem_of_cons, !String.eqb_neq. split; [naive_solver|].
    intros (? & ? & ? & ? & ?). repeat split; try done. apply not_elem_of_nil. }
  destruct v as [| | |t| |]; simpl;
    try (split; [intros _; right; left; eexists; split; [done|]; intros t [=]|done]).
  rewrite Hop.
  destruct (String.eqb _ "greater_than") eqn:H1; simpl.
  { split; [done|]. intros [[=]|[(v & [= <-] & Hv)|(? & _)]]; [by destruct (Hv t)|done]. }
  destruct (String.eqb _ "less_than") eqn:H2; simpl.
  { split; [done|]. intros [[=]|[(v & [= <-] & Hv)|(? & ? & _)]]; [by destruct (Hv t)|done]. }
  destruct (String.eqb _ "equals") eqn:H3; simpl.
  { split; [done|]. intros [[=]|[(v & [= <-] & Hv)|(? & ? & ? & _)]]; [by destruct (Hv t)|done]. }
  destruct (String.eqb _ "greater_than_or_equal") eqn:H4; simpl.
  { split; [done|]. intros [[=]|[(v & [= <-] & Hv)|(? & ? & ? & ? & _)]]; [by destruct (Hv t)|done]. }
  destruct (String.eqb _ "less_than_or_equal") eqn:H5; simpl.
  { split; [done|]. intros [[=]|[(v & [= <-] & Hv)|(? & ? & ? & ? & ?)]]; [by destruct (Hv t)|done]. }
  split; [|done]. intros _. right. right. done.
Qed.

(** ** Validation of the workflow *)

Lemma processNodes_missing_start w h wf payload :
  (forall node, node ∈ Nodes wf -> ID node <> StartNodeID) ->
  processNodes w h wf payload = Some (Return None (Some ErrMissingStartNode)).
Proof.
  intros Hall. apply nodeMap_lookup_None in Hall. unfold processNodes. by rewrite Hall.
Qed.

Lemma processNodes_missing_end w h wf payload :
  (exists node, node ∈ Nodes wf /\ ID node = StartNodeID) ->
  (forall node, node ∈ Nodes wf -> ID node <> EndNodeID) ->
  processNodes w h wf payload = Some (Return None (Some ErrMissingEndNode)).
Proof.
  intros Hstart Hall. apply nodeMap_lookup_is_Some in Hstart as [node Hstart].
  apply nodeMap_lookup_None in Hall. unfold processNodes. by rewrite Hstart, Hall.
Qed.

(** ** Runs of the fixtures *)

Lemma formWorkflow_run :
  processNodes testWorld mockHandlers formWorkflow emptyPayload
  = Some (Return
      (Some {| ExecutedAt := "2025-01-01T00:00:00Z";
               ResultStatus := StatusCompleted;
               Steps := [stepOf (plainNode StartNodeID "start") StatusCompleted
                           {[ "duration" := VInt 0 ]};
                         stepOf (plainNode FormNodeID "form") StatusFailed
                           (failedOutput ErrMissingFormFieldName 0)] |})
      None).
Proof. reflexivity. Qed.

(** With fan-out, the nodes after a failed one in the list of an
    ancestor are still visited: here the end node after the failed form
    node. *)
Lemma fanOutWorkflow_run :
  processNodes testWorld mockHandlers fanOutWorkflow emptyPayload
  = Some (Return
      (Some {| ExecutedAt := "2025-01-01T00:00:00Z";
               ResultStatus := StatusCompleted;
               Steps := [stepOf (plainNode StartNodeID "start") StatusCompleted
                           {[ "duration" := VInt 0 ]};
                         stepOf (plainNode FormNodeID "form") StatusFailed
                           (failedOutput ErrMissingFormFieldName 0);
                         stepOf (plainNode EndNodeID "end") StatusCompleted
                           {[ "duration" := VInt 0 ]}] |})
      None).
Proof. reflexivity. Qed.

(** The workflow of the README, with both labelled edges leaving the
    condition node, has no fan-out. *)
Lemma routedWorkflow_withoutFanOut : withoutFanOut routedWorkflow.
Proof.
  intros id Hne. unfold outgoing, routedWorkflow, fullWorkflow. simpl.
  rewrite !filter_cons, filter_nil. simpl.
  repeat case_decide; subst; simpl; try lia; try discriminate; by destruct Hne.
Qed.

(** ** The tests of node_processor_test.go, on the embedding *)

(** TestProcessNodes, "happy path": six completed steps in the order
    start, form, weather-api, condition, email, end. *)
Example test_processNodes_happy_path :
  match processNodes testWorld mockHandlers fullWorkflow happyPayload with
  | Some (Return (Some res) None) =>
      ResultStatus res = StatusCompleted /\
      (fun s => (NodeID s, Status s)) <$> Steps res
      = [("start", "completed"); ("form", "completed"); ("weather-api", "completed");
         ("condition", "completed"); ("email", "completed"); ("end", "completed")]
  | _ => False
  end.
Proof. vm_compute. split; reflexivity. Qed.

(** The email draft of that run: both placeholders of the body are
    replaced. *)
Example test_processNodes_email_draft :
  match processNodes testWorld mockHandlers fullWorkflow happyPayload with
  | Some (Return (Some res) None) =>
      (Steps res !! 4%nat) ≫= (fun s => Output s !! "emailDraft")
      = Some (VMap {[ "to" := VStr "jane@example.com";
                      "from" := VStr "weather-alerts@example.com";
                      "subject" := VStr "Weather Alert";
                      "body" := VStr "Hello, the temperature in Melbourne is 21.0°C.";
                      "timestamp" := VStr "2025-01-01T00:00:00Z" ]})
  | _ => False
  end.
Proof. vm_compute. reflexivity. Qed.

(** With the initial handlers and no network, the weather step fails and
    the traversal goes no further down the chain. *)
Example test_processNodes_weather_unreachable :
  match processNodes testWorld (defaultHandlers testWorld) fullWorkflow happyPayload with
  | Some (Return (Some res) None) =>
      ResultStatus res = StatusCompleted /\
      (fun s => (NodeID s, Status s, Output s !! "error")) <$> Steps res
      = [("start", "completed", None); ("form", "completed", None);
         ("weather-api", "failed",
          Some (VStr "geocoding API request failed: dial tcp: no route to host"))]
  | _ => False
  end.
Proof. vm_compute. split; reflexivity. Qed.

(** TestProcessConditionNode, its fifteen cases. *)
Example test_processConditionNode :
  let at15 : gmap string any := {[ TemperatureKey := VFloat 15.5 ]} in
  let run operator threshold := processConditionNode checkNode (conditionPayload operator threshold) at15 in
  run "greater_than" 10%float = (true, None) /\
  run "greater_than" 20%float = (false, None) /\
  run "less_than" 20%float = (true, None) /\
  run "less_than" 10%float = (false, None) /\
  run "equals" 15.5%float = (true, None) /\
  run "equals" 10%float = (false, None) /\
  run "greater_than_or_equal" 15.5%float = (true, None) /\
  run "greater_than_or_equal" 10%float = (true, None) /\
  run "greater_than_or_equal" 20%float = (false, None) /\
  run "less_than_or_equal" 15.5%float = (true, None) /\
  run "less_than_or_equal" 20%float = (true, None) /\
  run "less_than_or_equal" 10%float = (false, None) /\
  processConditionNode checkNode emptyPayload ∅
    = (false, Some (Errorf "weather temp not in map")) /\
  processConditionNode checkNode emptyPayload {[ TemperatureKey := VStr "not a float" ]}
    = (false, Some (Errorf "weather temp is not a float64")) /\
  run "unsupported" 10%float = (false, Some (Errorf "unsupported operator: unsupported")).
Proof. vm_compute. repeat split; reflexivity. Qed.

(** [strings.ReplaceAll] on samples: occurrences do not overlap. *)
Example test_ReplaceAll :
  ReplaceAll "greater_than_or_equal" "_" " " = "greater than or equal" /\
  ReplaceAll "{{city}}, {{city}}!" "{{city}}" "Oslo" = "Oslo, Oslo!" /\
  ReplaceAll "aaa" "aa" "b" = "ba" /\
  ReplaceAll "abc" "x" "y" = "abc".
Proof. vm_compute. repeat split; reflexivity. Qed.

(** * The properties of the specification, C1 to C10 *)

(** C1, counterexample to the claim as stated: on the chain start, form,
    end with an empty payload the form handler fails with "name is
    required", a failed step is recorded for it, and processNodes
    returns no error and the overall status "completed". *)
Lemma C1_counterexample :
  handlerCall mockHandlers emptyPayload (plainNode FormNodeID "form") ∅
    = (∅, Some ErrMissingFormFieldName) /\
  ~ failedStepFailsRun testWorld mockHandlers formWorkflow emptyPayload.
Proof.
  split; [reflexivity|].
  intros Hclaim. specialize (Hclaim _ _ formWorkflow_run). simpl in Hclaim.
  assert (StatusCompleted = StatusFailed) as Heq; [|discriminate Heq].
  apply Hclaim. eexists. split; [right; left|reflexivity].
Qed.

(** C1 (as amended): when the handler called for a node not yet visited
    returns an error, traverse records a failed StepResult for that node,
    whose output holds the error message and the elapsed time, and
    returns nil without following the edges that leave the node; on a
    workflow in which no node other than the condition node has more
    than one outgoing edge (the condition node may have an edge for
    either outcome, as in the workflow of the README), the failed step
    is then the last step of the result and its node the last one
    visited. processNodes always returns, and does not return the
    handler's error: a result carries the status "failed", together
    with an error, only when traverse met an id missing from the node
    map or a condition node without a matching edge, and the status
    "completed" with no error otherwise, failed steps or not. *)
Theorem C1_handler_failure :
  forall w h wf payload,
    (forall fuel id st node ctx err,
       id ∉ visited st ->
       nodeMap wf !! id = Some node ->
       handlerCall h payload node (contextData st) = (ctx, Some err) ->
       traverse w h wf payload (S fuel) id st
       = Some (appendStep (setContext ctx (markVisited id st)) node StatusFailed
                 {[ "error" := VStr (Error err); "duration" := VInt (duration w st) ]},
               Returned None)) /\
    (withoutFanOut wf ->
     forall res e s,
       processNodes w h wf payload = Some (Return (Some res) e) ->
       s ∈ Steps res -> Status s = StatusFailed ->
       last (Steps res) = Some s /\
       exists st o, traversal w h wf payload = Some (st, o) /\
         Steps res = steps st /\ last (visited st) = Some (NodeID s)) /\
    (exists run, processNodes w h wf payload = Some run) /\
    (forall res e,
       processNodes w h wf payload = Some (Return (Some res) e) ->
       (e = None /\ ResultStatus res = StatusCompleted) \/
       (ResultStatus res = StatusFailed /\
        exists id', e = Some (errNodeNotFound id') \/ e = Some (errNoMatchingEdge id'))).
Proof.
  intros w h wf payload. split; [|split; [|split]].
  - intros fuel id st node ctx err Hnot Hnode Hcall. by apply traverse_handler_failure.
  - intros Hsingle res e s. by apply processNodes_halt.
  - apply processNodes_total.
  - intros res e Hrun.
    apply processNodes_traversal in Hrun as [[=]|[[=]|(_ & st' & o & Htrav & Hrun)]].
    destruct o as [[err'|]|]; simpl in Hrun; inversion Hrun; subst; simpl.
    + right. split; [done|].
      destruct (traverse_error _ _ _ _ _ _ _ _ _ Htrav err' eq_refl) as [id' [-> | ->]]; eauto.
    + by left.
Qed.

Lemma C1_handler_failure_witness :
  traverse testWorld mockHandlers formWorkflow emptyPayload 1 FormNodeID initialState
  = Some (appendStep (setContext ∅ (markVisited FormNodeID initialState))
            (plainNode FormNodeID "form") StatusFailed
            {[ "error" := VStr "name is required"; "duration" := VInt 0 ]},
          Returned None) /\
  exists res,
    processNodes testWorld (defaultHandlers testWorld) routedWorkflow happyPayload
    = Some (Return (Some res) None) /\
    (NodeID <$> Steps res) = [StartNodeID; FormNodeID; WeatherAPINodeID] /\
    last (Steps res)
    = Some (stepOf (plainNode WeatherAPINodeID "weather-api") StatusFailed
              (failedOutput
                 (Errorf "geocoding API request failed: dial tcp: no route to host") 0)) /\
    exists st o,
      traversal testWorld (defaultHandlers testWorld) routedWorkflow happyPayload
      = Some (st, o) /\
      Steps res = steps st /\ last (visited st) = Some WeatherAPINodeID.
Proof.
  split.
  - apply (proj1 (C1_handler_failure testWorld mockHandlers formWorkflow emptyPayload)
             0 FormNodeID initialState (plainNode FormNodeID "form") ∅ ErrMissingFormFieldName).
    + vm_compute. intros Hin. inversion Hin.
    + reflexivity.
    + reflexivity.
  - eexists. split; [reflexivity|]. split; [reflexivity|].
    apply (proj1 (proj2 (C1_handler_failure testWorld (defaultHandlers testWorld)
                           routedWorkflow happyPayload))
             routedWorkflow_withoutFanOut _ None
             (stepOf (plainNode WeatherAPINodeID "weather-api") StatusFailed
                (failedOutput
                   (Errorf "geocoding API request failed: dial tcp: no route to host") 0))).
    + reflexivity.
    + right. right. left.
    + reflexivity.
Defined.

(** C2, counterexample to the claim as stated: the node of id "check"
    and type "form" is not dispatched as a form node: no case is
    selected for it, and on the chain start, check, end with an empty
    payload (on which the form handler fails) the run records the start
    and end steps only. *)
Lemma C2_counterexample :
  ~ dispatchByType checkNode /\
  switchCase (NodeType checkNode) = Some KForm /\
  selectedCase checkNode = None /\
  processNodes testWorld mockHandlers typedWorkflow emptyPayload
  = Some (Return
      (Some {| ExecutedAt := "2025-01-01T00:00:00Z";
               ResultStatus := StatusCompleted;
               Steps := [stepOf (plainNode StartNodeID "start") StatusCompleted
                           {[ "duration" := VInt 0 ]};
                         stepOf (plainNode EndNodeID "end") StatusCompleted
                           {[ "duration" := VInt 0 ]}] |})
      None).
Proof.
  split; [|split; [|split]]; try reflexivity.
  unfold dispatchByType. vm_compute. discriminate.
Qed.

(** C2 (as amended): the handler is selected by the id of the node: the
    case is that of [ID node] whatever the type, and replacing the type
    fields of the nodes of a workflow changes nothing in what
    processNodes does but the type copied into each StepResult
    (handlers that do not read the type field assumed, as the two
    initial ones). *)
Theorem C2_dispatch_by_id :
  forall w h wf payload newType,
    typeBlind h ->
    (forall node, selectedCase (retypeNode newType node) = switchCase (ID node)) /\
    processNodes w h (retypeWorkflow newType wf) payload
    = retypeRun newType <$> processNodes w h wf payload.
Proof.
  intros w h wf payload newType Hblind. split; [done|].
  by apply processNodes_retype.
Qed.

Lemma C2_dispatch_by_id_witness :
  processNodes testWorld (defaultHandlers testWorld)
    (retypeWorkflow (fun _ => "form") formWorkflow) emptyPayload
  = retypeRun (fun _ => "form")
      <$> processNodes testWorld (defaultHandlers testWorld) formWorkflow emptyPayload.
Proof.
  apply (C2_dispatch_by_id testWorld (defaultHandlers testWorld) formWorkflow emptyPayload
           (fun _ => "form")).
  intros newType node payload. split; reflexivity.
Defined.



(** C4: condition evaluation depends on the operator, the threshold and
    the context temperature only; on a float temperature the five
    operators are the IEEE 754 comparisons [temperature > threshold],
    [<], [==], [>=], [<=] (those of the specification of binary64), the
    last three true when a non-NaN temperature equals the threshold; the
    four sample evaluations give true, false, true, false; and the
    handler fails exactly when the temperature is absent from the
    context, present but not a float64, or the operator is none of the
    five names. *)
Theorem C4_condition_evaluation :
  (forall node node' payload payload' ctx ctx',
     PayloadCondition payload = PayloadCondition payload' ->
     ctx !! TemperatureKey = ctx' !! TemperatureKey ->
     processConditionNode node payload ctx = processConditionNode node' payload' ctx') /\
  (forall node ctx t threshold,
     ctx !! TemperatureKey = Some (VFloat t) ->
     processConditionNode node (conditionPayload "greater_than" threshold) ctx
       = (SFltb (Prim2SF threshold) (Prim2SF t), None) /\
     processConditionNode node (conditionPayload "less_than" threshold) ctx
       = (SFltb (Prim2SF t) (Prim2SF threshold), None) /\
     processConditionNode node (conditionPayload "equals" threshold) ctx
       = (SFeqb (Prim2SF t) (Prim2SF threshold), None) /\
     processConditionNode node (conditionPayload "greater_than_or_equal" threshold) ctx
       = (SFleb (Prim2SF threshold) (Prim2SF t), None) /\
     processConditionNode node (conditionPayload "less_than_or_equal" threshold) ctx
       = (SFleb (Prim2SF t) (Prim2SF threshold), None)) /\
  (forall node ctx t,
     ctx !! TemperatureKey = Some (VFloat t) -> PrimFloat.is_nan t = false ->
     processConditionNode node (conditionPayload "equals" t) ctx = (true, None) /\
     processConditionNode node (conditionPayload "greater_than_or_equal" t) ctx = (true, None) /\
     processConditionNode node (conditionPayload "less_than_or_equal" t) ctx = (true, None)) /\
  (forall node,
     processConditionNode node (conditionPayload "equals" 21.0)
       {[ TemperatureKey := VFloat 21.0 ]} = (true, None) /\
     processConditionNode node (conditionPayload "greater_than" 20)
       {[ TemperatureKey := VFloat 15.5 ]} = (false, None) /\
     processConditionNode node (conditionPayload "greater_than_or_equal" 15.5)
       {[ TemperatureKey := VFloat 15.5 ]} = (true, None) /\
     processConditionNode node (conditionPayload "less_than" 10)
       {[ TemperatureKey := VFloat 15.5 ]} = (false, None)) /\
  (forall node payload ctx,
     snd (processConditionNode node payload ctx) <> None <->
     ctx !! TemperatureKey = None \/
     (exists v, ctx !! TemperatureKey = Some v /\ forall t, v <> VFloat t) \/
     Operator (PayloadCondition payload) ∉ recognizedOperators).
Proof.
  split; [|split; [|split; [|split]]].
  - intros node node' payload payload' ctx ctx' Hcond Hctx.
    unfold processConditionNode. by rewrite Hcond, Hctx.
  - intros node ctx t threshold Hctx.
    rewrite !(processConditionNode_float _ _ _ _ Hctx). simpl.
    by rewrite !FloatAxioms.ltb_spec, !FloatAxioms.leb_spec, !FloatAxioms.eqb_spec.
  - intros node ctx t Hctx Hnan.
    rewrite !(processConditionNode_float _ _ _ _ Hctx). simpl.
    by rewrite float_eqb_refl, float_leb_refl.
  - intros node. repeat split; vm_compute; reflexivity.
  - apply processConditionNode_fails.
Qed.

Lemma C4_condition_evaluation_witness :
  processConditionNode checkNode (conditionPayload "less_than_or_equal" 15.5)
    {[ TemperatureKey := VFloat 15.5 ]} = (true, None).
Proof.
  apply (proj1 (proj2 (proj2 C4_condition_evaluation)) checkNode
           {[ TemperatureKey := VFloat 15.5 ]} 15.5%float).
  - reflexivity.
  - vm_compute. reflexivity.
Defined.

(** C5 (as amended): a workflow with no node of id "start" makes
    processNodes return a nil result and ErrMissingStartNode; a workflow
    that has such a node but none of id "end" makes it return a nil
    result and ErrMissingEndNode; both whatever the handlers and the
    world are, none of which is consulted. *)
Theorem C5_missing_start_or_end :
  forall w h wf payload,
    ((forall node, node ∈ Nodes wf -> ID node <> StartNodeID) ->
     processNodes w h wf payload = Some (Return None (Some ErrMissingStartNode))) /\
    ((exists node, node ∈ Nodes wf /\ ID node = StartNodeID) ->
     (forall node, node ∈ Nodes wf -> ID node <> EndNodeID) ->
     processNodes w h wf payload = Some (Return None (Some ErrMissingEndNode))).
Proof.
  intros w h wf payload. split.
  - apply processNodes_missing_start.
  - apply processNodes_missing_end.
Qed.

Lemma C5_missing_start_or_end_witness :
  processNodes testWorld mockHandlers missingStartWorkflow emptyPayload
    = Some (Return None (Some ErrMissingStartNode)) /\
  processNodes testWorld mockHandlers missingEndWorkflow emptyPayload
    = Some (Return None (Some ErrMissingEndNode)).
Proof.
  split.
  - apply (proj1 (C5_missing_start_or_end testWorld mockHandlers missingStartWorkflow emptyPayload)).
    intros node Hin. apply list_elem_of_singleton in Hin as ->. vm_compute. discriminate.
  - apply (proj2 (C5_missing_start_or_end testWorld mockHandlers missingEndWorkflow emptyPayload)).
    + exists (plainNode StartNodeID "start"). split; [left|reflexivity].
    + intros node Hin. apply list_elem_of_singleton in Hin as ->. vm_compute. discriminate.
Defined.

(** C5, counterexample to the claim as stated: the workflow without any
    node has no node of id "end", and processNodes returns
    ErrMissingStartNode, not ErrMissingEndNode. *)
Lemma C5_counterexample :
  (forall node, node ∈ Nodes emptyWorkflow -> ID node <> EndNodeID) /\
  processNodes testWorld mockHandlers emptyWorkflow emptyPayload
    = Some (Return None (Some ErrMissingStartNode)) /\
  processNodes testWorld mockHandlers emptyWorkflow emptyPayload
    <> Some (Return None (Some ErrMissingEndNode)).
Proof.
  split; [|split].
  - intros node Hin. inversion Hin.
  - reflexivity.
  - vm_compute. discriminate.
Qed.

(** C6: processFormNode returns no error exactly when name, email and
    city are all non-empty; otherwise it returns one of three named
    errors, that of the first empty field in the order name, email,
    city, so ErrMissingFormFieldName, ErrMissingFormFieldEmail or
    ErrMissingFormFieldCity when that field alone is empty, and the
    field an error names is always empty; the three errors and their
    messages are pairwise distinct. *)
Theorem C6_form_validation :
  forall node payload,
    let name := Name (PayloadFormData payload) in
    let email := Email (PayloadFormData payload) in
    let city := City (PayloadFormData payload) in
    (processFormNode node payload = None <-> name <> "" /\ email <> "" /\ city <> "") /\
    (name = "" -> processFormNode node payload = Some ErrMissingFormFieldName) /\
    (name <> "" -> email = "" ->
       processFormNode node payload = Some ErrMissingFormFieldEmail) /\
    (name <> "" -> email <> "" -> city = "" ->
       processFormNode node payload = Some ErrMissingFormFieldCity) /\
    (forall err, processFormNode node payload = Some err ->
       (err = ErrMissingFormFieldName /\ name = "") \/
       (err = ErrMissingFormFieldEmail /\ email = "") \/
       (err = ErrMissingFormFieldCity /\ city = "")) /\
    ErrMissingFormFieldName <> ErrMissingFormFieldEmail /\
    ErrMissingFormFieldName <> ErrMissingFormFieldCity /\
    ErrMissingFormFieldEmail <> ErrMissingFormFieldCity /\
    Error ErrMissingFormFieldName <> Error ErrMissingFormFieldEmail /\
    Error ErrMissingFormFieldName <> Error ErrMissingFormFieldCity /\
    Error ErrMissingFormFieldEmail <> Error ErrMissingFormFieldCity.
Proof.
  intros node payload. unfold processFormNode. simpl.
  destruct (String.eqb_spec (Name (PayloadFormData payload)) "") as [Hn|Hn];
    [|destruct (String.eqb_spec (Email (PayloadFormData payload)) "") as [He|He];
      [|destruct (String.eqb_spec (City (PayloadFormData payload)) "") as [Hc|Hc]]];
    repeat split; try done; naive_solver.
Qed.

Lemma C6_form_validation_witness :
  processFormNode (plainNode FormNodeID "form") (formPayload "Alice" "alice@example.com" "Sydney")
    = None /\
  processFormNode (plainNode FormNodeID "form") (formPayload "" "alice@example.com" "Sydney")
    = Some ErrMissingFormFieldName /\
  processFormNode (plainNode FormNodeID "form") (formPayload "Alice" "" "Sydney")
    = Some ErrMissingFormFieldEmail /\
  processFormNode (plainNode FormNodeID "form") (formPayload "Alice" "alice@example.com" "")
    = Some ErrMissingFormFieldCity.
Proof.
  split; [|split; [|split]].
  - apply (C6_form_validation (plainNode FormNodeID "form")
             (formPayload "Alice" "alice@example.com" "Sydney")).
    repeat split; discriminate.
  - apply (C6_form_validation (plainNode FormNodeID "form")
             (formPayload "" "alice@example.com" "Sydney")). reflexivity.
  - apply (C6_form_validation (plainNode FormNodeID "form")
             (formPayload "Alice" "" "Sydney")); [discriminate|reflexivity].
  - apply (C6_form_validation (plainNode FormNodeID "form")
             (formPayload "Alice" "alice@example.com" "")); [discriminate..|reflexivity].
Defined.

(** C7: processNodes always returns, and in every result it returns the
    steps carry pairwise distinct node ids, their node ids follow the
    order in which the traversal marked the ids visited (each id marked
    once), and every step, which is completed or failed, has an integer
    "duration" entry in its output. *)
Theorem C7_steps_invariant :
  forall w h wf payload,
    exists run, processNodes w h wf payload = Some run /\
      forall res err, run = Return (Some res) err ->
        NoDup (NodeID <$> Steps res) /\
        (exists st o,
           traversal w h wf payload = Some (st, o) /\ Steps res = steps st /\
           NoDup (visited st) /\ sublist (NodeID <$> Steps res) (visited st)) /\
        (forall s, s ∈ Steps res ->
           (Status s = StatusCompleted \/ Status s = StatusFailed) /\
           exists d, Output s !! "duration" = Some (VInt d)).
Proof.
  intros w h wf payload. destruct (processNodes_total w h wf payload) as [run Hrun].
  exists run. split; [done|]. intros res err ->.
  apply processNodes_traversal in Hrun as [[=]|[[=]|(_ & st & o & Htrav & Hrun)]].
  pose proof (traverse_wellFormed _ _ _ _ _ _ _ _ _ Htrav (wellFormed_initial))
    as (Hnodup & Hsub & Hstat & Hdur & _).
  assert (Steps res = steps st) as ->.
  { destruct o as [[e|]|]; simpl in Hrun; by inversion Hrun. }
  split; [by eapply sublist_NoDup|]. split; [eauto 10|].
  intros s Hin. split.
  - by apply (proj1 (Forall_forall _ _) Hstat).
  - by apply (proj1 (Forall_forall _ _) Hdur).
Qed.

Lemma C7_steps_invariant_witness :
  match processNodes testWorld mockHandlers fullWorkflow happyPayload with
  | Some (Return (Some res) _) =>
      NoDup (NodeID <$> Steps res) /\
      forall s, s ∈ Steps res -> exists d, Output s !! "duration" = Some (VInt d)
  | _ => False
  end.
Proof.
  destruct (C7_steps_invariant testWorld mockHandlers fullWorkflow happyPayload)
    as (run & Hrun & Hall).
  rewrite Hrun. destruct run as [[res|] err|]; try (vm_compute in Hrun; discriminate Hrun).
  destruct (Hall res err eq_refl) as (Hnodup & _ & Hdur).
  split; [exact Hnodup|]. intros s Hin. apply (Hdur s Hin).
Defined.

(** C8: for every payload (and whatever the handlers and the clock), a
    workflow of exactly one node of id "start" and one of id "end", in
    either order, with one edge from start to end, makes processNodes
    return no error and a result of status "completed" with exactly two
    steps, the start node's then the end node's, both "completed". *)
Theorem C8_minimal_workflow :
  forall w h payload wid nodes startNode endNode edge,
    ID startNode = StartNodeID -> ID endNode = EndNodeID ->
    Source edge = StartNodeID -> Target edge = EndNodeID ->
    nodes = [startNode; endNode] \/ nodes = [endNode; startNode] ->
    processNodes w h {| WorkflowID := wid; Nodes := nodes; Edges := [edge] |} payload
    = Some (Return
        (Some {| ExecutedAt := timestamp w 2;
                 ResultStatus := StatusCompleted;
                 Steps := [stepOf startNode StatusCompleted {[ "duration" := VInt (elapsedMs w 0) ]};
                           stepOf endNode StatusCompleted {[ "duration" := VInt (elapsedMs w 1) ]}] |})
        None).
Proof.
  intros w h payload wid nodes [sid stype sdata] [eid etype edata] [src tgt lbl].
  simpl. intros -> -> -> -> [->| ->]; reflexivity.
Qed.

Lemma C8_minimal_workflow_witness :
  processNodes testWorld mockHandlers minimalWorkflow emptyPayload
  = Some (Return
      (Some {| ExecutedAt := "2025-01-01T00:00:00Z";
               ResultStatus := "completed";
               Steps := [stepOf (plainNode StartNodeID "start") "completed" {[ "duration" := VInt 0 ]};
                         stepOf (plainNode EndNodeID "end") "completed" {[ "duration" := VInt 0 ]}] |})
      None).
Proof.
  apply (C8_minimal_workflow testWorld mockHandlers emptyPayload "minimal"
           [plainNode StartNodeID "start"; plainNode EndNodeID "end"]
           (plainNode StartNodeID "start") (plainNode EndNodeID "end")
           (plainEdge StartNodeID EndNodeID "")); try reflexivity.
  left. reflexivity.
Defined.

(** C9: for a node in the node map whose id is none of the six ids of
    the switch, a call of traverse on it (not yet visited) runs no
    handler, appends no step under its id and makes no error of it. The
    call returns, given fuel for the depth of the workflow, and what it
    returns is what descending into the targets of its outgoing edges
    returns, in the order the edges are declared and from the state in
    which the node has just been marked: traverse is called on each
    target in turn, until a call returns an error or panics. So the
    first of these targets not visited before is the id marked right
    after the node's own, and when the call returns nil every target
    has been visited. No step of any result of processNodes carries an
    id outside the six. *)
Theorem C9_pass_through :
  forall w h wf payload fuel id st node,
    id ∉ visited st ->
    nodeMap wf !! id = Some node ->
    (forall kind, id <> caseID kind) ->
    switchNode w h payload node (markVisited id st) = Fallthrough (markVisited id st) /\
    handlerCall h payload node (contextData st) = (contextData st, None) /\
    (forall st' o,
       traverse w h wf payload (S fuel) id st = Some (st', o) <->
       descendsInOrder (traverse w h wf payload fuel)
         (Target <$> filter (fun edge => Source edge = id) (Edges wf))
         (markVisited id st) st' o) /\
    (id ∈ callable wf -> length (Edges wf) < fuel ->
     exists st' o, traverse w h wf payload (S fuel) id st = Some (st', o)) /\
    (forall st' o skipped target rest,
       traverse w h wf payload (S fuel) id st = Some (st', o) ->
       Target <$> filter (fun edge => Source edge = id) (Edges wf)
       = (skipped ++ target :: rest)%list ->
       (forall x, x ∈ skipped -> x ∈ visited st \/ x = id) ->
       target ∉ visited st -> target <> id ->
       exists more, visited st' = (visited st ++ id :: target :: more)%list) /\
    (forall st',
       traverse w h wf payload (S fuel) id st = Some (st', Returned None) ->
       forall edge, edge ∈ Edges wf -> Source edge = id -> Target edge ∈ visited st') /\
    (forall st' o,
       traverse w h wf payload (S fuel) id st = Some (st', o) ->
       wellFormed st ->
       forall s, s ∈ steps st' -> NodeID s <> id) /\
    (forall res err s,
       processNodes w h wf payload = Some (Return (Some res) err) ->
       s ∈ Steps res -> exists kind, NodeID s = caseID kind).
Proof.
  intros w h wf payload fuel id st node Hnot Hnode Hnone.
  pose proof (traverse_pass_through w h wf payload fuel id st node Hnot Hnode Hnone) as Heq.
  unfold outgoing in Heq.
  assert (selectedCase node = None) as Hcase.
  { unfold selectedCase. rewrite (nodeMap_lookup_ID _ _ _ Hnode). by apply switchCase_None. }
  split; [|split; [|split; [|split; [|split; [|split; [|split]]]]]].
  - unfold switchNode. by rewrite Hcase.
  - unfold handlerCall. by rewrite Hcase.
  - intros st' o. rewrite Heq. apply forEachNext_descendsInOrder.
  - intros Hcallable Hfuel.
    destruct (traverse_total w h wf payload (S fuel) id st Hcallable) as (st' & o & Hrun & _);
      [|eauto].
    pose proof (callable_size wf) as Hsize.
    assert (size (callable wf ∖ visitedSet st) <= size (callable wf))
      by (apply subseteq_size; set_solver).
    lia.
  - intros st' o skipped target rest Hrun Htargets Hskipped Hnew Hne.
    rewrite Heq, Htargets in Hrun.
    apply forEachNext_first in Hrun as [more Hmore].
    + exists more. rewrite Hmore. simpl. by rewrite <- app_assoc.
    + intros x Hx. simpl. apply elem_of_app.
      destruct (Hskipped x Hx) as [Hin| ->]; [by left|right; left].
    + simpl. intros Hin. apply elem_of_app in Hin as [Hin|Hin]; [done|].
      by apply list_elem_of_singleton in Hin.
  - intros st' Hrun edge Hin Hsrc. rewrite Heq in Hrun.
    apply (forEachNext_marks_all _ _ _ _ _ _ _ _ Hrun).
    apply list_elem_of_fmap. exists edge. split; [done|].
    by apply list_elem_of_filter.
  - intros st' o Hrun Hwf s Hin Hid.
    pose proof (traverse_wellFormed _ _ _ _ _ _ _ _ _ Hrun Hwf) as (_ & _ & _ & _ & Hcases).
    destruct (proj1 (Forall_forall _ _) Hcases s Hin) as [kind Hkind].
    apply switchCase_Some in Hkind. apply (Hnone kind). by rewrite <- Hid.
  - intros res err s Hrun Hin.
    apply processNodes_traversal in Hrun as [[=]|[[=]|(_ & st' & o & Htrav & Hrun)]].
    pose proof (traverse_wellFormed _ _ _ _ _ _ _ _ _ Htrav (wellFormed_initial))
      as (_ & _ & _ & _ & Hcases).
    assert (Steps res = steps st') as Hsteps.
    { destruct o as [[e|]|]; simpl in Hrun; by inversion Hrun. }
    rewrite Hsteps in Hin.
    destruct (proj1 (Forall_forall _ _) Hcases s Hin) as [kind Hkind].
    exists kind. by apply switchCase_Some.
Qed.

Lemma C9_pass_through_witness :
  exists st' o,
    traverse testWorld mockHandlers hubWorkflow emptyPayload 4 "hub" initialState
    = Some (st', o) /\
    o = Returned None /\
    visited st' = ["hub"; FormNodeID; EndNodeID] /\
    (NodeID <$> steps st') = [FormNodeID; EndNodeID] /\
    descendsInOrder (traverse testWorld mockHandlers hubWorkflow emptyPayload 3)
      [FormNodeID; EndNodeID] (markVisited "hub" initialState) st' o.
Proof.
  eexists _, _. split; [reflexivity|]. split; [reflexivity|].
  split; [reflexivity|]. split; [reflexivity|].
  refine (proj1 (proj1 (proj2 (proj2
            (C9_pass_through testWorld mockHandlers hubWorkflow emptyPayload 3 "hub"
               initialState (plainNode "hub" "hub") _ eq_refl _))) _ _) eq_refl).
  - intros Hin. inversion Hin.
  - intros []; discriminate.
Defined.

(** C10: when the traversal of a validated workflow marks the email node
    visited, the node has no EmailTemplate and its handler returns nil,
    processNodes panics: it returns neither a result nor an error;
    conversely, when the email node of the node map (if any) carries an
    EmailTemplate, processNodes returns and does not panic. *)
Theorem C10_email_template :
  forall w h wf payload,
    (forall st o node,
       validated wf ->
       traversal w h wf payload = Some (st, o) ->
       EmailNodeID ∈ visited st ->
       nodeMap wf !! EmailNodeID = Some node ->
       MetaEmailTemplate (Metadata (Data node)) = None ->
       processEmailNodeFn h node payload = None ->
       processNodes w h wf payload = Some Panic) /\
    ((forall node, nodeMap wf !! EmailNodeID = Some node ->
        is_Some (MetaEmailTemplate (Metadata (Data node)))) ->
     exists result err, processNodes w h wf payload = Some (Return result err)).
Proof.
  intros w h wf payload. split.
  - intros st o node Hvalid Hrun Hin Hnode Htemplate Hemail.
    destruct (traverse_panicRule _ _ _ _ _ _ _ _ _ Hrun) as [_ Hpanic].
    rewrite (processNodes_validated _ _ _ _ _ _ Hvalid Hrun).
    rewrite (Hpanic node); [done|done| |done].
    simpl. intros Hnil. inversion Hnil.
  - intros Hall. destruct (processNodes_total w h wf payload) as [run Hrun].
    destruct run as [result err|]; [eauto|]. exfalso.
    apply processNodes_traversal in Hrun as [[=]|[[=]|(_ & st & o & Htrav & Hrun)]].
    destruct (traverse_panicRule _ _ _ _ _ _ _ _ _ Htrav) as [Hpanic _].
    destruct o as [[e|]|]; simpl in Hrun; try discriminate.
    destruct (Hpanic eq_refl) as [_ (node & Hnode & Htemplate & _)].
    destruct (Hall node Hnode) as [template Hsome]. congruence.
Qed.

Lemma C10_email_template_witness :
  processNodes testWorld (defaultHandlers testWorld) noTemplateWorkflow emptyPayload
  = Some Panic.
Proof.
  apply (proj1 (C10_email_template testWorld (defaultHandlers testWorld)
                  noTemplateWorkflow emptyPayload)
           noTemplateState Panicked (plainNode EmailNodeID "email")).
  - split; eexists; reflexivity.
  - reflexivity.
  - right. left.
  - reflexivity.
  - reflexivity.
  - reflexivity.
Defined.

(** * Further lemmas on the traversal and the handlers *)

(** ** A proof rule for calls on ids of a known kind *)

Section RuleAt.
Context (w : World) (h : Handlers).
Context (wf : WorkflowDefinition) (payload : ExecutePayload).

(** [Q id]: [traverse] may be called with [id]. *)
Variable Q : string -> Prop.
Variable P : State -> State -> Outcome -> Prop.

Hypothesis Q_edge : forall edge, edge ∈ Edges wf -> Q (Source edge) -> Q (Target edge).
Hypothesis P_refl : forall st, P st st (Returned None).
Hypothesis P_trans : forall st1 st2 st3 o,
  P st1 st2 (Returned None) -> P st2 st3 o -> P st1 st3 o.
Hypothesis P_missing : forall id st,
  Q id -> id ∉ visited st -> nodeMap wf !! id = None ->
  P st (markVisited id st) (Returned (Some (errNodeNotFound id))).
Hypothesis P_halt : forall id st node st',
  Q id -> id ∉ visited st -> nodeMap wf !! id = Some node ->
  switchNode w h payload node (markVisited id st) = Halt st' ->
  P st st' (Returned None).
Hypothesis P_fault : forall id st node st',
  Q id -> id ∉ visited st -> nodeMap wf !! id = Some node ->
  switchNode w h payload node (markVisited id st) = Fault st' ->
  P st st' Panicked.
Hypothesis P_next : forall id st node st',
  Q id -> id ∉ visited st -> nodeMap wf !! id = Some node ->
  switchNode w h payload node (markVisited id st) = Fallthrough st' ->
  P st st' (Returned None).
Hypothesis P_route_none : forall id st node st' b,
  Q id -> id ∉ visited st -> nodeMap wf !! id = Some node ->
  switchNode w h payload node (markVisited id st) = Route st' b ->
  routeEdge (ID node) b (Edges wf) = None ->
  P st st' (Returned (Some (errNoMatchingEdge (ID node)))).
Hypothesis P_route_some : forall id st node st' b target st'' o,
  Q id -> id ∉ visited st -> nodeMap wf !! id = Some node ->
  switchNode w h payload node (markVisited id st) = Route st' b ->
  routeEdge (ID node) b (Edges wf) = Some target ->
  P st' st'' o -> P st st'' o.

Lemma forEachNext_rule_at (call : string -> State -> option (State * Outcome)) :
  (forall id st st' o, Q id -> call id st = Some (st', o) -> P st st' o) ->
  forall targets st st' o,
    (forall target, target ∈ targets -> Q target) ->
    forEachNext call targets st = Some (st', o) -> P st st' o.
Proof.
  intros Hcall targets. induction targets as [|next rest IH]; intros st st' o HQ; simpl.
  - intros [= <- <-]. apply P_refl.
  - destruct (call next st) as [[st1 o1]|] eqn:Hnext; [|discriminate].
    apply Hcall in Hnext; [|apply HQ; left]. destruct o1 as [[err|]|].
    + by intros [= <- <-].
    + intros Hrest. eapply P_trans; [exact Hnext|]. apply IH; [|done].
      intros target Hin. apply HQ. by right.
    + by intros [= <- <-].
Qed.

(** As [traverse_rule], for calls on ids of a kind that the edges of the
    workflow do not lead out of. *)
Lemma traverse_rule_at fuel id st st' o :
  Q id -> traverse w h wf payload fuel id st = Some (st', o) -> P st st' o.
Proof.
  revert id st st' o. induction fuel as [|fuel IH]; intros id st st' o HQ; [done|]. simpl.
  destruct (bool_decide (id ∈ visited st)) eqn:Hvis.
  { intros [= <- <-]. apply P_refl. }
  apply bool_decide_eq_false in Hvis.
  destruct (nodeMap wf !! id) as [node|] eqn:Hnode.
  2: { intros [= <- <-]. by apply P_missing. }
  pose proof (nodeMap_lookup_ID _ _ _ Hnode) as Hid.
  destruct (switchNode w h payload node (markVisited id st)) as [st1|st1|st1 b|st1] eqn:Hswitch.
  - intros [= <- <-]. by eapply P_halt.
  - intros [= <- <-]. by eapply P_fault.
  - destruct (routeEdge (ID node) b (Edges wf)) as [target|] eqn:Hroute.
    + intros Hrun. eapply P_route_some; eauto. apply (IH target); [|done].
      destruct (routeEdge_Some _ _ _ _ Hroute) as (edge & Hin & Hsrc & <- & _).
      apply Q_edge; [done|]. by rewrite Hsrc, Hid.
    + intros [= <- <-]. by eapply P_route_none.
  - intros Hloop. eapply P_trans; [by eapply P_next|].
    eapply forEachNext_rule_at; [|
      |exact Hloop].
    + intros id0 st0 st2 o0 HQ0. by apply IH.
    + rewrite adj_lookup. intros target Hin.
      destruct (outgoing_target _ _ _ Hin) as (edge & Hedge & Hsrc & <-).
      apply Q_edge; [done|]. by rewrite Hsrc.
Qed.

End RuleAt.

(** ** Invariants of the state *)

Section Invariant.
Context (w : World) (h : Handlers).
Context (wf : WorkflowDefinition) (payload : ExecutePayload).

Variable Q : string -> Prop.
Variable I : State -> Prop.

Hypothesis Q_edge : forall edge, edge ∈ Edges wf -> Q (Source edge) -> Q (Target edge).
Hypothesis I_missing : forall id st,
  Q id -> id ∉ visited st -> nodeMap wf !! id = None -> I st -> I (markVisited id st).
Hypothesis I_switch : forall id st node,
  Q id -> id ∉ visited st -> nodeMap wf !! id = Some node -> ID node = id -> I st ->
  I (branchState (switchNode w h payload node (markVisited id st))).

(** A property of the state that marking an unknown id and running the
    switch on a known one preserve holds after every call. *)
Lemma traverse_invariant fuel id st st' o :
  Q id -> traverse w h wf payload fuel id st = Some (st', o) -> I st -> I st'.
Proof.
  assert (forall id0 st0 node st1, Q id0 -> id0 ∉ visited st0 ->
            nodeMap wf !! id0 = Some node ->
            branchState (switchNode w h payload node (markVisited id0 st0)) = st1 ->
            I st0 -> I st1) as Hstep.
  { intros id0 st0 node st1 HQ Hnot Hnode <- HI.
    apply I_switch; try done. by apply nodeMap_lookup_ID in Hnode. }
  apply (traverse_rule_at w h wf payload Q (fun st st' _ => I st -> I st')).
  - exact Q_edge.
  - done.
  - auto.
  - intros. by apply I_missing.
  - intros id0 st0 node st1 HQ Hnot Hnode Hswitch. eapply Hstep; eauto. by rewrite Hswitch.
  - intros id0 st0 node st1 HQ Hnot Hnode Hswitch. eapply Hstep; eauto. by rewrite Hswitch.
  - intros id0 st0 node st1 HQ Hnot Hnode Hswitch. eapply Hstep; eauto. by rewrite Hswitch.
  - intros id0 st0 node st1 b HQ Hnot Hnode Hswitch _. eapply Hstep; eauto. by rewrite Hswitch.
  - intros id0 st0 node st1 b target st2 o0 HQ Hnot Hnode Hswitch _ Hinner HI.
    apply Hinner. eapply Hstep; eauto. by rewrite Hswitch.
Qed.

End Invariant.

(** The result of a run that returns one holds the steps of the state in
    which the traversal ended. *)
Lemma processNodes_steps w h wf payload res err :
  processNodes w h wf payload = Some (Return (Some res) err) ->
  validated wf /\
  exists st o, traversal w h wf payload = Some (st, o) /\ Steps res = steps st /\
    o = Returned err.
Proof.
  intros Hrun.
  apply processNodes_traversal in Hrun as [[=]|[[=]|(Hvalid & st & o & Htrav & Hrun)]].
  split; [done|]. exists st, o. split; [done|].
  destruct o as [[e|]|]; simpl in Hrun; inversion Hrun; by subst.
Qed.

(** ** The two indexes *)

(** Under an id the node map holds the last node of the list with it. *)
Lemma nodeMap_last wf id : nodeMap wf !! id = last (nodesWithID wf id).
Proof.
  unfold nodeMap, nodesWithID. generalize (Nodes wf). intros nodes.
  induction nodes as [|n nodes IH] using rev_ind.
  - simpl. by rewrite lookup_empty.
  - rewrite foldl_snoc, filter_app. destruct (decide (ID n = id)) as [<-|Hne].
    + rewrite lookup_insert_eq, filter_cons_True by done.
      by rewrite filter_nil, last_snoc.
    + rewrite lookup_insert_ne, filter_cons_False by done.
      by rewrite filter_nil, app_nil_r.
Qed.

(** The adjacency map has no entry for an id without outgoing edges. *)
Lemma adj_lookup_None wf id : adj wf !! id = None <-> outgoing wf id = [].
Proof.
  unfold adj, outgoing. generalize (Edges wf). intros edges.
  induction edges as [|e edges IH] using rev_ind.
  - simpl. by rewrite lookup_empty.
  - rewrite foldl_snoc, filter_app, fmap_app.
    destruct (decide (Source e = id)) as [<-|Hne].
    + rewrite lookup_insert_eq, filter_cons_True by done. simpl.
      split; [done|]. intros Hnil. by apply app_eq_nil in Hnil as [_ [=]].
    + rewrite lookup_insert_ne, filter_cons_False by done.
      rewrite filter_nil. simpl. by rewrite app_nil_r.
Qed.

(** ** Steps are only appended *)

Section Steps.
Context (w : World) (h : Handlers).
Context (wf : WorkflowDefinition) (payload : ExecutePayload).

Lemma traverse_steps_prefix fuel id st st' o :
  traverse w h wf payload fuel id st = Some (st', o) -> steps st `prefix_of` steps st'.
Proof.
  intros Hrun. destruct (traverse_routingRule _ _ _ _ _ _ _ _ _ Hrun) as (added & Hsteps & _).
  by exists added.
Qed.

Lemma forEachNext_steps_prefix fuel targets st st' o :
  forEachNext (traverse w h wf payload fuel) targets st = Some (st', o) ->
  steps st `prefix_of` steps st'.
Proof.
  apply (forEachNext_rule (fun st st' _ => steps st `prefix_of` steps st')).
  - done.
  - intros st1 st2 st3 _ H12 H23. by etrans.
  - intros id0 st0 st1 o0. apply traverse_steps_prefix.
Qed.

(** The first call of the traversal, on a workflow with a start node. *)
Lemma traversal_start startNode st o :
  nodeMap wf !! StartNodeID = Some startNode ->
  traversal w h wf payload = Some (st, o) ->
  [stepOf startNode StatusCompleted {[ "duration" := VInt (elapsedMs w 0) ]}]
    `prefix_of` steps st.
Proof.
  intros Hnode. unfold traversal, enoughFuel.
  generalize (S (length (Edges wf))). intros fuel. simpl.
  rewrite Hnode. unfold switchNode, selectedCase.
  rewrite (nodeMap_lookup_ID _ _ _ Hnode). simpl.
  apply forEachNext_steps_prefix.
Qed.

End Steps.

(** ** What the steps say about the nodes *)

Section StepInvariants.
Context (w : World) (h : Handlers).
Context (wf : WorkflowDefinition) (payload : ExecutePayload).

(** A property of steps that holds of every step the switch appends
    holds of all steps. *)
Lemma traverse_steps_Forall (Q : string -> Prop) (good : StepResult -> Prop) fuel id st st' o :
  (forall edge, edge ∈ Edges wf -> Q (Source edge) -> Q (Target edge)) ->
  (forall id st node s,
     Q id -> nodeMap wf !! id = Some node -> ID node = id ->
     steps (branchState (switchNode w h payload node st)) = (steps st ++ [s])%list ->
     good s) ->
  Q id ->
  traverse w h wf payload fuel id st = Some (st', o) ->
  Forall good (steps st) -> Forall good (steps st').
Proof.
  intros HQ Hgood. apply (traverse_invariant w h wf payload Q (fun st => Forall good (steps st))).
  - exact HQ.
  - done.
  - intros id0 st0 node HQ0 Hnot Hnode Hid Hall.
    pose proof (Hgood id0 (markVisited id0 st0) node) as Hs.
    destruct (switchNode_spec w h payload node (markVisited id0 st0)); simpl in *;
      try done;
      (apply Forall_app; split; [done|]; apply Forall_singleton; by apply Hs).
Qed.

(** Every step is the copy of the node the node map holds under its id. *)
Lemma traverse_stepOfNode fuel id st st' o :
  traverse w h wf payload fuel id st = Some (st', o) ->
  Forall (stepOfNode wf) (steps st) -> Forall (stepOfNode wf) (steps st').
Proof.
  apply (traverse_steps_Forall (fun _ => True)); [done| |done].
  intros id0 st0 node s _ Hnode Hid Hsteps.
  destruct (switchNode_spec w h payload node st0); simpl in Hsteps;
    try (by apply (f_equal length) in Hsteps; rewrite length_app in Hsteps; simpl in Hsteps; lia);
    apply app_inv_head in Hsteps as [= <-];
    (exists node; split; [simpl; by rewrite Hid|done]).
Qed.

(** Unless the call panics, every declared node it marks that a case of
    the switch selects gets a step. *)
Lemma traverse_recorded fuel id st st' o :
  traverse w h wf payload fuel id st = Some (st', o) ->
  o <> Panicked -> recorded wf st -> recorded wf st'.
Proof.
  assert (forall id0 (st0 st1 : State) s, visited st1 = (visited st0 ++ [id0])%list ->
            steps st1 = (steps st0 ++ [s])%list -> NodeID s = id0 ->
            recorded wf st0 -> recorded wf st1) as Hstep.
  { intros id0 st0 st1 s Hvis Hsteps Hid Hrec x Hx Hnode Hcase. rewrite Hvis in Hx.
    rewrite Hsteps, fmap_app. apply elem_of_app.
    apply elem_of_app in Hx as [Hx|Hx]; [left; by apply Hrec|].
    apply list_elem_of_singleton in Hx as ->. right. simpl. rewrite Hid. left. }
  assert (forall id0 (st0 st1 : State), visited st1 = (visited st0 ++ [id0])%list ->
            steps st1 = steps st0 ->
            (is_Some (nodeMap wf !! id0) -> is_Some (switchCase id0) -> False) ->
            recorded wf st0 -> recorded wf st1) as Hskip.
  { intros id0 st0 st1 Hvis Hsteps Hno Hrec x Hx Hnode Hcase. rewrite Hvis in Hx.
    rewrite Hsteps. apply elem_of_app in Hx as [Hx|Hx]; [by apply Hrec|].
    apply list_elem_of_singleton in Hx as ->. by destruct (Hno Hnode Hcase). }
  apply (traverse_rule w h wf payload
           (fun st st' o => o <> Panicked -> recorded wf st -> recorded wf st')).
  - done.
  - intros st1 st2 st3 o0 H12 H23 Ho Hrec. apply H23; [done|]. by apply H12.
  - intros id0 st0 _ Hnone _. apply (Hskip id0); [done|done|].
    intros [node Hnode]. congruence.
  - intros id0 st0 node st1 _ Hnode Hswitch _.
    pose proof (nodeMap_lookup_ID _ _ _ Hnode) as Hid. switch_inv Hswitch.
    eapply (Hstep (ID node) st0); reflexivity.
  - done.
  - intros id0 st0 node st1 _ Hnode Hswitch _.
    pose proof (nodeMap_lookup_ID _ _ _ Hnode) as Hid. switch_inv Hswitch.
    + eapply (Hskip (ID node)); [reflexivity|reflexivity|]. intros _ [kind Hkind].
      match goal with Hc : selectedCase _ = None |- _ =>
        unfold selectedCase in Hc; congruence end.
    + eapply (Hstep (ID node) st0); reflexivity.
  - intros id0 st0 node st1 b _ Hnode Hswitch _ _.
    pose proof (nodeMap_lookup_ID _ _ _ Hnode) as Hid. switch_inv Hswitch.
    eapply (Hstep (ID node) st0); reflexivity.
  - intros id0 st0 node st1 b target st2 o0 _ Hnode Hswitch _ Hinner Ho Hrec.
    pose proof (nodeMap_lookup_ID _ _ _ Hnode) as Hid. switch_inv Hswitch.
    apply Hinner; [done|].
    eapply (Hstep (ID node) st0); [reflexivity|reflexivity|reflexivity|done].
Qed.

End StepInvariants.

(** ** Workflows on which the traversal cannot fail *)

Section Sound.
Context (w : World) (h : Handlers).
Context (wf : WorkflowDefinition) (payload : ExecutePayload).

Lemma closedWorkflow_edge :
  closedWorkflow wf ->
  forall edge, edge ∈ Edges wf ->
    is_Some (nodeMap wf !! Source edge) -> is_Some (nodeMap wf !! Target edge).
Proof. intros Hclosed edge Hin _. apply nodeMap_lookup_is_Some. by apply Hclosed. Qed.

(** On a workflow whose edges lead to declared nodes, whose condition
    node has an edge for either outcome and whose email node has a
    template, a call on a declared id returns nil. *)
Lemma traverse_sound fuel id st st' o :
  closedWorkflow wf -> routable wf -> templated wf ->
  is_Some (nodeMap wf !! id) ->
  traverse w h wf payload fuel id st = Some (st', o) -> o = Returned None.
Proof.
  intros Hclosed Hroutable Htemplated.
  apply (traverse_rule_at w h wf payload (fun id => is_Some (nodeMap wf !! id))
           (fun _ _ o => o = Returned None)); try done.
  - by apply closedWorkflow_edge.
  - intros id0 st0 [node Hnode] _ Hnone. congruence.
  - intros id0 st0 node st1 _ _ Hnode Hswitch.
    pose proof (nodeMap_lookup_ID _ _ _ Hnode) as Hid. switch_inv Hswitch.
    match goal with Hc : selectedCase _ = Some KEmail |- _ =>
      apply switchCase_Some in Hc; simpl in Hc; rewrite Hc in Hnode end.
    destruct (Htemplated node Hnode) as [template Hsome]. congruence.
  - intros id0 st0 node st1 b _ _ Hnode Hswitch Hroute.
    pose proof (nodeMap_lookup_ID _ _ _ Hnode) as Hid. switch_inv Hswitch.
    match goal with Hc : selectedCase _ = Some KCondition |- _ =>
      apply switchCase_Some in Hc; simpl in Hc; rewrite Hc in * end.
    destruct (Hroutable) with (b := b) as (edge & Hin & Hsrc & Hlabel).
    { apply nodeMap_lookup_is_Some. eauto. }
    exfalso. by apply (proj1 (routeEdge_None _ _ _) Hroute edge).
Qed.

Lemma processNodes_sound :
  validated wf -> closedWorkflow wf -> routable wf -> templated wf ->
  exists res,
    processNodes w h wf payload = Some (Return (Some res) None) /\
    ResultStatus res = StatusCompleted.
Proof.
  intros Hvalid Hclosed Hroutable Htemplated.
  destruct (traverse_enough_fuel w h wf payload) as (st & o & Hrun).
  assert (o = Returned None) as ->.
  { apply (traverse_sound _ _ _ _ _ Hclosed Hroutable Htemplated (proj1 Hvalid) Hrun). }
  rewrite (processNodes_validated _ _ _ _ _ _ Hvalid Hrun). simpl. eauto.
Qed.

(** A nil error comes with a result, of status completed. *)
Lemma processNodes_nil_error result :
  processNodes w h wf payload = Some (Return result None) ->
  exists res, result = Some res /\ ResultStatus res = StatusCompleted.
Proof.
  intros Hrun.
  apply processNodes_traversal in Hrun as [[=]|[[=]|(_ & st & o & _ & Hrun)]].
  destruct o as [[e|]|]; simpl in Hrun; inversion Hrun. eauto.
Qed.

(** *** What an error of the traversal tells *)

Lemma traverse_diagnosis fuel id st st' o err :
  called wf id ->
  traverse w h wf payload fuel id st = Some (st', o) ->
  o = Returned (Some err) ->
  (exists id', err = errNodeNotFound id' /\ called wf id' /\ nodeMap wf !! id' = None /\
     last (visited st') = Some id') \/
  (err = errNoMatchingEdge ConditionNodeID /\ last (visited st') = Some ConditionNodeID /\
   exists s b, last (steps st') = Some s /\ conditionStep s b /\
     routeEdge ConditionNodeID b (Edges wf) = None).
Proof.
  intros Hcalled Hrun. revert err.
  revert Hcalled Hrun.
  apply (traverse_rule_at w h wf payload (called wf)
    (fun _ st' o => forall err, o = Returned (Some err) ->
       (exists id', err = errNodeNotFound id' /\ called wf id' /\ nodeMap wf !! id' = None /\
          last (visited st') = Some id') \/
       (err = errNoMatchingEdge ConditionNodeID /\ last (visited st') = Some ConditionNodeID /\
        exists s b, last (steps st') = Some s /\ conditionStep s b /\
          routeEdge ConditionNodeID b (Edges wf) = None))); try done.
  - intros edge Hin _. right. eauto.
  - intros id0 st0 HQ _ Hnone err [= <-]. left. exists id0.
    repeat split; try done. simpl. by rewrite last_snoc.
  - intros id0 st0 node st1 b _ _ Hnode Hswitch Hroute err [= <-].
    pose proof (nodeMap_lookup_ID _ _ _ Hnode) as Hid. switch_inv Hswitch.
    match goal with Hc : selectedCase _ = Some KCondition |- _ =>
      apply switchCase_Some in Hc; simpl in Hc; rewrite Hc in * end.
    right. split; [done|]. simpl. rewrite !last_snoc. split; [done|].
    eexists _, b. split; [reflexivity|]. split; [|done].
    repeat split; simpl; done.
Qed.

End Sound.

(** ** The temperature from the weather node to the condition node *)

Lemma wellFormed_step_visited st s :
  wellFormed st -> s ∈ steps st -> NodeID s ∈ visited st.
Proof.
  intros (_ & Hsub & _) Hin. eapply elem_of_sublist; [|exact Hsub].
  apply list_elem_of_fmap. eauto.
Qed.

Section Temperature.
Context (w : World) (h : Handlers).
Context (wf : WorkflowDefinition) (payload : ExecutePayload).

Lemma temperatureFlow_mark id st :
  temperatureFlow payload st -> temperatureFlow payload (markVisited id st).
Proof.
  intros (Hempty & Hweather & Hcond). split; [|done]. simpl. intros Hnot.
  apply Hempty. intros Hin. apply Hnot. apply elem_of_app. by left.
Qed.

(** A step appended while the context map stays as it is. *)
Lemma temperatureFlow_append st node status out :
  temperatureFlow payload st ->
  (ID node = WeatherAPINodeID -> status <> StatusCompleted) ->
  (ID node = ConditionNodeID -> status = StatusCompleted ->
     out !! "actualValue" = Some (ctxValue (contextData st) TemperatureKey) /\
     (exists t, contextData st !! TemperatureKey = Some (VFloat t)) /\
     forall node', out !! "conditionMet"
       = Some (VBool (fst (processConditionNode node' payload (contextData st))))) ->
  temperatureFlow payload (appendStep st node status out).
Proof.
  intros (Hempty & Hweather & Hcond) Hw Hc. split; [done|]. simpl. split.
  - intros s Hin Hid Hstatus. apply elem_of_app in Hin as [Hin|Hin]; [by apply Hweather|].
    apply list_elem_of_singleton in Hin as ->. simpl in *. by destruct (Hw Hid).
  - intros s Hin Hid Hstatus. apply elem_of_app in Hin as [Hin|Hin]; [by apply Hcond|].
    apply list_elem_of_singleton in Hin as ->. simpl in *. by apply Hc.
Qed.

(** The step of the weather node: the only place where the context map
    changes, and the first time the node is marked. *)
Lemma temperatureFlow_weather st node ctx status out :
  ID node = WeatherAPINodeID ->
  WeatherAPINodeID ∉ visited st -> wellFormed st -> temperatureFlow payload st ->
  (status = StatusCompleted -> out !! "temperature" = Some (ctxValue ctx TemperatureKey)) ->
  temperatureFlow payload
    (appendStep (setContext ctx (markVisited WeatherAPINodeID st)) node status out).
Proof.
  intros Hid Hnot Hwf (Hempty & Hweather & Hcond) Hout.
  specialize (Hempty Hnot). split; [|split]; simpl.
  - intros Hno. destruct Hno. apply elem_of_app. right. by apply list_elem_of_singleton.
  - intros s Hin Hs Hstatus. apply elem_of_app in Hin as [Hin|Hin].
    + destruct Hnot. rewrite <- Hs. by apply wellFormed_step_visited.
    + apply list_elem_of_singleton in Hin as ->. simpl in *. by apply Hout.
  - intros s Hin Hs Hstatus. apply elem_of_app in Hin as [Hin|Hin].
    + destruct (Hcond s Hin Hs Hstatus) as (_ & (t & Ht) & _).
      rewrite Hempty, lookup_empty in Ht. discriminate.
    + apply list_elem_of_singleton in Hin as ->. simpl in Hs. rewrite Hid in Hs. discriminate.
Qed.

Lemma temperatureFlow_switch id st node :
  id ∉ visited st -> ID node = id -> wellFormed st -> temperatureFlow payload st ->
  temperatureFlow payload (branchState (switchNode w h payload node (markVisited id st))).
Proof.
  intros Hnot Hid Hwf Htf.
  pose proof (temperatureFlow_mark id st Htf) as Htf1.
  unfold switchNode. destruct (selectedCase node) as [kind|] eqn:Hcase; [|done].
  unfold selectedCase in Hcase. apply switchCase_Some in Hcase.
  destruct kind; simpl in Hcase.
  - simpl. apply temperatureFlow_append; [done|by rewrite Hcase..].
  - simpl. apply temperatureFlow_append; [done|by rewrite Hcase..].
  - destruct (processFormNode node payload); simpl;
      (apply temperatureFlow_append; [done|by rewrite Hcase..]).
  - assert (id = WeatherAPINodeID) as -> by congruence.
    destruct (processWeatherNodeFn h node payload (contextData (markVisited WeatherAPINodeID st)))
      as [ctx [err|]]; simpl.
    + by apply temperatureFlow_weather.
    + by apply temperatureFlow_weather.
  - destruct (processConditionNode node payload (contextData (markVisited id st)))
      as [b [err|]] eqn:Hcond; simpl.
    + apply temperatureFlow_append; [done|by rewrite Hcase|done].
    + destruct (processConditionNode_ok _ _ _ _ Hcond) as [t Ht].
      simpl in Ht.
      assert (ctxValue (contextData st) TemperatureKey = VFloat t) as Hv
        by (unfold ctxValue; by rewrite Ht).
      rewrite Hv. simpl.
      apply temperatureFlow_append; [done|by rewrite Hcase|].
      intros _ _. simpl. split; [by rewrite Hv|]. split; [eauto|]. intros node'.
      simpl in Hcond.
      change (processConditionNode node' payload (contextData st))
        with (processConditionNode node payload (contextData st)).
      by rewrite Hcond.
  - destruct (processEmailNodeFn h node payload); simpl.
    + apply temperatureFlow_append; [done|by rewrite Hcase..].
    + destruct (MetaEmailTemplate (Metadata (Data node))); simpl; [|done].
      apply temperatureFlow_append; [done|by rewrite Hcase..].
Qed.

Lemma traverse_temperatureFlow fuel id st st' o :
  traverse w h wf payload fuel id st = Some (st', o) ->
  wellFormed st /\ temperatureFlow payload st ->
  wellFormed st' /\ temperatureFlow payload st'.
Proof.
  apply (traverse_invariant w h wf payload (fun _ => True)
           (fun st => wellFormed st /\ temperatureFlow payload st)); try done.
  - intros id0 st0 _ Hnot _ [Hwf Htf]. split.
    + by apply wellFormed_mark.
    + by apply temperatureFlow_mark.
  - intros id0 st0 node _ Hnot _ Hid [Hwf Htf]. split.
    + by apply wellFormed_switch.
    + by apply temperatureFlow_switch.
Qed.

(** *** A condition node without a weather node before it *)

Lemma noTemperature_switch id st node :
  id <> WeatherAPINodeID -> ID node = id -> noTemperature st ->
  noTemperature (branchState (switchNode w h payload node (markVisited id st))).
Proof.
  intros Hne Hid [Hempty Hsteps].
  assert (forall status out,
    (ID node = ConditionNodeID ->
       status = StatusFailed /\ out !! "error" = Some (VStr "weather temp not in map")) ->
    noTemperature (appendStep (setContext ∅ (markVisited id st)) node status out)) as Happend.
  { intros status out Hc. split; [done|]. simpl. intros s Hin Hs.
    apply elem_of_app in Hin as [Hin|Hin]; [by apply Hsteps|].
    apply list_elem_of_singleton in Hin as ->. simpl in *. by apply Hc. }
  destruct (switchNode_spec w h payload node (markVisited id st))
    as [Hcase|ctx err Hcall|kind ctx out Hcase Hkind Hcall Htemplate Hout
        |b out Hcase Hcond Hmet Hout|Hcase Hemail Htemplate]; simpl.
  - done.
  - unfold handlerCall in Hcall. simpl in Hcall. rewrite Hempty in Hcall.
    destruct (selectedCase node) as [kind|] eqn:Hcase; [|by inversion Hcall].
    unfold selectedCase in Hcase. apply switchCase_Some in Hcase.
    destruct kind; simpl in Hcase; try congruence;
      inversion Hcall; subst ctx;
      apply Happend; intros Hc; rewrite Hcase in Hc; try discriminate Hc.
    unfold processConditionNode. by rewrite lookup_empty.
  - unfold handlerCall in Hcall. simpl in Hcall. rewrite Hempty in Hcall. rewrite Hcase in Hcall.
    unfold selectedCase in Hcase. apply switchCase_Some in Hcase.
    destruct kind; simpl in Hcase; try congruence;
      inversion Hcall; subst ctx;
      apply Happend; intros Hc; rewrite Hcase in Hc; discriminate Hc.
  - simpl in Hcond. rewrite Hempty in Hcond. discriminate.
  - done.
Qed.

End Temperature.

(** ** The traversal is exhaustive *)

(** Among steps of pairwise distinct node ids, the id tells the step. *)
Lemma step_unique (l : list StepResult) s s' :
  NoDup (NodeID <$> l) -> s ∈ l -> s' ∈ l -> NodeID s = NodeID s' -> s = s'.
Proof.
  induction l as [|x l IH]; simpl; intros Hnodup Hs Hs' Hid; [inversion Hs|].
  apply NoDup_cons in Hnodup as [Hx Hnodup].
  apply elem_of_cons in Hs as [->|Hs], Hs' as [->|Hs']; try done.
  - destruct Hx. rewrite Hid. apply list_elem_of_fmap. eauto.
  - destruct Hx. rewrite <- Hid. apply list_elem_of_fmap. eauto.
  - by apply IH.
Qed.

Section Exhaustive.
Context (w : World) (h : Handlers).
Context (wf : WorkflowDefinition) (payload : ExecutePayload).

Lemma failedAt_mono st st' id :
  steps st `prefix_of` steps st' -> failedAt st id -> failedAt st' id.
Proof.
  intros Hpre (s & Hin & Hid & Hfailed). exists s. split; [|done]. by eapply elem_of_prefix.
Qed.

Lemma settled_mono st st' x :
  steps st `prefix_of` steps st' ->
  (forall y, y ∈ visited st -> y ∈ visited st') ->
  settled wf st x -> settled wf st' x.
Proof.
  intros Hpre Hmono. unfold settled. case_decide.
  - intros [Hfailed|(s & b & target & Hs & Hstep & Hroute & Htarget)].
    + left. by eapply failedAt_mono.
    + right. exists s, b, target. split; [by eapply elem_of_prefix|]. auto.
  - intros Hsettled Hnot target Hin. apply Hmono, Hsettled; [|done].
    intros Hfailed. apply Hnot. by eapply failedAt_mono.
Qed.

Lemma explored_refl st : explored wf st st.
Proof. intros x Hx Hnot. by destruct Hnot. Qed.

Lemma explored_trans st1 st2 st3 :
  steps st2 `prefix_of` steps st3 ->
  (forall x, x ∈ visited st2 -> x ∈ visited st3) ->
  explored wf st1 st2 -> explored wf st2 st3 -> explored wf st1 st3.
Proof.
  intros Hpre Hmono H12 H23 x Hx Hnot.
  destruct (decide (x ∈ visited st2)) as [Hx2|Hx2].
  - apply (settled_mono st2); [done..|]. by apply H12.
  - by apply H23.
Qed.

Lemma forEachNext_explored fuel :
  (forall id st st',
     traverse w h wf payload fuel id st = Some (st', Returned None) -> explored wf st st') ->
  forall targets st st',
    forEachNext (traverse w h wf payload fuel) targets st = Some (st', Returned None) ->
    explored wf st st'.
Proof.
  intros IH targets. induction targets as [|next rest IHrest]; intros st st'; simpl.
  - intros [= <-]. apply explored_refl.
  - destruct (traverse w h wf payload fuel next st) as [[st1 [[err|]|]]|] eqn:Hnext;
      try discriminate.
    intros Hrest. apply (explored_trans st st1 st').
    + by apply (forEachNext_steps_prefix _ _ _ _ _ _ _ _ _ Hrest).
    + by apply (forEachNext_visited_mono _ _ _ _ _ _ _ _ _ Hrest).
    + by apply (IH _ _ _ Hnext).
    + by apply IHrest.
Qed.

(** When a call returns nil, every id it marked is settled. *)
Lemma traverse_explored fuel id st st' :
  traverse w h wf payload fuel id st = Some (st', Returned None) -> explored wf st st'.
Proof.
  revert id st st'. induction fuel as [|fuel IH]; intros id st st'; [done|]. simpl.
  destruct (bool_decide (id ∈ visited st)).
  { intros [= <-]. apply explored_refl. }
  destruct (nodeMap wf !! id) as [node|] eqn:Hnode; [|discriminate].
  pose proof (nodeMap_lookup_ID _ _ _ Hnode) as Hid.
  pose proof (switchNode_visited w h payload node (markVisited id st)) as Hvis.
  destruct (switchNode w h payload node (markVisited id st)) as [st1|st1|st1 b|st1] eqn:Hswitch;
    simpl in Hvis.
  - intros [= <-] x Hx Hnot. rewrite Hvis in Hx.
    apply elem_of_app in Hx as [Hx|Hx]; [done|]. apply list_elem_of_singleton in Hx as ->.
    switch_inv Hswitch.
    assert (failedAt (appendStep (setContext ctx (markVisited (ID node) st)) node StatusFailed
                        (failedOutput err (duration w (markVisited (ID node) st)))) (ID node))
      as Hfailed.
    { eexists. split; [simpl; apply elem_of_app; right; left|]. done. }
    unfold settled. case_decide; [by left|done].
  - discriminate.
  - destruct (routeEdge (ID node) b (Edges wf)) as [target|] eqn:Hroute; [|discriminate].
    intros Hrun x Hx Hnot.
    destruct (decide (x ∈ visited st1)) as [Hx1|Hx1]; [|by apply (IH _ _ _ Hrun)].
    rewrite Hvis in Hx1. apply elem_of_app in Hx1 as [Hx1|Hx1]; [done|].
    apply list_elem_of_singleton in Hx1 as ->. switch_inv Hswitch.
    match goal with Hc : selectedCase _ = Some KCondition |- _ =>
      apply switchCase_Some in Hc; simpl in Hc; rewrite Hc in * end.
    unfold settled. rewrite decide_True by done. right.
    eexists _, b, target. split; [|split; [|split]].
    + eapply elem_of_prefix; [|by apply (traverse_steps_prefix _ _ _ _ _ _ _ _ _ Hrun)].
      simpl. apply elem_of_app. right. left.
    + repeat split; simpl; done.
    + done.
    + by apply (traverse_marks _ _ _ _ _ _ _ _ _ Hrun).
  - intros Hloop x Hx Hnot.
    destruct (decide (x ∈ visited st1)) as [Hx1|Hx1];
      [|by apply (forEachNext_explored fuel IH _ _ _ Hloop)].
    rewrite Hvis in Hx1. apply elem_of_app in Hx1 as [Hx1|Hx1]; [done|].
    apply list_elem_of_singleton in Hx1 as ->.
    assert (id <> ConditionNodeID) as Hne.
    { intros Hcond. switch_inv Hswitch.
      - match goal with Hc : selectedCase _ = None |- _ =>
          unfold selectedCase in Hc; rewrite Hcond in Hc; by inversion Hc end.
      - match goal with Hc : selectedCase _ = Some ?k, Hk : ?k <> KCondition |- _ =>
          unfold selectedCase in Hc; rewrite Hcond in Hc; inversion Hc; by subst end. }
    unfold settled. rewrite decide_False by done. intros _ target Hin.
    apply (forEachNext_marks_all _ _ _ _ _ _ _ _ Hloop). by rewrite adj_lookup.
Qed.

(** After a traversal that returned nil, every id a path of followed
    edges leads to is marked. *)
Lemma traversal_exhaustive st id :
  traversal w h wf payload = Some (st, Returned None) ->
  executedFrom wf (steps st) id -> id ∈ visited st.
Proof.
  intros Hrun Hreach.
  pose proof (traverse_explored _ _ _ _ Hrun) as Hexp.
  pose proof (traverse_wellFormed _ _ _ _ _ _ _ _ _ Hrun (wellFormed_initial))
    as (Hnodup & Hsub & _).
  assert (NoDup (NodeID <$> steps st)) as Hids by (by eapply sublist_NoDup).
  induction Hreach as [|edge Hin Hsrc IH Hfollowed].
  - by apply (traverse_marks _ _ _ _ _ _ _ _ _ Hrun).
  - assert (settled wf st (Source edge)) as Hsettled.
    { apply Hexp; [done|]. simpl. intros Hnil. inversion Hnil. }
    unfold settled, followed in *. case_decide as Hcond.
    + destruct Hfollowed as (s & b & Hs & Hstep & Hroute).
      destruct Hsettled as [(s' & Hs' & Hid' & Hfailed)|(s' & b' & target & Hs' & Hstep' & Hroute' & Htarget)].
      * assert (s = s') as <-.
        { apply (step_unique (steps st)); try done. destruct Hstep as (-> & _). congruence. }
        destruct Hstep as (_ & Hstatus & _). rewrite Hstatus in Hfailed. discriminate.
      * assert (s = s') as <-.
        { apply (step_unique (steps st)); try done.
          destruct Hstep as (-> & _), Hstep' as (-> & _). done. }
        destruct Hstep as (_ & _ & Hb), Hstep' as (_ & _ & Hb').
        assert (b = b') as <- by congruence. congruence.
    + apply Hsettled.
      * intros (s & Hs & Hid & Hfailed). by apply (Hfollowed s).
      * unfold outgoing. apply list_elem_of_fmap. exists edge. split; [done|].
        by apply list_elem_of_filter.
Qed.

End Exhaustive.

(** ** Only followed edges lead to executed nodes *)

Lemma executedFrom_reachable wf recorded id :
  executedFrom wf recorded id -> reachable wf id.
Proof.
  induction 1 as [|edge Hin _ IH _]; [apply reachable_start|by apply reachable_edge].
Qed.

Section Followed.
Context (w : World) (h : Handlers).
Context (wf : WorkflowDefinition) (payload : ExecutePayload).

(** The steps the run ends with: of pairwise distinct node ids, each of
    a node some case of the switch selects. *)
Variable final : list StepResult.
Hypothesis final_NoDup : NoDup (NodeID <$> final).
Hypothesis final_cases : Forall (fun s => is_Some (switchCase (NodeID s))) final.

(** The edges leaving a node whose switch was left for the loop over
    [adj[id]] are followed. *)
Lemma followed_after_switch st node st1 edge :
  nodeMap wf !! Source edge = Some node ->
  switchNode w h payload node (markVisited (Source edge) st) = Fallthrough st1 ->
  steps st1 `prefix_of` final ->
  followed wf final edge.
Proof.
  intros Hnode Hswitch Hpre.
  pose proof (nodeMap_lookup_ID _ _ _ Hnode) as Hid.
  unfold followed. switch_inv Hswitch.
  - match goal with Hc : selectedCase _ = None |- _ =>
      unfold selectedCase in Hc; rewrite Hid in Hc end.
    rewrite decide_False.
    2: { intros Hcond. rewrite Hcond in *. discriminate. }
    intros s Hs Hids. exfalso.
    destruct (proj1 (Forall_forall _ _) final_cases s Hs) as [kind Hkind].
    rewrite Hids in Hkind. congruence.
  - match goal with Hc : selectedCase _ = Some ?k, Hk : ?k <> KCondition |- _ =>
      unfold selectedCase in Hc; rewrite Hid in Hc;
      pose proof (switchCase_Some _ _ Hc) as Hcase end.
    rewrite decide_False.
    2: { rewrite Hcase. by destruct kind. }
    intros s Hs Hids.
    match goal with |- context [Status s] =>
      assert (s = stepOf node StatusCompleted out) as ->; [|discriminate] end.
    apply (step_unique final); try done.
    + eapply elem_of_prefix; [|exact Hpre]. simpl. apply elem_of_app. right. left.
    + by rewrite Hids.
Qed.

Lemma forEachNext_followed fuel :
  (forall id st st' o,
     traverse w h wf payload fuel id st = Some (st', o) ->
     steps st' `prefix_of` final -> executedFrom wf final id ->
     (forall x, x ∈ visited st -> executedFrom wf final x) ->
     forall x, x ∈ visited st' -> executedFrom wf final x) ->
  forall targets st st' o,
    forEachNext (traverse w h wf payload fuel) targets st = Some (st', o) ->
    steps st' `prefix_of` final ->
    (forall target, target ∈ targets -> executedFrom wf final target) ->
    (forall x, x ∈ visited st -> executedFrom wf final x) ->
    forall x, x ∈ visited st' -> executedFrom wf final x.
Proof.
  intros IH targets. induction targets as [|next rest IHrest]; intros st st' o; simpl.
  - intros [= <- <-]. auto.
  - destruct (traverse w h wf payload fuel next st) as [[st1 o1]|] eqn:Hnext; [|discriminate].
    intros Hrest Hpre Htargets Hvis.
    assert (forall x, x ∈ visited st1 -> executedFrom wf final x) as Hvis1.
    { apply (IH _ _ _ _ Hnext); [|apply Htargets; left|done].
      destruct o1 as [[err|]|]; try (by inversion Hrest; subst).
      etrans; [|exact Hpre]. by apply (forEachNext_steps_prefix _ _ _ _ _ _ _ _ _ Hrest). }
    destruct o1 as [[err|]|]; try (by inversion Hrest; subst).
    apply (IHrest _ _ _ Hrest); try done. intros target Hin. apply Htargets. by right.
Qed.

(** Every id a call marks is led to by followed edges, when the id of
    the call is. *)
Lemma traverse_followed fuel id st st' o :
  traverse w h wf payload fuel id st = Some (st', o) ->
  steps st' `prefix_of` final -> executedFrom wf final id ->
  (forall x, x ∈ visited st -> executedFrom wf final x) ->
  forall x, x ∈ visited st' -> executedFrom wf final x.
Proof.
  revert id st st' o. induction fuel as [|fuel IH]; intros id st st' o; [done|]. simpl.
  destruct (bool_decide (id ∈ visited st)).
  { intros [= <- <-]. auto. }
  assert (forall st1 : State, visited st1 = (visited st ++ [id])%list ->
            executedFrom wf final id ->
            (forall x, x ∈ visited st -> executedFrom wf final x) ->
            forall x, x ∈ visited st1 -> executedFrom wf final x) as Hmark.
  { intros st1 Hvis Hid Hall x Hx. rewrite Hvis in Hx.
    apply elem_of_app in Hx as [Hx|Hx]; [by apply Hall|].
    by apply list_elem_of_singleton in Hx as ->. }
  destruct (nodeMap wf !! id) as [node|] eqn:Hnode.
  2: { intros [= <- <-] _. by apply Hmark. }
  pose proof (nodeMap_lookup_ID _ _ _ Hnode) as Hid.
  pose proof (switchNode_visited w h payload node (markVisited id st)) as Hvis.
  destruct (switchNode w h payload node (markVisited id st)) as [st1|st1|st1 b|st1] eqn:Hswitch;
    simpl in Hvis.
  - intros [= <- <-] _. by apply Hmark.
  - intros [= <- <-] _. by apply Hmark.
  - destruct (routeEdge (ID node) b (Edges wf)) as [target|] eqn:Hroute.
    2: { intros [= <- <-] _. by apply Hmark. }
    intros Hrun Hpre Hexec Hall.
    apply (IH _ _ _ _ Hrun Hpre); [|by apply Hmark].
    destruct (routeEdge_Some _ _ _ _ Hroute) as (edge & Hin & Hsrc & <- & _).
    apply executed_edge; [done|by rewrite Hsrc, Hid|].
    switch_inv Hswitch.
    match goal with Hc : selectedCase _ = Some KCondition |- _ =>
      apply switchCase_Some in Hc; simpl in Hc; rewrite Hc in * end.
    unfold followed. rewrite decide_True by done.
    eexists _, b. split; [|split; [|done]].
    + eapply elem_of_prefix; [|exact Hpre].
      eapply elem_of_prefix; [|by apply (traverse_steps_prefix _ _ _ _ _ _ _ _ _ Hrun)].
      simpl. apply elem_of_app. right. left.
    + repeat split; simpl; done.
  - intros Hloop Hpre Hexec Hall.
    apply (forEachNext_followed fuel IH _ _ _ _ Hloop Hpre); [|by apply Hmark].
    rewrite adj_lookup. intros target Hin.
    destruct (outgoing_target _ _ _ Hin) as (edge & Hedge & Hsrc & <-).
    apply executed_edge; [done|by rewrite Hsrc|].
    subst id. apply (followed_after_switch st node st1).
    + by rewrite Hsrc.
    + by rewrite Hsrc.
    + etrans; [|exact Hpre]. by apply (forEachNext_steps_prefix _ _ _ _ _ _ _ _ _ Hloop).
Qed.

End Followed.

(** ** The comparisons of the condition handler *)

(** Comparing the other way round gives the opposite result. *)
Lemma SFcompare_antisym x y : SFcompare y x = CompOpp <$> SFcompare x y.
Proof.
  destruct x as [sx|sx| |sx mx ex], y as [sy|sy| |sy my ey]; simpl; try done;
    try (by destruct sx); try (by destruct sy); try (by destruct sx, sy).
  destruct sx, sy; simpl; try done.
  - rewrite (Z.compare_antisym ex ey). destruct (ex ?= ey)%Z; simpl; try done.
    by rewrite (Pos.compare_cont_antisym mx my Eq).
  - rewrite (Z.compare_antisym ex ey). destruct (ex ?= ey)%Z; simpl; try done.
    by rewrite (Pos.compare_cont_antisym mx my Eq).
Qed.

Lemma SFcompare_refl x : x <> S754_nan -> SFcompare x x = Some Eq.
Proof.
  destruct x as [s|s| |s m e]; simpl; try done.
  - by destruct s.
  - intros _. rewrite Z.compare_refl.
    change (Pos.compare_cont Eq m m) with (m ?= m)%positive.
    rewrite Pos.compare_refl. by destruct s.
Qed.

Lemma SFcompare_nan x y : SFcompare x y = None <-> x = S754_nan \/ y = S754_nan.
Proof.
  destruct x as [sx|sx| |sx mx ex], y as [sy|sy| |sy my ey]; simpl;
    split; try done; try (intros [[=]|[=]]); auto.
Qed.

(** A float is NaN exactly when its specification is. *)
Lemma is_nan_spec (f : float) : PrimFloat.is_nan f = true <-> Prim2SF f = S754_nan.
Proof.
  unfold PrimFloat.is_nan. rewrite negb_true_iff, FloatAxioms.eqb_spec. unfold SFeqb.
  split.
  - intros Hcmp. destruct (Prim2SF f) as [s|s| |s m e] eqn:Hf; [..|done|];
      by rewrite SFcompare_refl in Hcmp.
  - intros ->. done.
Qed.

Lemma is_nan_false (f : float) : PrimFloat.is_nan f = false <-> Prim2SF f <> S754_nan.
Proof. rewrite <- is_nan_spec. by destruct (PrimFloat.is_nan f). Qed.

Lemma float_leb_ltb_eqb (x y : float) :
  PrimFloat.leb x y = PrimFloat.ltb x y || PrimFloat.eqb x y.
Proof.
  rewrite FloatAxioms.leb_spec, FloatAxioms.ltb_spec, FloatAxioms.eqb_spec.
  unfold SFleb, SFltb, SFeqb. by destruct (SFcompare (Prim2SF x) (Prim2SF y)) as [[]|].
Qed.

Lemma float_eqb_sym (x y : float) : PrimFloat.eqb x y = PrimFloat.eqb y x.
Proof.
  rewrite !FloatAxioms.eqb_spec. unfold SFeqb.
  rewrite (SFcompare_antisym (Prim2SF x) (Prim2SF y)).
  by destruct (SFcompare (Prim2SF x) (Prim2SF y)) as [[]|].
Qed.

Lemma float_ltb_negb_leb (x y : float) :
  PrimFloat.is_nan x = false -> PrimFloat.is_nan y = false ->
  PrimFloat.ltb x y = negb (PrimFloat.leb y x).
Proof.
  rewrite !is_nan_false. intros Hx Hy.
  rewrite FloatAxioms.leb_spec, FloatAxioms.ltb_spec. unfold SFleb, SFltb.
  rewrite (SFcompare_antisym (Prim2SF x) (Prim2SF y)).
  destruct (SFcompare (Prim2SF x) (Prim2SF y)) as [[]|] eqn:Hcmp; try done.
  apply SFcompare_nan in Hcmp as [|]; done.
Qed.

Lemma float_nan_compare (x y : float) :
  PrimFloat.is_nan x = true \/ PrimFloat.is_nan y = true ->
  PrimFloat.ltb x y = false /\ PrimFloat.leb x y = false /\ PrimFloat.eqb x y = false.
Proof.
  rewrite !is_nan_spec. intros Hnan.
  rewrite FloatAxioms.leb_spec, FloatAxioms.ltb_spec, FloatAxioms.eqb_spec.
  unfold SFleb, SFltb, SFeqb.
  by rewrite (proj2 (SFcompare_nan (Prim2SF x) (Prim2SF y)) Hnan).
Qed.

(** ** The weather handler *)

(** The weather handler on a city that is not empty, by what the two
    requests give. *)
Lemma processWeatherNode_ok w node payload ctx ctx' :
  processWeatherNode w node payload ctx = (ctx', None) ->
  City (PayloadFormData payload) <> "" /\
  exists geo lat lon rest weatherResp temperature,
    httpGet w (geoURL (City (PayloadFormData payload))) = inr geo /\
    decodeGeo w (RespBody geo) = Some ((lat, lon) :: rest) /\
    httpGet w (weatherURL w node lat lon) = inr weatherResp /\
    StatusCode weatherResp = 200%Z /\
    decodeWeather w (RespBody weatherResp) = Some temperature /\
    ctx' = <[TemperatureKey := VFloat temperature]> ctx.
Proof.
  unfold processWeatherNode, geoURL, weatherURL.
  destruct (String.eqb_spec (City (PayloadFormData payload)) "") as [|Hcity]; [discriminate|].
  destruct (httpGet w _) as [err|geo] eqn:Hgeo; [discriminate|].
  destruct (decodeGeo w (RespBody geo)) as [[|[lat lon] rest]|] eqn:Hdecode; try discriminate.
  destruct (httpGet w (ReplaceAll _ _ _)) as [err|weatherResp] eqn:Hweather; [discriminate|].
  destruct (Z.eqb_spec (StatusCode weatherResp) 200) as [Hcode|Hcode]; simpl; [|discriminate].
  destruct (decodeWeather w (RespBody weatherResp)) as [temperature|] eqn:Htemp; [|discriminate].
  intros [= <-]. split; [done|]. eauto 12.
Qed.

Lemma processWeatherNode_failure w node payload ctx ctx' err :
  processWeatherNode w node payload ctx = (ctx', Some err) -> ctx' = ctx.
Proof.
  unfold processWeatherNode.
  repeat (match goal with
          | |- context [match ?x with _ => _ end] => destruct x
          | |- context [if ?x then _ else _] => destruct x
          end; simpl); congruence.
Qed.

(** ** The routing loop *)

Lemma routeEdge_cons id b edge rest :
  routeEdge id b (edge :: rest)
  = if decide (answers id b edge) then Some (Target edge) else routeEdge id b rest.
Proof.
  simpl. unfold answers.
  destruct (String.eqb_spec (Source edge) id) as [Hs|Hs]; simpl.
  - destruct b; simpl.
    + destruct (String.eqb_spec (EdgeLabel edge) ConditionMetLabel) as [Hl|Hl];
        case_decide; naive_solver.
    + destruct (String.eqb_spec (EdgeLabel edge) NoAlertLabel) as [Hl|Hl];
        case_decide; naive_solver.
  - case_decide; naive_solver.
Qed.

Lemma routeEdge_first id b edges target :
  routeEdge id b edges = Some target <->
  exists before edge after,
    edges = (before ++ edge :: after)%list /\
    Forall (fun e => ~ answers id b e) before /\
    answers id b edge /\ Target edge = target.
Proof.
  induction edges as [|e edges IH].
  - simpl. split; [done|]. intros (before & edge & after & Heq & _).
    by destruct before.
  - rewrite routeEdge_cons. case_decide as Hans.
    + split.
      * intros [= <-]. exists [], e, edges.
        split; [done|]. split; [constructor|]. by split.
      * intros (before & edge & after & Heq & Hbefore & Hedge & <-).
        destruct before as [|e' before]; simpl in Heq; inversion Heq; subst; [done|].
        by apply Forall_cons in Hbefore as [Hno _].
    + rewrite IH. split.
      * intros (before & edge & after & -> & Hbefore & Hedge & <-).
        exists (e :: before), edge, after.
        split; [done|]. split; [by constructor|]. by split.
      * intros (before & edge & after & Heq & Hbefore & Hedge & <-).
        destruct before as [|e' before]; simpl in Heq; inversion Heq; subst; [done|].
        apply Forall_cons in Hbefore as [_ Hbefore]. eauto 10.
Qed.

(** ** The temperature in the email draft *)

(** Where an element sits in a list that ends with another. *)
Lemma snoc_eq_middle {A} (l before after : list A) (x s : A) :
  (l ++ [x])%list = (before ++ s :: after)%list ->
  (after = [] /\ before = l /\ s = x) \/
  (exists after', after = (after' ++ [x])%list /\ l = (before ++ s :: after')%list).
Proof.
  destruct after as [|y after' _] using rev_ind.
  - intros Heq. apply app_inj_tail in Heq as [-> ->]. by left.
  - intros Heq. right. exists after'.
    rewrite app_comm_cons, app_assoc in Heq. apply app_inj_tail in Heq as [-> ->]. done.
Qed.

Section Email.
Context (w : World) (h : Handlers).
Context (wf : WorkflowDefinition) (payload : ExecutePayload).

(** One step appended for a node marked for the first time; the context
    map changes for the weather node at most. *)
Lemma emailFlow_step st node ctx status out :
  wellFormed st -> emailFlow w wf payload st -> ID node ∉ visited st ->
  (ID node <> WeatherAPINodeID -> ctx = contextData st) ->
  (ID node = EmailNodeID -> status = StatusCompleted ->
     exists template stamp d,
       nodeMap wf !! EmailNodeID = Some node /\
       MetaEmailTemplate (Metadata (Data node)) = Some template /\
       out = emailOutput
               (emailDraft w payload template (ctxValue (contextData st) TemperatureKey) stamp)
               d) ->
  emailFlow w wf payload (appendStep (setContext ctx (markVisited (ID node) st)) node status out).
Proof.
  intros Hwf [Hempty Hemail] Hnot Hctx Hout. split; simpl.
  - intros Hno.
    assert (ID node <> WeatherAPINodeID) as Hne.
    { apply (Hno (stepOf node status out)). apply elem_of_app. right. left. }
    rewrite (Hctx Hne). apply Hempty. intros s Hs. apply Hno. apply elem_of_app. by left.
  - intros before s after Heq Hid Hstatus.
    apply snoc_eq_middle in Heq as [(-> & -> & ->)|(after' & -> & Hsteps)].
    + simpl in Hid, Hstatus.
      destruct (Hout Hid Hstatus) as (template & stamp & d & Hnode & Htemplate & ->).
      assert (ctx = contextData st) as -> by (apply Hctx; rewrite Hid; discriminate).
      exists node, template, stamp, d, (ctxValue (contextData st) TemperatureKey).
      repeat split; try done.
      intros Hno. by rewrite (Hempty Hno).
    + destruct (Hemail before s after' Hsteps Hid Hstatus)
        as (node' & template & stamp & d & v & Hnode & Htemplate & Houtput & Hafter & Hnone).
      exists node', template, stamp, d, v. repeat split; try done.
      intros (sw & Hsw & Hweather).
      destruct (decide (ID node = WeatherAPINodeID)) as [Heq|Hne].
      * destruct Hnot. rewrite Heq, <- Hweather. apply wellFormed_step_visited; [done|].
        rewrite Hsteps. apply elem_of_app. by left.
      * rewrite (Hctx Hne). apply Hafter. eauto.
Qed.

Lemma emailFlow_switch id st node :
  id ∉ visited st -> ID node = id -> nodeMap wf !! id = Some node ->
  wellFormed st -> emailFlow w wf payload st ->
  emailFlow w wf payload (branchState (switchNode w h payload node (markVisited id st))).
Proof.
  intros Hnot Hid Hnode Hwf Hflow. subst id.
  unfold switchNode. destruct (selectedCase node) as [kind|] eqn:Hcase; [|done].
  unfold selectedCase in Hcase. apply switchCase_Some in Hcase.
  assert (forall status out,
    ID node <> WeatherAPINodeID ->
    (ID node = EmailNodeID -> status = StatusCompleted ->
       exists template stamp d,
         nodeMap wf !! EmailNodeID = Some node /\
         MetaEmailTemplate (Metadata (Data node)) = Some template /\
         out = emailOutput
                 (emailDraft w payload template (ctxValue (contextData st) TemperatureKey) stamp)
                 d) ->
    emailFlow w wf payload (appendStep (markVisited (ID node) st) node status out)) as Hplain.
  { intros status out Hne Hout.
    rewrite <- (setContext_same (markVisited (ID node) st)).
    by apply emailFlow_step. }
  destruct kind; simpl in Hcase.
  - simpl. apply Hplain; rewrite Hcase; [discriminate|]. intros Heq. discriminate Heq.
  - simpl. apply Hplain; rewrite Hcase; [discriminate|]. intros Heq. discriminate Heq.
  - destruct (processFormNode node payload); simpl;
      (apply Hplain; rewrite Hcase; [discriminate|]; intros Heq; discriminate Heq).
  - destruct (processWeatherNodeFn h node payload (contextData (markVisited (ID node) st)))
      as [ctx [err|]]; simpl;
      (apply emailFlow_step;
         first [done | rewrite Hcase; first [done | intros Heq; discriminate Heq]]).
  - destruct (processConditionNode node payload (contextData (markVisited (ID node) st)))
      as [b [err|]]; simpl.
    + apply Hplain; rewrite Hcase; [discriminate|]. intros Heq. discriminate Heq.
    + destruct (ctxValue (contextData st) TemperatureKey); simpl; try done;
        (apply Hplain; rewrite Hcase; [discriminate|]; intros Heq; discriminate Heq).
  - destruct (processEmailNodeFn h node payload); simpl.
    + apply Hplain; [rewrite Hcase; discriminate|]. intros _ Hstatus. discriminate Hstatus.
    + destruct (MetaEmailTemplate (Metadata (Data node))) as [template|] eqn:Htemplate;
        simpl; [|done].
      apply Hplain; [rewrite Hcase; discriminate|]. intros _ _.
      exists template, (timestamp w (length (steps st))), (duration w (markVisited (ID node) st)).
      split; [by rewrite <- Hcase|]. done.
Qed.

Lemma traverse_emailFlow fuel id st st' o :
  traverse w h wf payload fuel id st = Some (st', o) ->
  wellFormed st /\ emailFlow w wf payload st ->
  wellFormed st' /\ emailFlow w wf payload st'.
Proof.
  apply (traverse_rule w h wf payload
           (fun st st' _ => wellFormed st /\ emailFlow w wf payload st ->
                            wellFormed st' /\ emailFlow w wf payload st')).
  - done.
  - auto.
  - intros id0 st0 Hnot _ [Hwf Hflow]. split; [by apply wellFormed_mark|done].
  - intros id0 st0 node st1 Hnot Hnode Hswitch [Hwf Hflow].
    pose proof (nodeMap_lookup_ID _ _ _ Hnode) as Hid.
    pose proof (wellFormed_switch w h payload id0 st0 node Hnot Hid Hwf) as H1.
    pose proof (emailFlow_switch id0 st0 node Hnot Hid Hnode Hwf Hflow) as H2.
    by rewrite Hswitch in H1, H2.
  - intros id0 st0 node st1 Hnot Hnode Hswitch [Hwf Hflow].
    pose proof (nodeMap_lookup_ID _ _ _ Hnode) as Hid.
    pose proof (wellFormed_switch w h payload id0 st0 node Hnot Hid Hwf) as H1.
    pose proof (emailFlow_switch id0 st0 node Hnot Hid Hnode Hwf Hflow) as H2.
    by rewrite Hswitch in H1, H2.
  - intros id0 st0 node st1 Hnot Hnode Hswitch [Hwf Hflow].
    pose proof (nodeMap_lookup_ID _ _ _ Hnode) as Hid.
    pose proof (wellFormed_switch w h payload id0 st0 node Hnot Hid Hwf) as H1.
    pose proof (emailFlow_switch id0 st0 node Hnot Hid Hnode Hwf Hflow) as H2.
    by rewrite Hswitch in H1, H2.
  - intros id0 st0 node st1 b Hnot Hnode Hswitch _ [Hwf Hflow].
    pose proof (nodeMap_lookup_ID _ _ _ Hnode) as Hid.
    pose proof (wellFormed_switch w h payload id0 st0 node Hnot Hid Hwf) as H1.
    pose proof (emailFlow_switch id0 st0 node Hnot Hid Hnode Hwf Hflow) as H2.
    by rewrite Hswitch in H1, H2.
  - intros id0 st0 node st1 b target st2 o0 Hnot Hnode Hswitch _ Hinner [Hwf Hflow].
    apply Hinner.
    pose proof (nodeMap_lookup_ID _ _ _ Hnode) as Hid.
    pose proof (wellFormed_switch w h payload id0 st0 node Hnot Hid Hwf) as H1.
    pose proof (emailFlow_switch id0 st0 node Hnot Hid Hnode Hwf Hflow) as H2.
    by rewrite Hswitch in H1, H2.
Qed.

End Email.

(** ** The order of the nodes *)

(** Among nodes of pairwise distinct ids, the id tells the node. *)
Lemma node_unique (l : list Node) node node' :
  NoDup (ID <$> l) -> node ∈ l -> node' ∈ l -> ID node = ID node' -> node = node'.
Proof.
  induction l as [|x l IH]; simpl; intros Hnodup Hn Hn' Hid; [inversion Hn|].
  apply NoDup_cons in Hnodup as [Hx Hnodup].
  apply elem_of_cons in Hn as [->|Hn], Hn' as [->|Hn']; try done.
  - destruct Hx. rewrite Hid. apply list_elem_of_fmap. eauto.
  - destruct Hx. rewrite <- Hid. apply list_elem_of_fmap. eauto.
  - by apply IH.
Qed.

(** With distinct ids the node map holds exactly the nodes of the list. *)
Lemma nodeMap_lookup_NoDup wf id node :
  NoDup (ID <$> Nodes wf) ->
  nodeMap wf !! id = Some node <-> node ∈ Nodes wf /\ ID node = id.
Proof.
  intros Hnodup. split; [apply nodeMap_lookup_Some|].
  intros [Hin Hid].
  destruct (proj2 (nodeMap_lookup_is_Some wf id)) as [node' Hnode']; [eauto|].
  destruct (nodeMap_lookup_Some _ _ _ Hnode') as [Hin' Hid'].
  rewrite Hnode'. f_equal. apply (node_unique (Nodes wf)); congruence.
Qed.

Lemma nodeMap_Permutation wf wf' :
  NoDup (ID <$> Nodes wf) -> Nodes wf' ≡ₚ Nodes wf -> nodeMap wf' = nodeMap wf.
Proof.
  intros Hnodup Hperm.
  assert (NoDup (ID <$> Nodes wf')) as Hnodup' by (by rewrite Hperm).
  apply map_eq. intros id. apply option_eq. intros node.
  rewrite !nodeMap_lookup_NoDup by done. by rewrite Hperm.
Qed.

Section Extensional.
Context (w : World) (h : Handlers) (payload : ExecutePayload).
Context (wf wf' : WorkflowDefinition).
Hypothesis same_nodes : nodeMap wf' = nodeMap wf.
Hypothesis same_edges : Edges wf' = Edges wf.

Lemma forEachNext_ext (call call' : string -> State -> option (State * Outcome)) :
  (forall id st, call' id st = call id st) ->
  forall targets st, forEachNext call' targets st = forEachNext call targets st.
Proof.
  intros Hcall targets. induction targets as [|next rest IH]; intros st; simpl; [done|].
  rewrite Hcall. destruct (call next st) as [[st1 [[err|]|]]|]; auto.
Qed.

(** [traverse] reads the workflow through the node map and the edges. *)
Lemma traverse_ext fuel id st :
  traverse w h wf' payload fuel id st = traverse w h wf payload fuel id st.
Proof.
  revert id st. induction fuel as [|fuel IH]; intros id st; [done|]. simpl.
  rewrite same_nodes, same_edges.
  assert (adj wf' = adj wf) as -> by (unfold adj; by rewrite same_edges).
  destruct (bool_decide (id ∈ visited st)); [done|].
  destruct (nodeMap wf !! id) as [node|]; [|done].
  destruct (switchNode w h payload node (markVisited id st)) as [st1|st1|st1 b|st1]; try done.
  - by destruct (routeEdge (ID node) b (Edges wf)).
  - by apply forEachNext_ext.
Qed.

Lemma processNodes_ext : processNodes w h wf' payload = processNodes w h wf payload.
Proof.
  unfold processNodes. rewrite same_nodes.
  assert (enoughFuel wf' = enoughFuel wf) as -> by (unfold enoughFuel; by rewrite same_edges).
  by rewrite traverse_ext.
Qed.

End Extensional.

(** ** The error a failed step records *)

(** Only the weather handler writes the context map. *)
Lemma handlerCall_context h payload node ctx :
  ID node <> WeatherAPINodeID -> fst (handlerCall h payload node ctx) = ctx.
Proof.
  intros Hne. unfold handlerCall, selectedCase.
  destruct (switchCase (ID node)) as [kind|] eqn:Hkind; [|done].
  apply switchCase_Some in Hkind. destruct kind; simpl in *; done.
Qed.

(** The handlers whose call can return an error. *)
Lemma handlerCall_fallible h payload node ctx err :
  snd (handlerCall h payload node ctx) = Some err -> ID node ∈ fallible.
Proof.
  unfold handlerCall, selectedCase, fallible.
  destruct (switchCase (ID node)) as [kind|] eqn:Hkind; [|done].
  apply switchCase_Some in Hkind. rewrite Hkind.
  destruct kind; simpl; try done; intros _; set_solver.
Qed.

Section Failure.
Context (w : World) (h : Handlers).
Context (wf : WorkflowDefinition) (payload : ExecutePayload).

(** The context map at the moment a new step is recorded is the one of
    the state before the handler ran. *)
Lemma contextBefore_now st node ctx :
  wellFormed st -> failureFlow w h wf payload st -> ID node ∉ visited st ->
  (ID node <> WeatherAPINodeID -> ctx = contextData st) ->
  (if bool_decide (WeatherAPINodeID ∈ NodeID <$> steps st) then ctx else ∅) = contextData st.
Proof.
  intros Hwf [Hempty _] Hnot Hctx. case_bool_decide as Hin.
  - apply Hctx. intros Heq. apply Hnot. rewrite Heq.
    apply list_elem_of_fmap in Hin as (sw & -> & Hsw). by apply wellFormed_step_visited.
  - symmetry. apply Hempty. intros s Hs Heq. apply Hin. rewrite <- Heq.
    apply list_elem_of_fmap. eauto.
Qed.

(** One step appended for a node marked for the first time; the context
    map changes for the weather node at most. *)
Lemma failureFlow_step st node ctx status out :
  wellFormed st -> failureFlow w h wf payload st -> ID node ∉ visited st ->
  nodeMap wf !! ID node = Some node ->
  (ID node <> WeatherAPINodeID -> ctx = contextData st) ->
  (status = StatusFailed ->
     exists err, snd (handlerCall h payload node (contextData st)) = Some err /\
       out = failedOutput err (duration w st)) ->
  failureFlow w h wf payload
    (appendStep (setContext ctx (markVisited (ID node) st)) node status out).
Proof.
  intros Hwf Hflow Hnot Hnode Hctx Hout.
  pose proof (contextBefore_now st node ctx Hwf Hflow Hnot Hctx) as Hnow.
  destruct Hflow as [Hempty Hfailed]. split; simpl.
  - intros Hno.
    assert (ID node <> WeatherAPINodeID) as Hne.
    { apply (Hno (stepOf node status out)). apply elem_of_app. right. left. }
    rewrite (Hctx Hne). apply Hempty. intros s Hs. apply Hno. apply elem_of_app. by left.
  - intros before s after Heq Hstatus.
    apply snoc_eq_middle in Heq as [(-> & -> & ->)|(after' & -> & Hsteps)].
    + simpl in Hstatus. destruct (Hout Hstatus) as (err & Hcall & ->).
      exists node, err. split; [exact Hnode|]. split; [|reflexivity].
      unfold contextBefore. simpl. by rewrite Hnow.
    + destruct (Hfailed before s after' Hsteps Hstatus) as (node' & err & Hnode' & Hcall & Houtput).
      exists node', err. split; [done|]. split; [|done].
      rewrite <- Hcall. f_equal. f_equal. unfold contextBefore. simpl.
      destruct (bool_decide (WeatherAPINodeID ∈ NodeID <$> before)) eqn:Hin; [|done].
      apply bool_decide_eq_true in Hin. apply Hctx. intros Heq. apply Hnot. rewrite Heq.
      apply list_elem_of_fmap in Hin as (sw & -> & Hsw). apply wellFormed_step_visited; [done|].
      rewrite Hsteps. apply elem_of_app. by left.
Qed.

Lemma failureFlow_switch id st node :
  id ∉ visited st -> ID node = id -> nodeMap wf !! id = Some node ->
  wellFormed st -> failureFlow w h wf payload st ->
  failureFlow w h wf payload (branchState (switchNode w h payload node (markVisited id st))).
Proof.
  intros Hnot Hid Hnode Hwf Hflow. subst id.
  destruct (switchNode_spec w h payload node (markVisited (ID node) st))
    as [Hcase|ctx err Hcall|kind ctx out Hcase Hkind Hcall Htemplate Hout
        |b out Hcase Hcond Hmet Hout|Hcase Hemail Htemplate]; simpl.
  - exact Hflow.
  - apply failureFlow_step; try done.
    + intros Hne. pose proof (handlerCall_context h payload node (contextData st) Hne) as Hfst.
      simpl in Hcall. by rewrite Hcall in Hfst.
    + intros _. exists err. simpl in Hcall. by rewrite Hcall.
  - apply failureFlow_step; try done.
    intros Hne. pose proof (handlerCall_context h payload node (contextData st) Hne) as Hfst.
    simpl in Hcall. by rewrite Hcall in Hfst.
  - rewrite <- (setContext_same (markVisited (ID node) st)).
    apply failureFlow_step; try done.
  - exact Hflow.
Qed.

(** Every call keeps the failed steps tied to the errors of the run. *)
Lemma traverse_failureFlow fuel id st st' o :
  traverse w h wf payload fuel id st = Some (st', o) ->
  wellFormed st /\ failureFlow w h wf payload st ->
  wellFormed st' /\ failureFlow w h wf payload st'.
Proof.
  intros Hrun.
  apply (traverse_invariant w h wf payload (fun _ => True)
           (fun st => wellFormed st /\ failureFlow w h wf payload st)) with fuel id o;
    try done.
  - intros id0 st0 _ Hnot _ [Hwf Hflow]. split; [by apply wellFormed_mark|exact Hflow].
  - intros id0 st0 node _ Hnot Hnode Hid [Hwf Hflow]. split.
    + by apply wellFormed_switch.
    + by apply failureFlow_switch.
Qed.

End Failure.

(** * Properties of the package beyond the specification, X1 to X22 *)

(** ** The traversal *)

(** X1: the two indexes processNodes builds. Under an id the node map
    holds the last node of the list that carries it (a later node
    overwrites an earlier one of the same id); the adjacency map gives
    for an id the targets of the edges leaving it, in the order the
    edges are declared and with repetitions, and has no entry exactly
    for the ids no edge leaves. *)
Theorem X1_index_semantics :
  forall wf id,
    nodeMap wf !! id = last (filter (fun node => ID node = id) (Nodes wf)) /\
    default [] (adj wf !! id)
      = Target <$> filter (fun edge => Source edge = id) (Edges wf) /\
    (adj wf !! id = None <-> forall edge, edge ∈ Edges wf -> Source edge <> id).
Proof.
  intros wf id. split; [apply nodeMap_last|]. split; [apply adj_lookup|].
  rewrite adj_lookup_None. split.
  - intros Hnil edge Hin Hsrc.
    assert (Target edge ∈ outgoing wf id) as Hout.
    { unfold outgoing. apply list_elem_of_fmap. exists edge. split; [done|].
      by apply list_elem_of_filter. }
    rewrite Hnil in Hout. inversion Hout.
  - intros Hall. destruct (outgoing wf id) as [|target rest] eqn:Hout; [done|].
    destruct (outgoing_target wf id target) as (edge & Hin & Hsrc & _).
    { rewrite Hout. left. }
    by destruct (Hall edge Hin).
Qed.

(** X2: every step of a result is the copy appendStep makes of a node of
    the workflow: its node id, type, label and description are those of
    the last node of the list with that id. *)
Theorem X2_step_provenance :
  forall w h wf payload res err s,
    processNodes w h wf payload = Some (Return (Some res) err) ->
    s ∈ Steps res ->
    exists node,
      last (nodesWithID wf (NodeID s)) = Some node /\ node ∈ Nodes wf /\
      NodeID s = ID node /\ StepType s = NodeType node /\
      StepLabel s = Label (Data node) /\ StepDescription s = Description (Data node).
Proof.
  intros w h wf payload res err s Hrun Hin.
  apply processNodes_steps in Hrun as (_ & st & o & Htrav & Hsteps & _).
  rewrite Hsteps in Hin.
  pose proof (traverse_stepOfNode _ _ _ _ _ _ _ _ _ Htrav (Forall_nil_2 _)) as Hall.
  destruct (proj1 (Forall_forall _ _) Hall s Hin) as (node & Hnode & Hs).
  exists node. split; [by rewrite <- nodeMap_last|].
  split; [by destruct (nodeMap_lookup_Some _ _ _ Hnode)|].
  by rewrite Hs.
Qed.

Lemma X2_step_provenance_witness :
  exists node,
    last (nodesWithID twinWorkflow FormNodeID) = Some node /\ node ∈ Nodes twinWorkflow /\
    FormNodeID = ID node /\ "form" = NodeType node /\
    "second" = Label (Data node) /\ EmptyString = Description (Data node).
Proof.
  eapply (X2_step_provenance testWorld mockHandlers twinWorkflow emptyPayload _ _
            (stepOf relabelled StatusFailed (failedOutput ErrMissingFormFieldName 0))).
  - reflexivity.
  - right. left.
Defined.

(** X3: a result never holds more than six steps, however many nodes
    and edges the workflow has, and never more steps than the workflow
    has nodes. *)
Theorem X3_step_count :
  forall w h wf payload res err,
    processNodes w h wf payload = Some (Return (Some res) err) ->
    length (Steps res) <= 6 /\ length (Steps res) <= length (Nodes wf).
Proof.
  intros w h wf payload res err Hrun.
  apply processNodes_steps in Hrun as (_ & st & o & Htrav & Hsteps & _).
  pose proof (traverse_wellFormed _ _ _ _ _ _ _ _ _ Htrav (wellFormed_initial))
    as (Hnodup & Hsub & _ & _ & Hcases).
  pose proof (traverse_stepOfNode _ _ _ _ _ _ _ _ _ Htrav (Forall_nil_2 _)) as Hnodes.
  assert (NoDup (NodeID <$> steps st)) as Hids by (by eapply sublist_NoDup).
  rewrite Hsteps, <- (length_fmap NodeID). split.
  - change 6 with (length (caseID <$> [KStart; KEnd; KForm; KWeather; KCondition; KEmail])).
    apply submseteq_length, NoDup_submseteq; [done|].
    intros x Hx. apply list_elem_of_fmap in Hx as (s & -> & Hs).
    destruct (proj1 (Forall_forall _ _) Hcases s Hs) as [kind Hkind].
    apply switchCase_Some in Hkind. rewrite Hkind.
    apply list_elem_of_fmap. exists kind. split; [done|]. destruct kind; set_solver.
  - rewrite <- (length_fmap ID (Nodes wf)).
    apply submseteq_length, NoDup_submseteq; [done|].
    intros x Hx. apply list_elem_of_fmap in Hx as (s & -> & Hs).
    destruct (proj1 (Forall_forall _ _) Hnodes s Hs) as (node & Hnode & _).
    destruct (nodeMap_lookup_Some _ _ _ Hnode) as [Hin Hid].
    apply list_elem_of_fmap. eauto.
Qed.

Lemma X3_step_count_witness :
  exists res,
    processNodes testWorld mockHandlers fullWorkflow happyPayload
      = Some (Return (Some res) None) /\
    length (Steps res) <= 6 /\ length (Steps res) <= length (Nodes fullWorkflow).
Proof.
  eexists. split; [reflexivity|].
  apply (X3_step_count testWorld mockHandlers fullWorkflow happyPayload _ None).
  reflexivity.
Defined.

(** X4: the first step of every result is the completed step of the
    start node, with the elapsed time as its only output. *)
Theorem X4_start_step_first :
  forall w h wf payload res err,
    processNodes w h wf payload = Some (Return (Some res) err) ->
    exists startNode rest,
      last (nodesWithID wf StartNodeID) = Some startNode /\
      Steps res
      = stepOf startNode StatusCompleted {[ "duration" := VInt (elapsedMs w 0) ]} :: rest.
Proof.
  intros w h wf payload res err Hrun.
  apply processNodes_steps in Hrun as ([[startNode Hstart] _] & st & o & Htrav & Hsteps & _).
  destruct (traversal_start _ _ _ _ _ _ _ Hstart Htrav) as [rest Hrest].
  exists startNode, rest. split; [by rewrite <- nodeMap_last|].
  by rewrite Hsteps, Hrest.
Qed.

Lemma X4_start_step_first_witness :
  exists res,
    processNodes testWorld mockHandlers fanOutWorkflow emptyPayload
      = Some (Return (Some res) None) /\
    exists startNode rest,
      last (nodesWithID fanOutWorkflow StartNodeID) = Some startNode /\
      Steps res = stepOf startNode StatusCompleted {[ "duration" := VInt 0 ]} :: rest.
Proof.
  eexists. split; [reflexivity|].
  apply (X4_start_step_first testWorld mockHandlers fanOutWorkflow emptyPayload _ None).
  reflexivity.
Defined.

(** X5: a failed step belongs to a form, weather-api, condition or
    email node (the start and end handlers cannot fail), and it records
    the error the handler of its node returned in this very run: the
    handler called on the node the node map holds under the id of the
    step, with the payload of the run and the context map of that
    moment, which is the empty map when no weather step precedes the
    step and the map the traversal ends with when one does. Its output
    is the message of that error and the elapsed time read when the
    step was recorded, nothing else. So a failed form step records the
    error of processFormNode, a failed weather step that of the weather
    handler on the empty map, a failed condition step that of
    processConditionNode on the map of that moment; and with an email
    handler that returns nil, as the initial one, no email step fails. *)
Theorem X5_failed_steps :
  forall w h wf payload res err before s after,
    processNodes w h wf payload = Some (Return (Some res) err) ->
    Steps res = (before ++ s :: after)%list -> Status s = StatusFailed ->
    NodeID s ∈ [FormNodeID; WeatherAPINodeID; ConditionNodeID; EmailNodeID] /\
    (exists st o node e,
       traversal w h wf payload = Some (st, o) /\ Steps res = steps st /\
       nodeMap wf !! NodeID s = Some node /\
       snd (handlerCall h payload node
              (if bool_decide (WeatherAPINodeID ∈ NodeID <$> before)
               then contextData st else ∅)) = Some e /\
       Output s = {[ "error" := VStr (Error e);
                     "duration" := VInt (elapsedMs w (length before)) ]} /\
       (NodeID s = FormNodeID -> processFormNode node payload = Some e) /\
       (NodeID s = WeatherAPINodeID ->
        snd (processWeatherNodeFn h node payload ∅) = Some e) /\
       (NodeID s = ConditionNodeID ->
        snd (processConditionNode node payload
               (if bool_decide (WeatherAPINodeID ∈ NodeID <$> before)
                then contextData st else ∅)) = Some e)) /\
    ((forall node, processEmailNodeFn h node payload = None) -> NodeID s <> EmailNodeID).
Proof.
  intros w h wf payload res err before s after Hrun Heq Hfailed.
  apply processNodes_steps in Hrun as (_ & st & o & Htrav & Hsteps & _).
  rewrite Hsteps in Heq.
  destruct (traverse_failureFlow _ _ _ _ _ _ _ _ _ Htrav) as (Hwf & _ & Hflow).
  { split; [apply wellFormed_initial|]. split; [done|].
    intros before0 s0 after0 Hnil. by destruct before0. }
  destruct (Hflow before s after Heq Hfailed) as (node & e & Hnode & Hcall & Hout).
  pose proof (nodeMap_lookup_ID _ _ _ Hnode) as Hid.
  unfold contextBefore in Hcall.
  assert (NodeID s = WeatherAPINodeID ->
          bool_decide (WeatherAPINodeID ∈ NodeID <$> before) = false) as Hfirst.
  { intros Hw. apply bool_decide_eq_false_2. intros Hin.
    destruct Hwf as (Hnodup & Hsub & _).
    pose proof (sublist_NoDup _ _ Hnodup Hsub) as Hids.
    rewrite Heq, fmap_app, fmap_cons in Hids.
    apply NoDup_app in Hids as (_ & Hdisjoint & _).
    apply (Hdisjoint _ Hin). rewrite Hw. left. }
  split; [|split].
  - rewrite <- Hid. apply (handlerCall_fallible _ _ _ _ _ Hcall).
  - exists st, o, node, e. repeat split; try done.
    + intros Hform. unfold handlerCall, selectedCase in Hcall.
      rewrite Hid, Hform in Hcall. exact Hcall.
    + intros Hw. rewrite (Hfirst Hw) in Hcall. unfold handlerCall, selectedCase in Hcall.
      rewrite Hid, Hw in Hcall. exact Hcall.
    + intros Hcond. unfold handlerCall, selectedCase in Hcall.
      rewrite Hid, Hcond in Hcall. exact Hcall.
  - intros Hemail Hmail. unfold handlerCall, selectedCase in Hcall.
    rewrite Hid, Hmail in Hcall. simpl in Hcall. rewrite Hemail in Hcall. discriminate Hcall.
Qed.

Lemma X5_failed_steps_witness :
  exists res before s,
    processNodes testWorld mockHandlers routedWorkflow unsupportedPayload
    = Some (Return (Some res) None) /\
    Steps res = (before ++ [s])%list /\
    (NodeID <$> before) = [StartNodeID; FormNodeID; WeatherAPINodeID] /\
    s = stepOf (plainNode ConditionNodeID "condition") StatusFailed
          (failedOutput (Errorf "unsupported operator: foo") 0) /\
    NodeID s ∈ [FormNodeID; WeatherAPINodeID; ConditionNodeID; EmailNodeID] /\
    (exists st o node e,
       traversal testWorld mockHandlers routedWorkflow unsupportedPayload = Some (st, o) /\
       Steps res = steps st /\
       nodeMap routedWorkflow !! NodeID s = Some node /\
       snd (handlerCall mockHandlers unsupportedPayload node
              (if bool_decide (WeatherAPINodeID ∈ NodeID <$> before)
               then contextData st else ∅)) = Some e /\
       Output s = {[ "error" := VStr (Error e);
                     "duration" := VInt (elapsedMs testWorld (length before)) ]} /\
       (NodeID s = FormNodeID -> processFormNode node unsupportedPayload = Some e) /\
       (NodeID s = WeatherAPINodeID ->
        snd (processWeatherNodeFn mockHandlers node unsupportedPayload ∅) = Some e) /\
       (NodeID s = ConditionNodeID ->
        snd (processConditionNode node unsupportedPayload
               (if bool_decide (WeatherAPINodeID ∈ NodeID <$> before)
                then contextData st else ∅)) = Some e)) /\
    ((forall node, processEmailNodeFn mockHandlers node unsupportedPayload = None) ->
     NodeID s <> EmailNodeID).
Proof.
  eexists _, [_; _; _], _. split; [reflexivity|]. split; [reflexivity|].
  split; [reflexivity|]. split; [reflexivity|].
  eapply (X5_failed_steps testWorld mockHandlers routedWorkflow unsupportedPayload
            _ None _ _ []); reflexivity.
Defined.

(** X6: only nodes that a path of followed edges leads to from the
    start node are executed, in every run, failed or not. An edge
    leaving the condition node is followed when it is the one the
    routing loop finds for the outcome the condition step records, any
    other edge when its source has no failed step; so no step belongs to
    a node that lies only behind a failed node or only on the branch the
    condition did not take, and every step belongs to a node reachable
    from "start" along wf.Edges. *)
Theorem X6_only_followed_edges :
  forall w h wf payload res err s,
    processNodes w h wf payload = Some (Return (Some res) err) ->
    s ∈ Steps res ->
    executedFrom wf (Steps res) (NodeID s) /\ reachable wf (NodeID s).
Proof.
  intros w h wf payload res err s Hrun Hin.
  apply processNodes_steps in Hrun as (_ & st & o & Htrav & Hsteps & _).
  rewrite Hsteps in *.
  pose proof (traverse_wellFormed _ _ _ _ _ _ _ _ _ Htrav (wellFormed_initial)) as Hwf.
  assert (executedFrom wf (steps st) (NodeID s)) as Hexec.
  { pose proof Hwf as (Hnodup & Hsub & _ & _ & Hcases).
    assert (NoDup (NodeID <$> steps st)) as Hids by (by eapply sublist_NoDup).
    apply (traverse_followed w h wf payload (steps st) Hids Hcases _ _ _ _ _ Htrav).
    - done.
    - apply executed_start.
    - intros x Hx. inversion Hx.
    - by apply wellFormed_step_visited. }
  split; [done|]. by eapply executedFrom_reachable.
Qed.

Lemma X6_only_followed_edges_witness :
  exists res,
    processNodes testWorld mockHandlers formWorkflow emptyPayload
      = Some (Return (Some res) None) /\
    executedFrom formWorkflow (Steps res) FormNodeID /\ reachable formWorkflow FormNodeID.
Proof.
  eexists. split; [reflexivity|].
  apply (X6_only_followed_edges testWorld mockHandlers formWorkflow emptyPayload _ None
           (stepOf (plainNode FormNodeID "form") StatusFailed
              (failedOutput ErrMissingFormFieldName 0))).
  - reflexivity.
  - right. left.
Defined.

(** X7: on a workflow with a start and an end node, whose edges all
    lead to declared nodes, whose condition node (if any) has an edge
    labelled for either outcome and whose email node (if any) has a
    template, processNodes returns a result of status "completed" and
    no error, whatever the payload, the handlers and their failures. *)
Theorem X7_sound_workflow_completes :
  forall w h wf payload,
    validated wf -> closedWorkflow wf -> routable wf -> templated wf ->
    exists res,
      processNodes w h wf payload = Some (Return (Some res) None) /\
      ResultStatus res = StatusCompleted.
Proof. intros w h wf payload. apply processNodes_sound. Qed.

Lemma X7_sound_workflow_completes_witness :
  exists res,
    processNodes testWorld mockHandlers routedWorkflow happyPayload
      = Some (Return (Some res) None) /\
    ResultStatus res = StatusCompleted.
Proof.
  apply (X7_sound_workflow_completes testWorld mockHandlers routedWorkflow happyPayload).
  - split; eexists; reflexivity.
  - intros edge Hin. apply list_elem_of_In in Hin. simpl in Hin.
    destruct Hin as [<-|[<-|[<-|[<-|[<-|[<-|[]]]]]]];
      apply nodeMap_lookup_is_Some; eexists; reflexivity.
  - intros _ [|].
    + exists (plainEdge ConditionNodeID EmailNodeID ConditionMetLabel).
      split; [do 3 right; left|split; reflexivity].
    + exists (plainEdge ConditionNodeID EndNodeID NoAlertLabel).
      split; [do 5 right; left|split; reflexivity].
  - intros node [= <-]. eexists. reflexivity.
Defined.

(** X8: an error returned together with a result tells its cause. It
    is either "node X not found in nodeMap" for the target X of an edge
    that no node of the workflow carries as id, or "no matching
    conditional edge for node condition", and then the last step of the
    result is the completed step of the condition node and no edge
    leaving that node carries the label of its outcome. *)
Theorem X8_error_diagnosis :
  forall w h wf payload res e,
    processNodes w h wf payload = Some (Return (Some res) (Some e)) ->
    (exists edge, edge ∈ Edges wf /\ e = errNodeNotFound (Target edge) /\
       forall node, node ∈ Nodes wf -> ID node <> Target edge) \/
    (e = errNoMatchingEdge ConditionNodeID /\
     exists s b, last (Steps res) = Some s /\ conditionStep s b /\
       forall edge, edge ∈ Edges wf -> ~ answers ConditionNodeID b edge).
Proof.
  intros w h wf payload res e Hrun.
  apply processNodes_steps in Hrun as ([Hstart _] & st & o & Htrav & Hsteps & ->).
  destruct (traverse_diagnosis _ _ _ _ _ _ _ _ _ e (or_introl eq_refl) Htrav eq_refl)
    as [(id' & -> & Hcalled & Hnone & _)|(-> & _ & s & b & Hlast & Hstep & Hroute)].
  - left. destruct Hcalled as [->|(edge & Hin & <-)].
    + destruct Hstart as [node Hnode]. congruence.
    + exists edge. split; [done|]. split; [done|]. by apply nodeMap_lookup_None.
  - right. split; [done|]. exists s, b. rewrite Hsteps. split; [done|]. split; [done|].
    intros edge Hin [Hsrc Hlabel]. by apply (proj1 (routeEdge_None _ _ _) Hroute edge).
Qed.

Lemma X8_error_diagnosis_witness :
  exists res e,
    processNodes testWorld mockHandlers ghostWorkflow emptyPayload
      = Some (Return (Some res) (Some e)) /\
    ((exists edge, edge ∈ Edges ghostWorkflow /\ e = errNodeNotFound (Target edge) /\
        forall node, node ∈ Nodes ghostWorkflow -> ID node <> Target edge) \/
     (e = errNoMatchingEdge ConditionNodeID /\
      exists s b, last (Steps res) = Some s /\ conditionStep s b /\
        forall edge, edge ∈ Edges ghostWorkflow -> ~ answers ConditionNodeID b edge)).
Proof.
  eexists _, _. split; [reflexivity|].
  apply (X8_error_diagnosis testWorld mockHandlers ghostWorkflow emptyPayload).
  reflexivity.
Defined.

(** X9: the temperature flows from the weather step to the condition
    step. A completed condition step of a result shows as "actualValue"
    a float, as "conditionMet" what the condition handler makes of that
    float with the operator and threshold of the payload, and every
    completed weather step of the same result shows that very float as
    "temperature". *)
Theorem X9_temperature_flow :
  forall w h wf payload res err sc,
    processNodes w h wf payload = Some (Return (Some res) err) ->
    sc ∈ Steps res -> NodeID sc = ConditionNodeID -> Status sc = StatusCompleted ->
    exists t,
      Output sc !! "actualValue" = Some (VFloat t) /\
      (forall node, Output sc !! "conditionMet"
         = Some (VBool (fst (processConditionNode node payload
                               {[ TemperatureKey := VFloat t ]})))) /\
      forall sw, sw ∈ Steps res -> NodeID sw = WeatherAPINodeID ->
        Status sw = StatusCompleted ->
        Output sw !! "temperature" = Some (VFloat t).
Proof.
  intros w h wf payload res err sc Hrun Hin Hid Hstatus.
  apply processNodes_steps in Hrun as (_ & st & o & Htrav & Hsteps & _).
  rewrite Hsteps in *.
  destruct (traverse_temperatureFlow _ _ _ _ _ _ _ _ _ Htrav) as (_ & _ & Hweather & Hcond).
  { split; [apply wellFormed_initial|]. split; [done|]. split; intros s Hs; inversion Hs. }
  destruct (Hcond sc Hin Hid Hstatus) as (Hactual & (t & Ht) & Hmet).
  assert (ctxValue (contextData st) TemperatureKey = VFloat t) as Hv
    by (unfold ctxValue; by rewrite Ht).
  exists t. rewrite Hactual, Hv. split; [done|]. split.
  - intros node. rewrite (Hmet node).
    rewrite (processConditionNode_float _ _ _ _ Ht).
    by rewrite (processConditionNode_float node payload {[ TemperatureKey := VFloat t ]} t
                  (lookup_singleton_eq _ _)).
  - intros sw Hsw Hidw Hstatusw. by rewrite (Hweather sw Hsw Hidw Hstatusw), Hv.
Qed.

Lemma X9_temperature_flow_witness :
  exists res,
    processNodes testWorld mockHandlers fullWorkflow happyPayload
      = Some (Return (Some res) None) /\
    exists t,
      Output deadEndStep !! "actualValue" = Some (VFloat t) /\
      (forall node, Output deadEndStep !! "conditionMet"
         = Some (VBool (fst (processConditionNode node happyPayload
                               {[ TemperatureKey := VFloat t ]})))) /\
      forall sw, sw ∈ Steps res -> NodeID sw = WeatherAPINodeID ->
        Status sw = StatusCompleted ->
        Output sw !! "temperature" = Some (VFloat t).
Proof.
  eexists. split; [reflexivity|].
  apply (X9_temperature_flow testWorld mockHandlers fullWorkflow happyPayload _ None deadEndStep).
  - reflexivity.
  - right. right. right. left.
  - reflexivity.
  - reflexivity.
Defined.

(** X10: the condition node depends on the weather node. On a workflow
    in which no edge leads to the weather node, every condition step of
    a result is a failed one, with the error "weather temp not in map". *)
Theorem X10_condition_needs_weather :
  forall w h wf payload res err s,
    (forall edge, edge ∈ Edges wf -> Target edge <> WeatherAPINodeID) ->
    processNodes w h wf payload = Some (Return (Some res) err) ->
    s ∈ Steps res -> NodeID s = ConditionNodeID ->
    Status s = StatusFailed /\
    Output s !! "error" = Some (VStr "weather temp not in map").
Proof.
  intros w h wf payload res err s Hedges Hrun Hin Hid.
  apply processNodes_steps in Hrun as (_ & st & o & Htrav & Hsteps & _).
  rewrite Hsteps in Hin.
  assert (forall id, called wf id -> id <> WeatherAPINodeID) as Hcalled.
  { intros id [->|(edge & Hedge & <-)]; [discriminate|by apply Hedges]. }
  assert (noTemperature st) as [_ Hall]; [|by apply Hall].
  apply (traverse_invariant w h wf payload (called wf) noTemperature
           (fun edge Hedge _ => or_intror (ex_intro _ edge (conj Hedge eq_refl))))
    with (fuel := enoughFuel wf) (id := StartNodeID) (st := initialState) (o := o).
  - done.
  - intros id0 st0 node HQ _ _ Hnode Hno. apply noTemperature_switch; [by apply Hcalled|done..].
  - by left.
  - exact Htrav.
  - split; [done|]. intros s0 Hs0. inversion Hs0.
Qed.

Lemma X10_condition_needs_weather_witness :
  exists res s,
    processNodes testWorld mockHandlers coldWorkflow happyPayload
      = Some (Return (Some res) None) /\
    last (Steps res) = Some s /\
    Status s = StatusFailed /\
    Output s !! "error" = Some (VStr "weather temp not in map").
Proof.
  eexists _, _. split; [reflexivity|]. split; [reflexivity|].
  eapply (X10_condition_needs_weather testWorld mockHandlers coldWorkflow happyPayload).
  - intros edge Hin. apply list_elem_of_In in Hin. simpl in Hin.
    destruct Hin as [<-|[<-|[]]]; discriminate.
  - reflexivity.
  - right. left.
  - reflexivity.
Defined.

(** X11: the traversal is exhaustive, and a failed handler prunes only
    the edges that leave its own node. In a run that returns no error,
    every declared node with one of the six ids of the switch that a
    path of followed edges leads to from the start node has a step in
    the result; an edge leaving the condition node is followed when it
    is the one the routing loop finds for the outcome the condition
    step records, any other edge when its source has no failed step. *)
Theorem X11_exhaustive :
  forall w h wf payload res node,
    processNodes w h wf payload = Some (Return (Some res) None) ->
    node ∈ Nodes wf -> is_Some (switchCase (ID node)) ->
    executedFrom wf (Steps res) (ID node) ->
    ID node ∈ NodeID <$> Steps res.
Proof.
  intros w h wf payload res node Hrun Hnode Hcase Hreach.
  apply processNodes_steps in Hrun as (_ & st & o & Htrav & Hsteps & ->).
  rewrite Hsteps in *.
  apply (traverse_recorded _ _ _ _ _ _ _ _ _ Htrav); try done.
  - intros id Hid. inversion Hid.
  - by apply (traversal_exhaustive w h wf payload).
  - apply nodeMap_lookup_is_Some. eauto.
Qed.

Lemma X11_exhaustive_witness :
  exists res,
    processNodes testWorld mockHandlers fanOutWorkflow emptyPayload
      = Some (Return (Some res) None) /\
    (exists s, s ∈ Steps res /\ Status s = StatusFailed) /\
    EndNodeID ∈ NodeID <$> Steps res.
Proof.
  eexists. split; [reflexivity|]. split.
  { eexists. split; [right; left|reflexivity]. }
  apply (X11_exhaustive testWorld mockHandlers fanOutWorkflow emptyPayload _
           (plainNode EndNodeID "end")).
  - reflexivity.
  - right. right. left.
  - eexists. reflexivity.
  - apply (executed_edge fanOutWorkflow _ (plainEdge StartNodeID EndNodeID EmptyString)).
    + right. left.
    + apply executed_start.
    + unfold followed. simpl. intros s Hin Hid.
      apply list_elem_of_In in Hin. simpl in Hin.
      destruct Hin as [<-|[<-|[<-|[]]]]; discriminate.
Defined.

(** ** The handlers of the nodes *)

(** X12: the weather handler. With an empty city it returns
    ErrMissingFormFieldCity whatever the network would answer; whenever
    it returns an error it leaves the context map as it was; and it
    returns nil only when the city is not empty, the geocoding request
    was answered with at least one result, and the weather request, made
    to the endpoint of the node with the coordinates of the first
    result filled in, was answered with status 200 and a temperature,
    which is then the only entry of the context map it has changed. *)
Theorem X12_weather_handler :
  forall w node payload ctx,
    (City (PayloadFormData payload) = EmptyString ->
     processWeatherNode w node payload ctx = (ctx, Some ErrMissingFormFieldCity)) /\
    (forall ctx' err, processWeatherNode w node payload ctx = (ctx', Some err) -> ctx' = ctx) /\
    (forall ctx',
       processWeatherNode w node payload ctx = (ctx', None) ->
       City (PayloadFormData payload) <> EmptyString /\
       exists geo lat lon rest weatherResp temperature,
         httpGet w (geoURL (City (PayloadFormData payload))) = inr geo /\
         decodeGeo w (RespBody geo) = Some ((lat, lon) :: rest) /\
         httpGet w (weatherURL w node lat lon) = inr weatherResp /\
         StatusCode weatherResp = 200%Z /\
         decodeWeather w (RespBody weatherResp) = Some temperature /\
         ctx' = <[TemperatureKey := VFloat temperature]> ctx).
Proof.
  intros w node payload ctx. split; [|split].
  - intros Hcity. unfold processWeatherNode. by rewrite Hcity.
  - apply processWeatherNode_failure.
  - apply processWeatherNode_ok.
Qed.

(** X13: the weather handler and the condition handler compose. On the
    context map a successful weather handler leaves, where the
    temperature is a float and every other entry is as before, the
    condition handler fails exactly when the operator of the payload is
    none of the five it knows, and its outcome is the one it computes
    from that temperature alone. *)
Theorem X13_weather_then_condition :
  forall w node payload ctx ctx',
    processWeatherNode w node payload ctx = (ctx', None) ->
    exists t,
      ctx' !! TemperatureKey = Some (VFloat t) /\
      (forall key, key <> TemperatureKey -> ctx' !! key = ctx !! key) /\
      forall node',
        (snd (processConditionNode node' payload ctx') = None <->
         Operator (PayloadCondition payload) ∈ recognizedOperators) /\
        fst (processConditionNode node' payload ctx')
        = fst (processConditionNode node' payload {[ TemperatureKey := VFloat t ]}).
Proof.
  intros w node payload ctx ctx' Hweather.
  apply processWeatherNode_ok in Hweather
    as (_ & geo & lat & lon & rest & resp & t & _ & _ & _ & _ & _ & ->).
  exists t. split; [by rewrite lookup_insert_eq|].
  split; [intros key Hkey; by rewrite lookup_insert_ne|].
  intros node'. split.
  - pose proof (processConditionNode_fails node' payload
                  (<[TemperatureKey := VFloat t]> ctx)) as Hfails.
    rewrite lookup_insert_eq in Hfails.
    destruct (decide (Operator (PayloadCondition payload) ∈ recognizedOperators)) as [Hin|Hnot].
    + split; [done|]. intros _.
      destruct (snd (processConditionNode node' payload (<[TemperatureKey:=VFloat t]> ctx)))
        as [e|] eqn:Hsnd; [|done].
      destruct (proj1 Hfails) as [[=]|[(v & [= <-] & Hv)|Hno]]; [done| |done].
      by destruct (Hv t).
    + split; [|done]. intros Hnone. exfalso. apply (proj2 Hfails); [|done]. by do 2 right.
  - rewrite (processConditionNode_float node' payload _ t (lookup_insert_eq _ _ _)).
    by rewrite (processConditionNode_float node' payload {[ TemperatureKey := VFloat t ]} t
                  (lookup_singleton_eq _ _)).
Qed.

Lemma X13_weather_then_condition_witness :
  exists t,
    ({[ TemperatureKey := VFloat 21 ]} : gmap string any) !! TemperatureKey = Some (VFloat t) /\
    (forall key, key <> TemperatureKey ->
       ({[ TemperatureKey := VFloat 21 ]} : gmap string any) !! key
       = (∅ : gmap string any) !! key) /\
    forall node',
      (snd (processConditionNode node' happyPayload {[ TemperatureKey := VFloat 21 ]}) = None <->
       Operator (PayloadCondition happyPayload) ∈ recognizedOperators) /\
      fst (processConditionNode node' happyPayload {[ TemperatureKey := VFloat 21 ]})
      = fst (processConditionNode node' happyPayload {[ TemperatureKey := VFloat t ]}).
Proof.
  apply (X13_weather_then_condition sunnyWorld (plainNode WeatherAPINodeID "weather-api")
           happyPayload ∅ {[ TemperatureKey := VFloat 21 ]}).
  reflexivity.
Defined.

(** X14: the five operators are consistent with one another. On a float
    temperature, greater_than_or_equal is met exactly when greater_than
    or equals is, less_than_or_equal exactly when less_than or equals
    is; when neither the temperature nor the threshold is NaN,
    greater_than is the negation of less_than_or_equal and less_than
    that of greater_than_or_equal; and when one of them is NaN no
    operator is met. *)
Theorem X14_operators_consistent :
  forall node ctx t threshold,
    ctx !! TemperatureKey = Some (VFloat t) ->
    let met operator :=
      fst (processConditionNode node (conditionPayload operator threshold) ctx) in
    met "greater_than_or_equal" = met "greater_than" || met "equals" /\
    met "less_than_or_equal" = met "less_than" || met "equals" /\
    (PrimFloat.is_nan t = false -> PrimFloat.is_nan threshold = false ->
     met "greater_than" = negb (met "less_than_or_equal") /\
     met "less_than" = negb (met "greater_than_or_equal")) /\
    (PrimFloat.is_nan t = true \/ PrimFloat.is_nan threshold = true ->
     Forall (fun operator => met operator = false) recognizedOperators).
Proof.
  intros node ctx t threshold Hctx met. unfold met.
  rewrite !(processConditionNode_float _ _ _ _ Hctx). simpl.
  split; [|split; [|split]].
  - by rewrite float_leb_ltb_eqb, (float_eqb_sym t threshold).
  - apply float_leb_ltb_eqb.
  - intros Ht Hthreshold. split; by apply float_ltb_negb_leb.
  - intros Hnan.
    destruct (float_nan_compare t threshold Hnan) as (H1 & H2 & H3).
    destruct (float_nan_compare threshold t) as (H4 & H5 & _); [tauto|].
    unfold recognizedOperators. repeat constructor;
      rewrite (processConditionNode_float _ _ _ _ Hctx); simpl; done.
Qed.

Lemma X14_operators_consistent_witness :
  fst (processConditionNode checkNode (conditionPayload "greater_than_or_equal" 20)
         {[ TemperatureKey := VFloat 15.5 ]})
  = fst (processConditionNode checkNode (conditionPayload "greater_than" 20)
           {[ TemperatureKey := VFloat 15.5 ]})
    || fst (processConditionNode checkNode (conditionPayload "equals" 20)
              {[ TemperatureKey := VFloat 15.5 ]}).
Proof.
  apply (X14_operators_consistent checkNode {[ TemperatureKey := VFloat 15.5 ]} 15.5%float
           20%float).
  reflexivity.
Defined.

(** X15: the routing loop of the condition case follows the first edge,
    in the order the edges are declared, that leaves the node and
    carries the label of the outcome, and finds none exactly when no
    edge does; the two labels differ, so an edge never answers both
    outcomes. *)
Theorem X15_route_first_match :
  forall id b edges,
    (forall target,
       routeEdge id b edges = Some target <->
       exists before edge after,
         edges = (before ++ edge :: after)%list /\
         Forall (fun e => ~ answers id b e) before /\
         answers id b edge /\ Target edge = target) /\
    (routeEdge id b edges = None <-> Forall (fun e => ~ answers id b e) edges) /\
    (forall edge, answers id true edge -> ~ answers id false edge).
Proof.
  intros id b edges. split; [|split].
  - intros target. apply routeEdge_first.
  - rewrite routeEdge_None, Forall_forall. unfold answers. naive_solver.
  - intros edge [_ Hmet] [_ Hno]. rewrite Hmet in Hno. discriminate Hno.
Qed.

(** ** The HTTP handlers *)

Lemma lookupFailure_reply err :
  Code (lookupFailure err) <> StatusOK /\
  Code (lookupFailure err) ∈ [StatusBadRequest; StatusNotFound; StatusInternalServerError] /\
  ContentType (lookupFailure err) = "text/plain; charset=utf-8" /\
  Content (lookupFailure err) ∈ errorBodies.
Proof.
  destruct err; simpl; (split; [done|]); (split; [set_solver|]); (split; [done|]);
    unfold errorBodies; simpl; set_solver.
Qed.

(** X16: a reply of HandleExecuteWorkflow of status 200 is the JSON of
    a result that processNodes returned without an error, so of overall
    status "completed": the request body was decoded, the definition
    found, parsed and written back, and the result marshalled. A result
    of status "failed" is never sent. *)
Theorem X16_execute_ok :
  forall (DB : Type) (repo : Repository DB) codec w h db id body db' r,
    HandleExecuteWorkflow repo codec w h db id body = Some (db', Respond r) ->
    Code r = StatusOK ->
    ContentType r = "application/json" /\
    exists payload definitionBytes wf res,
      decodePayload codec body = Some payload /\
      GetWorkflowDefinitionByID repo db id = inr definitionBytes /\
      unmarshalWorkflow codec definitionBytes = Some wf /\
      UpdateWorkflowDefinitionByID repo db (WorkflowID wf) definitionBytes = (db', None) /\
      processNodes w h wf payload = Some (Return (Some res) None) /\
      ResultStatus res = StatusCompleted /\
      marshalResult codec (Some res) = Some (Content r).
Proof.
  intros DB repo codec w h db id body db' r. unfold HandleExecuteWorkflow.
  destruct (decodePayload codec body) as [payload|].
  2: { intros [= <- <-] Hcode. discriminate Hcode. }
  destruct (GetWorkflowDefinitionByID repo db id) as [err|definitionBytes] eqn:Hget.
  { intros [= <- <-] Hcode. by destruct (proj1 (lookupFailure_reply err)). }
  destruct (unmarshalWorkflow codec definitionBytes) as [wf|] eqn:Hwf.
  2: { intros [= <- <-] Hcode. discriminate Hcode. }
  destruct (UpdateWorkflowDefinitionByID repo db (WorkflowID wf) definitionBytes)
    as [db1 [err|]] eqn:Hupdate.
  { intros [= <- <-] Hcode. discriminate Hcode. }
  destruct (processNodes w h wf payload) as [[result [e|]|]|] eqn:Hrun; try discriminate.
  - intros [= <- <-] Hcode. discriminate Hcode.
  - destruct (processNodes_nil_error _ _ _ _ _ Hrun) as (res & -> & Hstatus).
    destruct (marshalResult codec (Some res)) as [jsonBytes|] eqn:Hjson.
    + intros [= <- <-] _. split; [done|].
      by exists payload, definitionBytes, wf, res.
    + intros [= <- <-] Hcode. discriminate Hcode.
Qed.

Lemma X16_execute_ok_witness :
  exists db' r,
    HandleExecuteWorkflow oneRowRepository testCodec testWorld mockHandlers "full" "full" "{}"
    = Some (db', Respond r) /\
    Code r = 200%Z /\ Content r = "completed" /\
    ContentType r = "application/json" /\
    exists payload definitionBytes wf res,
      decodePayload testCodec "{}" = Some payload /\
      GetWorkflowDefinitionByID oneRowRepository "full" "full" = inr definitionBytes /\
      unmarshalWorkflow testCodec definitionBytes = Some wf /\
      UpdateWorkflowDefinitionByID oneRowRepository "full" (WorkflowID wf) definitionBytes
      = (db', None) /\
      processNodes testWorld mockHandlers wf payload = Some (Return (Some res) None) /\
      ResultStatus res = StatusCompleted /\
      marshalResult testCodec (Some res) = Some (Content r).
Proof.
  eexists _, _. split; [reflexivity|]. split; [reflexivity|]. split; [reflexivity|].
  apply (X16_execute_ok string oneRowRepository testCodec testWorld mockHandlers
           "full" "full" "{}"); reflexivity.
Defined.

(** X17: every other reply of HandleExecuteWorkflow has status 400, 404
    or 500, is sent as plain text, and its body is one of five fixed
    texts: the JSON object errorToJSON makes of ErrInvalidJSON,
    ErrWorkflowNotFound, ErrInternalServerError,
    ErrInvalidWorkflowFormat or ErrMarshalFailed, followed by a line
    feed. The error processNodes returned is never part of it, and 400
    is sent exactly when the request body does not decode, before the
    database is looked at. *)
Theorem X17_execute_error_replies :
  forall (DB : Type) (repo : Repository DB) codec w h db id body db' r,
    HandleExecuteWorkflow repo codec w h db id body = Some (db', Respond r) ->
    Code r <> StatusOK ->
    Code r ∈ [StatusBadRequest; StatusNotFound; StatusInternalServerError] /\
    ContentType r = "text/plain; charset=utf-8" /\
    Content r ∈ errorBodies /\
    (Code r = StatusBadRequest <-> decodePayload codec body = None).
Proof.
  intros DB repo codec w h db id body db' r. unfold HandleExecuteWorkflow.
  assert (forall err code,
    code ∈ [StatusNotFound; StatusInternalServerError] ->
    err ∈ [ErrWorkflowNotFound; ErrInternalServerError; ErrInvalidWorkflowFormat;
           ErrMarshalFailed] ->
    forall payload : ExecutePayload,
    Code (httpError (errorToJSON err) code)
      ∈ [StatusBadRequest; StatusNotFound; StatusInternalServerError] /\
    ContentType (httpError (errorToJSON err) code) = "text/plain; charset=utf-8" /\
    Content (httpError (errorToJSON err) code) ∈ errorBodies /\
    (Code (httpError (errorToJSON err) code) = StatusBadRequest <->
     Some payload = None)) as Hreply.
  { intros err code Hcode Herr payload. simpl. split; [set_solver|]. split; [done|]. split.
    - unfold errorBodies. apply list_elem_of_fmap. exists err. split; [done|]. set_solver.
    - split; [|done]. intros ->. set_solver. }
  destruct (decodePayload codec body) as [payload|].
  2: { intros [= <- <-] _. simpl. split; [set_solver|]. split; [done|]. split; [|done].
       unfold errorBodies. simpl. set_solver. }
  destruct (GetWorkflowDefinitionByID repo db id) as [err|definitionBytes].
  { intros [= <- <-] _. destruct err; apply Hreply; set_solver. }
  destruct (unmarshalWorkflow codec definitionBytes) as [wf|].
  2: { intros [= <- <-] _. apply Hreply; set_solver. }
  destruct (UpdateWorkflowDefinitionByID repo db (WorkflowID wf) definitionBytes)
    as [db1 [err|]].
  { intros [= <- <-] _. apply Hreply; set_solver. }
  destruct (processNodes w h wf payload) as [[result [e|]|]|]; try discriminate.
  - intros [= <- <-] _. apply Hreply; set_solver.
  - destruct (marshalResult codec result) as [jsonBytes|].
    + intros [= <- <-] Hcode. by destruct Hcode.
    + intros [= <- <-] _. apply Hreply; set_solver.
Qed.

Lemma X17_execute_error_replies_witness :
  Code (httpError (errorToJSON ErrWorkflowNotFound) StatusNotFound)
    ∈ [StatusBadRequest; StatusNotFound; StatusInternalServerError] /\
  ContentType (httpError (errorToJSON ErrWorkflowNotFound) StatusNotFound)
    = "text/plain; charset=utf-8" /\
  Content (httpError (errorToJSON ErrWorkflowNotFound) StatusNotFound) ∈ errorBodies /\
  (Code (httpError (errorToJSON ErrWorkflowNotFound) StatusNotFound) = StatusBadRequest <->
   decodePayload testCodec "{}" = None).
Proof.
  apply (X17_execute_error_replies string oneRowRepository testCodec testWorld mockHandlers
           "full" "absent" "{}" "full").
  - reflexivity.
  - discriminate.
Defined.

(** X18: HandleExecuteWorkflow writes the definition back before it
    executes it. Once the body is decoded and the definition found and
    parsed, the database the handler leaves is the one
    UpdateWorkflowDefinitionByID leaves, called with the id inside the
    definition and the bytes just read, whether the run then succeeds,
    fails or panics; a request rejected earlier leaves the database as
    it was. *)
Theorem X18_execute_stores :
  forall (DB : Type) (repo : Repository DB) codec w h db id body db' reply,
    HandleExecuteWorkflow repo codec w h db id body = Some (db', reply) ->
    (forall payload definitionBytes wf,
       decodePayload codec body = Some payload ->
       GetWorkflowDefinitionByID repo db id = inr definitionBytes ->
       unmarshalWorkflow codec definitionBytes = Some wf ->
       db' = fst (UpdateWorkflowDefinitionByID repo db (WorkflowID wf) definitionBytes)) /\
    (decodePayload codec body = None \/
     (exists err, GetWorkflowDefinitionByID repo db id = inl err) \/
     (exists definitionBytes, GetWorkflowDefinitionByID repo db id = inr definitionBytes /\
        unmarshalWorkflow codec definitionBytes = None) ->
     db' = db).
Proof.
  intros DB repo codec w h db id body db' reply. unfold HandleExecuteWorkflow.
  destruct (decodePayload codec body) as [payload|].
  2: { intros [= <- <-]. split; [done|]. done. }
  destruct (GetWorkflowDefinitionByID repo db id) as [err|definitionBytes].
  { intros [= <- <-]. split; [done|]. done. }
  destruct (unmarshalWorkflow codec definitionBytes) as [wf|] eqn:Hwf.
  2: { intros [= <- <-]. split; [|done]. intros ? ? ? _ [= <-]. congruence. }
  destruct (UpdateWorkflowDefinitionByID repo db (WorkflowID wf) definitionBytes)
    as [db1 [err|]] eqn:Hupdate.
  { intros [= <- <-]. split.
    - intros ? ? ? _ [= <-] Hwf'. rewrite Hwf in Hwf'. inversion Hwf'; subst.
      by rewrite Hupdate.
    - intros [[=]|[[? [=]]|(? & [= <-] & ?)]]. congruence. }
  assert (db' = db1 ->
    (forall payload0 definitionBytes0 wf0,
       Some payload = Some payload0 ->
       inr definitionBytes = (inr definitionBytes0 : dbError + string) ->
       unmarshalWorkflow codec definitionBytes0 = Some wf0 ->
       db' = fst (UpdateWorkflowDefinitionByID repo db (WorkflowID wf0) definitionBytes0)) /\
    (Some payload = None \/
     (exists err, inr definitionBytes = (inl err : dbError + string)) \/
     (exists definitionBytes0, inr definitionBytes = (inr definitionBytes0 : dbError + string) /\
        unmarshalWorkflow codec definitionBytes0 = None) -> db' = db)) as Hdone.
  { intros ->. split.
    - intros ? ? ? _ [= <-] Hwf'. rewrite Hwf in Hwf'. inversion Hwf'; subst.
      by rewrite Hupdate.
    - intros [[=]|[[? [=]]|(? & [= <-] & ?)]]. congruence. }
  destruct (processNodes w h wf payload) as [[result [e|]|]|]; try discriminate.
  - intros [= <- <-]. by apply Hdone.
  - destruct (marshalResult codec result); intros [= <- <-]; by apply Hdone.
  - intros [= <- <-]. by apply Hdone.
Qed.

Lemma X18_execute_stores_witness :
  "full" = fst (UpdateWorkflowDefinitionByID oneRowRepository "full" "routed" "full").
Proof.
  apply (proj1 (X18_execute_stores string oneRowRepository testCodec testWorld mockHandlers
                  "full" "full" "{}" "full" (Respond (jsonOK "completed")) eq_refl)
           happyPayload "full" routedWorkflow); reflexivity.
Defined.

(** X19: end to end. When the body decodes, the stored definition is
    found, parses to a workflow with a start and an end node whose
    edges lead to declared nodes, whose condition node has an edge for
    either outcome and whose email node has a template, the write-back
    succeeds and results can be marshalled, then however
    HandleExecuteWorkflow ends, it ends with the reply 200 and the JSON
    of a result of status "completed" that processNodes returned: it
    does not panic and sends no error, whatever the node handlers
    return. *)
Theorem X19_execute_end_to_end :
  forall (DB : Type) (repo : Repository DB) codec w h db id body payload definitionBytes wf db',
    decodePayload codec body = Some payload ->
    GetWorkflowDefinitionByID repo db id = inr definitionBytes ->
    unmarshalWorkflow codec definitionBytes = Some wf ->
    UpdateWorkflowDefinitionByID repo db (WorkflowID wf) definitionBytes = (db', None) ->
    validated wf -> closedWorkflow wf -> routable wf -> templated wf ->
    (forall res, is_Some (marshalResult codec (Some res))) ->
    forall db'' reply,
      HandleExecuteWorkflow repo codec w h db id body = Some (db'', reply) ->
      db'' = db' /\
      exists res jsonBytes,
        reply = Respond (jsonOK jsonBytes) /\
        marshalResult codec (Some res) = Some jsonBytes /\
        processNodes w h wf payload = Some (Return (Some res) None) /\
        ResultStatus res = StatusCompleted.
Proof.
  intros DB repo codec w h db id body payload definitionBytes wf db'
    Hbody Hget Hwf Hupdate Hvalid Hclosed Hroutable Htemplated Hmarshal db'' reply.
  destruct (processNodes_sound w h wf payload Hvalid Hclosed Hroutable Htemplated)
    as (res & Hrun & Hstatus).
  destruct (Hmarshal res) as [jsonBytes Hjson].
  unfold HandleExecuteWorkflow.
  rewrite Hbody, Hget, Hwf, Hupdate, Hrun, Hjson. intros [= <- <-].
  split; [done|]. by exists res, jsonBytes.
Qed.

Lemma X19_execute_end_to_end_witness :
  exists db'' reply,
    HandleExecuteWorkflow oneRowRepository testCodec testWorld mockHandlers "full" "full" "{}"
    = Some (db'', reply) /\
    reply = Respond (jsonOK "completed") /\
    db'' = "full" /\
    exists res jsonBytes,
      reply = Respond (jsonOK jsonBytes) /\
      marshalResult testCodec (Some res) = Some jsonBytes /\
      processNodes testWorld mockHandlers routedWorkflow happyPayload
      = Some (Return (Some res) None) /\
      ResultStatus res = StatusCompleted.
Proof.
  eexists _, _. split; [reflexivity|]. split; [reflexivity|].
  apply (X19_execute_end_to_end string oneRowRepository testCodec testWorld mockHandlers
           "full" "full" "{}" happyPayload "full" routedWorkflow "full");
    try reflexivity.
  - split; eexists; reflexivity.
  - intros edge Hin. apply list_elem_of_In in Hin. simpl in Hin.
    destruct Hin as [<-|[<-|[<-|[<-|[<-|[<-|[]]]]]]];
      apply nodeMap_lookup_is_Some; eexists; reflexivity.
  - intros _ [|].
    + exists (plainEdge ConditionNodeID EmailNodeID ConditionMetLabel).
      split; [do 3 right; left|split; reflexivity].
    + exists (plainEdge ConditionNodeID EndNodeID NoAlertLabel).
      split; [do 5 right; left|split; reflexivity].
  - intros node [= <-]. eexists. reflexivity.
  - intros res. eexists. reflexivity.
Defined.

(** X20: HandleGetWorkflow answers 200 exactly when the definition is
    found and parses, and the body is then the stored bytes as they
    are, sent as JSON; otherwise its reply is one of the fixed error
    replies (404 for pgx.ErrNoRows, 500 for any other failure), and
    HandleExecuteWorkflow answers a request for the same id with a
    decodable body by that same reply, leaving the database as it
    was. *)
Theorem X20_get_workflow :
  forall (DB : Type) (repo : Repository DB) codec db id,
    let r := HandleGetWorkflow repo codec db id in
    (Code r = StatusOK <->
     exists definitionBytes wf,
       GetWorkflowDefinitionByID repo db id = inr definitionBytes /\
       unmarshalWorkflow codec definitionBytes = Some wf) /\
    (Code r = StatusOK ->
     GetWorkflowDefinitionByID repo db id = inr (Content r) /\
     ContentType r = "application/json") /\
    (Code r <> StatusOK ->
     Code r ∈ [StatusNotFound; StatusInternalServerError] /\
     (Code r = StatusNotFound <-> GetWorkflowDefinitionByID repo db id = inl ErrNoRows) /\
     Content r ∈ errorBodies /\
     forall w h body payload,
       decodePayload codec body = Some payload ->
       HandleExecuteWorkflow repo codec w h db id body = Some (db, Respond r)).
Proof.
  intros DB repo codec db id. unfold HandleGetWorkflow, HandleExecuteWorkflow.
  destruct (GetWorkflowDefinitionByID repo db id) as [err|definitionBytes]; simpl.
  - split; [|split].
    + split; [by destruct err|]. by intros (? & ? & [=] & _).
    + by destruct err.
    + intros _. split; [destruct err; set_solver|]. split.
      * destruct err; simpl; split; try done; intros [=].
      * split; [apply lookupFailure_reply|]. intros w h body payload ->. done.
  - destruct (unmarshalWorkflow codec definitionBytes) as [wf|] eqn:Hwf; simpl.
    + split; [|split]; [split; eauto|done|done].
    + split; [|split].
      * split; [done|]. intros (? & ? & [= <-] & ?). congruence.
      * done.
      * intros _. split; [set_solver|]. split; [split; [done|intros [=]]|].
        split; [unfold errorBodies; simpl; set_solver|].
        by intros w h body payload ->.
Qed.

(** ** The email draft *)

(** X21: the output of a completed email step is the mock delivery
    record around a draft addressed to the email of the payload, with
    the subject of the template of the email node and its body in which
    "{{city}}" is replaced by the city of the payload and then
    "{{temperature}}" by the "%.1f" rendering of the context
    temperature: the value every completed weather step before the
    email step shows as "temperature", and nil when no weather step
    comes before it. *)
Theorem X21_email_draft :
  forall w h wf payload res err before se after,
    processNodes w h wf payload = Some (Return (Some res) err) ->
    Steps res = (before ++ se :: after)%list ->
    NodeID se = EmailNodeID -> Status se = StatusCompleted ->
    exists node template stamp d temperature,
      last (nodesWithID wf EmailNodeID) = Some node /\
      MetaEmailTemplate (Metadata (Data node)) = Some template /\
      Output se
      = {[ "emailDraft" := VMap
             {[ "to" := VStr (Email (PayloadFormData payload));
                "from" := VStr "weather-alerts@example.com";
                "subject" := VStr (Subject template);
                "body" := VStr (ReplaceAll
                   (ReplaceAll (Body template) "{{city}}" (City (PayloadFormData payload)))
                   "{{temperature}}" (sprintf_1f w temperature));
                "timestamp" := VStr stamp ]};
           "deliveryStatus" := VStr "sent";
           "messageId" := VStr "msg_abc123def456";
           "emailSent" := VBool true;
           "duration" := VInt d ]} /\
      (forall sw, sw ∈ before -> NodeID sw = WeatherAPINodeID ->
         Status sw = StatusCompleted -> Output sw !! "temperature" = Some temperature) /\
      ((forall sw, sw ∈ before -> NodeID sw <> WeatherAPINodeID) -> temperature = VNil).
Proof.
  intros w h wf payload res err before se after Hrun Hsteps Hid Hstatus.
  apply processNodes_steps in Hrun as (_ & st & o & Htrav & Heq & _).
  rewrite Heq in Hsteps.
  destruct (traverse_emailFlow _ _ _ _ _ _ _ _ _ Htrav) as (_ & _ & Hemail).
  { split; [apply wellFormed_initial|]. split; [done|].
    intros pre s post Hnil. by destruct pre. }
  destruct (traverse_temperatureFlow _ _ _ _ _ _ _ _ _ Htrav) as (_ & _ & Hweather & _).
  { split; [apply wellFormed_initial|]. split; [done|]. split; intros s Hs; inversion Hs. }
  destruct (Hemail before se after Hsteps Hid Hstatus)
    as (node & template & stamp & d & v & Hnode & Htemplate & Hout & Hafter & Hnone).
  exists node, template, stamp, d, v. split; [by rewrite <- nodeMap_last|].
  split; [done|]. split; [done|]. split; [|done].
  intros sw Hsw Hidw Hstatusw. rewrite (Hafter (ex_intro _ sw (conj Hsw Hidw))).
  apply Hweather; try done. rewrite Hsteps. apply elem_of_app. by left.
Qed.

Lemma X21_email_draft_witness :
  exists res,
    processNodes testWorld mockHandlers fullWorkflow happyPayload
      = Some (Return (Some res) None) /\
    exists se,
      Steps res !! 4%nat = Some se /\
      exists node template stamp d temperature,
        last (nodesWithID fullWorkflow EmailNodeID) = Some node /\
        MetaEmailTemplate (Metadata (Data node)) = Some template /\
        Output se
        = {[ "emailDraft" := VMap
               {[ "to" := VStr (Email (PayloadFormData happyPayload));
                  "from" := VStr "weather-alerts@example.com";
                  "subject" := VStr (Subject template);
                  "body" := VStr (ReplaceAll
                     (ReplaceAll (Body template) "{{city}}"
                        (City (PayloadFormData happyPayload)))
                     "{{temperature}}" (sprintf_1f testWorld temperature));
                  "timestamp" := VStr stamp ]};
             "deliveryStatus" := VStr "sent";
             "messageId" := VStr "msg_abc123def456";
             "emailSent" := VBool true;
             "duration" := VInt d ]} /\
        (forall sw, sw ∈ take 4 (Steps res) -> NodeID sw = WeatherAPINodeID ->
           Status sw = StatusCompleted -> Output sw !! "temperature" = Some temperature) /\
        ((forall sw, sw ∈ take 4 (Steps res) -> NodeID sw <> WeatherAPINodeID) ->
         temperature = VNil).
Proof.
  eexists. split; [reflexivity|]. eexists. split; [reflexivity|].
  eapply (X21_email_draft testWorld mockHandlers fullWorkflow happyPayload _ None _ _
            [stepOf (plainNode EndNodeID "end") StatusCompleted {[ "duration" := VInt 0 ]}]);
    reflexivity.
Defined.

(** ** What of the workflow the run depends on *)

(** X22: the order in which the nodes are listed does not matter when
    their ids are pairwise distinct, and neither does the id of the
    workflow: two workflows with the same edges, in the same order, and
    the same nodes in any order make processNodes return the same. *)
Theorem X22_node_order_irrelevant :
  forall w h wf wf' payload,
    NoDup (ID <$> Nodes wf) ->
    Nodes wf' ≡ₚ Nodes wf ->
    Edges wf' = Edges wf ->
    processNodes w h wf' payload = processNodes w h wf payload.
Proof.
  intros w h wf wf' payload Hnodup Hperm Hedges.
  apply processNodes_ext; [|done]. by apply nodeMap_Permutation.
Qed.

Lemma X22_node_order_irrelevant_witness :
  processNodes testWorld mockHandlers
    {| WorkflowID := "swapped";
       Nodes := [plainNode FormNodeID "form"; plainNode StartNodeID "start";
                 plainNode EndNodeID "end"];
       Edges := Edges formWorkflow |} emptyPayload
  = processNodes testWorld mockHandlers formWorkflow emptyPayload.
Proof.
  apply X22_node_order_irrelevant.
  - apply (bool_decide_unpack _). vm_compute. exact I.
  - apply perm_swap.
  - reflexivity.
Defined.
